(** * SpatialMapping semantic memory: entities, relationships and the
      semantic graph, embedded from
      [semantic_memory/core/entity.py], [semantic_memory/core/relationship.py]
      and [semantic_memory/graph/semantic_graph.py].

    Conventions of the embedding.
    - A Python [float] is idealised as a real number ([R]); comparisons are
      the decidable comparisons of [R].
    - A Python [int] is [Z]; a [UUID] is its 128-bit integer value ([N]);
      a [datetime] is a point on a time axis ([Z]); [datetime.now()] is an
      explicit argument [now] of the operations that read the clock.
    - A Python [str] is a [string]; [str.lower] is modelled on ASCII letters.
    - A Python [set] is a [gset]; a [dict] whose iteration order is visible
      (the primary indices, the adjacency of the multigraph) is an
      insertion-ordered association list; the two secondary indices are
      [gmap]s.
    - Entity and Relationship objects are mutable and shared between the
      indices and the multigraph, so they live in an object heap and are
      referred to by address.
    - Exceptions are values of [PyExc]; a fallible operation returns
      [PyExc + A], a mutating one also returns the store. *)

From Stdlib Require Import Reals Lra ZArith String Ascii List.
From stdpp Require Import gmap strings list fin_maps.

Local Open Scope R_scope.

(** ** Python built-ins used by the code *)

Module Py.

(** [str.lower()] on ASCII letters. *)
Definition lower_ascii (c : ascii) : ascii :=
  let n := nat_of_ascii c in
  if ((65 <=? n)%nat && (n <=? 90)%nat)%bool then ascii_of_nat (n + 32) else c.

Fixpoint lower (s : string) : string :=
  match s with
  | EmptyString => EmptyString
  | String c r => String (lower_ascii c) (lower r)
  end.

(** [sub in s] for two strings. *)
Fixpoint str_in (sub s : string) : bool :=
  if String.prefix sub s then true
  else match s with
       | EmptyString => false
       | String _ r => str_in sub r
       end.

(** Truthiness of an [Optional[str]]: [None] and the empty string are
    false. *)
Definition truthy_str (o : option string) : bool :=
  match o with
  | Some (String _ _) => true
  | _ => false
  end.

(** Truthiness of an [Optional[List[float]]]. *)
Definition truthy_list {A} (o : option (list A)) : bool :=
  match o with
  | Some (_ :: _) => true
  | _ => false
  end.

(** [sum(...)] over floats. *)
Definition sum (l : list R) : R := fold_left Rplus l 0.

(** [zip(a, b)]. *)
Fixpoint zip {A B} (a : list A) (b : list B) : list (A * B) :=
  match a, b with
  | x :: a', y :: b' => (x, y) :: zip a' b'
  | _, _ => []
  end.

(** Comparisons on floats as booleans. *)
Definition gt (x y : R) : bool := if Rlt_dec y x then true else false.
Definition lt (x y : R) : bool := if Rlt_dec x y then true else false.
Definition eq (x y : R) : bool := if Req_dec_T x y then true else false.

(** [min(a, b)]: [b] when [b < a], else [a]. *)
Definition min (a b : R) : R := if lt b a then b else a.

End Py.

(** ** entity.py *)

Definition UUID := N.
Definition datetime := Z.

Inductive EntityType :=
| OBJECT | SPACE | LANDMARK | PERSON | MATERIAL
| EQUIPMENT | CONTAINER | SURFACE | UNKNOWN.

#[global] Instance EntityType_eq_dec : EqDecision EntityType.
Proof. solve_decision. Defined.

Definition EntityType_code (t : EntityType) : nat :=
  match t with
  | OBJECT => 0 | SPACE => 1 | LANDMARK => 2 | PERSON => 3 | MATERIAL => 4
  | EQUIPMENT => 5 | CONTAINER => 6 | SURFACE => 7 | UNKNOWN => 8
  end%nat.

Definition EntityType_of_code (n : nat) : option EntityType :=
  match n with
  | 0 => Some OBJECT | 1 => Some SPACE | 2 => Some LANDMARK | 3 => Some PERSON
  | 4 => Some MATERIAL | 5 => Some EQUIPMENT | 6 => Some CONTAINER
  | 7 => Some SURFACE | 8 => Some UNKNOWN | _ => None
  end%nat.

#[global] Program Instance EntityType_countable : Countable EntityType :=
  inj_countable EntityType_code EntityType_of_code _.
Next Obligation. by intros []. Qed.

(** The string value of each member of the enumeration. *)
Definition EntityType_value (t : EntityType) : string :=
  match t with
  | OBJECT => "object" | SPACE => "space" | LANDMARK => "landmark"
  | PERSON => "person" | MATERIAL => "material" | EQUIPMENT => "equipment"
  | CONTAINER => "container" | SURFACE => "surface" | UNKNOWN => "unknown"
  end.

(** A value of a free-form property ([Dict[str, Any]]), restricted to the
    scalars that a JSON document holds unchanged. *)
Inductive PyVal :=
| VNone
| VBool (b : bool)
| VInt (z : Z)
| VFloat (r : R)
| VStr (s : string).

Record VisualFeatures := {
  embedding : option (list R);
  color_histogram : option (list R);
  dominant_colors : list string;
  size_estimate : option string;
  shape_descriptor : option string;
  texture_features : option (list R);
}.

Record SemanticAttributes := {
  category : option string;
  subcategory : option string;
  function : option string;
  material_composition : list string;
  brand : option string;
  model : option string;
  tags : gset string;
  description : option string;
  aliases : list string;
}.

Record Entity := {
  id : UUID;
  entity_type : EntityType;
  name : string;
  semantic : SemanticAttributes;
  visual : VisualFeatures;
  first_observed : datetime;
  last_observed : datetime;
  observation_count : Z;
  source_devices : gset string;
  confidence : R;
  properties : gmap string PyVal;
}.

(** [VisualFeatures()] and [SemanticAttributes()], the field defaults. *)
Definition VisualFeatures_default : VisualFeatures :=
  {| embedding := None; color_histogram := None; dominant_colors := [];
     size_estimate := None; shape_descriptor := None;
     texture_features := None |}.

Definition SemanticAttributes_default : SemanticAttributes :=
  {| category := None; subcategory := None; function := None;
     material_composition := []; brand := None; model := None; tags := ∅;
     description := None; aliases := [] |}.

(** The field constraint [confidence: float = Field(ge=0.0, le=1.0)]. *)
Definition Entity_valid (e : Entity) : Prop := 0 <= confidence e <= 1.

Module EntityM.

(** [Entity.merge_observation(self, other, weight)]; the object [self]
    is mutated, so the function returns its new contents.  The
    statements are kept in the order of the source: the confidence is
    blended first, and the later test on the semantic fields reads the
    blended value. *)
Definition merge_observation (now : datetime) (self other : Entity)
    (weight : R) : Entity :=
  let last_observed1 := now in
  let observation_count1 := (observation_count self + 1)%Z in
  let tags1 :=
    if bool_decide (tags (semantic other) ≠ ∅)
    then tags (semantic self) ∪ tags (semantic other)
    else tags (semantic self) in
  let aliases1 :=
    match aliases (semantic other) with
    | [] => aliases (semantic self)
    | _ :: _ => aliases (semantic self) ++ aliases (semantic other)
    end in
  let confidence1 := (1 - weight) * confidence self + weight * confidence other in
  let source_devices1 := source_devices self ∪ source_devices other in
  let properties1 := properties other ∪ properties self in
  let more_confident := Py.gt (confidence other) confidence1 in
  let category1 :=
    if (more_confident && Py.truthy_str (category (semantic other)))%bool
    then category (semantic other) else category (semantic self) in
  let function1 :=
    if (more_confident && Py.truthy_str (function (semantic other)))%bool
    then function (semantic other) else function (semantic self) in
  {| id := id self;
     entity_type := entity_type self;
     name := name self;
     semantic :=
       {| category := category1;
          subcategory := subcategory (semantic self);
          function := function1;
          material_composition := material_composition (semantic self);
          brand := brand (semantic self);
          model := model (semantic self);
          tags := tags1;
          description := description (semantic self);
          aliases := aliases1 |};
     visual := visual self;
     first_observed := first_observed self;
     last_observed := last_observed1;
     observation_count := observation_count1;
     source_devices := source_devices1;
     confidence := confidence1;
     properties := properties1 |}.

(** [Entity._cosine_similarity(vec1, vec2)]. *)
Definition _cosine_similarity (vec1 vec2 : list R) : R :=
  if bool_decide (length vec1 ≠ length vec2) then 0
  else
    let dot_product := Py.sum (map (fun ab => fst ab * snd ab) (Py.zip vec1 vec2)) in
    let norm1 := sqrt (Py.sum (map (fun a => a * a) vec1)) in
    let norm2 := sqrt (Py.sum (map (fun b => b * b) vec2)) in
    if (Py.eq norm1 0 || Py.eq norm2 0)%bool then 0
    else dot_product / (norm1 * norm2).

(** [Entity.matches(self, other, threshold)]. *)
Definition matches (self other : Entity) (threshold : R) : bool :=
  if (bool_decide (entity_type self ≠ entity_type other)
      && bool_decide (entity_type self ≠ UNKNOWN)
      && bool_decide (entity_type other ≠ UNKNOWN))%bool
  then false
  else
    let name_match := String.eqb (Py.lower (name self)) (Py.lower (name other)) in
    if name_match then true
    else
      let all_names_self : gset string :=
        {[ Py.lower (name self) ]} ∪ list_to_set (map Py.lower (aliases (semantic self))) in
      let all_names_other : gset string :=
        {[ Py.lower (name other) ]} ∪ list_to_set (map Py.lower (aliases (semantic other))) in
      if bool_decide (all_names_self ∩ all_names_other ≠ ∅) then true
      else
        if (Py.truthy_list (embedding (visual self))
            && Py.truthy_list (embedding (visual other))
            && Py.gt (_cosine_similarity (default [] (embedding (visual self)))
                                         (default [] (embedding (visual other))))
                     threshold)%bool
        then true
        else
          if (bool_decide (tags (semantic self) ≠ ∅)
              && bool_decide (tags (semantic other) ≠ ∅)
              && (let tag_overlap := size (tags (semantic self) ∩ tags (semantic other)) in
                  let tag_union := size (tags (semantic self) ∪ tags (semantic other)) in
                  bool_decide (0 < tag_union)%nat
                  && Py.gt (INR tag_overlap / INR tag_union) 0.5))%bool
          then true
          else false.

End EntityM.

(** ** relationship.py *)

Inductive RelationType :=
| ON | IN | NEAR | NEXT_TO | ABOVE | BELOW | LEFT_OF | RIGHT_OF
| IN_FRONT_OF | BEHIND | ATTACHED_TO
| PART_OF | USED_WITH | OPERATES | PRODUCES | CONSUMES
| IS_A | INSTANCE_OF
| OWNED_BY | ASSIGNED_TO | STORED_IN
| BEFORE | AFTER | REPLACES
| RELATED_TO.

#[global] Instance RelationType_eq_dec : EqDecision RelationType.
Proof. solve_decision. Defined.

Definition RelationType_all : list RelationType :=
  [ON; IN; NEAR; NEXT_TO; ABOVE; BELOW; LEFT_OF; RIGHT_OF; IN_FRONT_OF;
   BEHIND; ATTACHED_TO; PART_OF; USED_WITH; OPERATES; PRODUCES; CONSUMES;
   IS_A; INSTANCE_OF; OWNED_BY; ASSIGNED_TO; STORED_IN; BEFORE; AFTER;
   REPLACES; RELATED_TO].

Definition RelationType_code (t : RelationType) : nat :=
  match t with
  | ON => 0 | IN => 1 | NEAR => 2 | NEXT_TO => 3 | ABOVE => 4 | BELOW => 5
  | LEFT_OF => 6 | RIGHT_OF => 7 | IN_FRONT_OF => 8 | BEHIND => 9
  | ATTACHED_TO => 10 | PART_OF => 11 | USED_WITH => 12 | OPERATES => 13
  | PRODUCES => 14 | CONSUMES => 15 | IS_A => 16 | INSTANCE_OF => 17
  | OWNED_BY => 18 | ASSIGNED_TO => 19 | STORED_IN => 20 | BEFORE => 21
  | AFTER => 22 | REPLACES => 23 | RELATED_TO => 24
  end%nat.

#[global] Program Instance RelationType_countable : Countable RelationType :=
  inj_countable RelationType_code (fun n => RelationType_all !! n) _.
Next Obligation. by intros []. Qed.

Definition RelationType_value (t : RelationType) : string :=
  match t with
  | ON => "on" | IN => "in" | NEAR => "near" | NEXT_TO => "next_to"
  | ABOVE => "above" | BELOW => "below" | LEFT_OF => "left_of"
  | RIGHT_OF => "right_of" | IN_FRONT_OF => "in_front_of"
  | BEHIND => "behind" | ATTACHED_TO => "attached_to"
  | PART_OF => "part_of" | USED_WITH => "used_with" | OPERATES => "operates"
  | PRODUCES => "produces" | CONSUMES => "consumes" | IS_A => "is_a"
  | INSTANCE_OF => "instance_of" | OWNED_BY => "owned_by"
  | ASSIGNED_TO => "assigned_to" | STORED_IN => "stored_in"
  | BEFORE => "before" | AFTER => "after" | REPLACES => "replaces"
  | RELATED_TO => "related_to"
  end.

Record SpatialProperties := {
  distance_estimate : option string;
  distance_meters : option R;
  relative_orientation : option R;
  elevation_difference : option string;
  sp_confidence : R;
}.

Record Relationship := {
  rel_id : UUID;
  relation_type : RelationType;
  source_id : UUID;
  target_id : UUID;
  spatial : option SpatialProperties;
  rel_first_observed : datetime;
  rel_last_observed : datetime;
  rel_observation_count : Z;
  rel_source_devices : gset string;
  rel_confidence : R;
  is_bidirectional : bool;
  rel_properties : gmap string PyVal;
}.

(** The field constraints of [SpatialProperties.confidence] and
    [Relationship.confidence]. *)
Definition SpatialProperties_valid (s : SpatialProperties) : Prop :=
  0 <= sp_confidence s <= 1.

Definition Relationship_valid (r : Relationship) : Prop :=
  0 <= rel_confidence r <= 1 /\
  match spatial r with Some s => SpatialProperties_valid s | None => True end.

Module RelationshipM.

(** [Relationship.merge_observation(self, weight)]. *)
Definition merge_observation (now : datetime) (self : Relationship)
    (weight : R) : Relationship :=
  {| rel_id := rel_id self;
     relation_type := relation_type self;
     source_id := source_id self;
     target_id := target_id self;
     spatial := spatial self;
     rel_first_observed := rel_first_observed self;
     rel_last_observed := now;
     rel_observation_count := (rel_observation_count self + 1)%Z;
     rel_source_devices := rel_source_devices self;
     rel_confidence :=
       Py.min 1 (rel_confidence self + weight * (1 - rel_confidence self));
     is_bidirectional := is_bidirectional self;
     rel_properties := rel_properties self |}.

(** [Relationship.is_spatial(self)]. *)
Definition is_spatial (self : Relationship) : bool :=
  let spatial_types : gset RelationType :=
    {[ ON; IN; NEAR; NEXT_TO; ABOVE; BELOW; LEFT_OF; RIGHT_OF;
       IN_FRONT_OF; BEHIND; ATTACHED_TO ]} in
  bool_decide (relation_type self ∈ spatial_types).

End RelationshipM.

(** ** Exceptions *)

Inductive PyExc :=
| ValueError (msg : string)
| KeyError
| AttributeError
| ValidationError
| NetworkXError
| NodeNotFound
| NetworkXNoPath
| DanglingRef   (* a reference outside the object heap: never raised, see
                   the well-formedness lemmas *)
| OutOfFuel.    (* the search bound of the model was exhausted: never raised *)

Definition result (A : Type) : Type := (PyExc + A)%type.

Definition bind {A B} (c : result A) (k : A -> result B) : result B :=
  match c with
  | inl e => inl e
  | inr a => k a
  end.

Notation "'do' x <- c ; k" := (bind c (fun x => k))
  (at level 10, x pattern, c at level 100, k at level 200).

(** Run [f] on every element, left to right, stopping at the first
    exception. *)
Fixpoint traverse {A B} (f : A -> result B) (l : list A) : result (list B) :=
  match l with
  | [] => inr []
  | x :: r => do y <- f x; do ys <- traverse f r; inr (y :: ys)
  end.

(** A [for] loop with an accumulator. *)
Fixpoint for_each {A S} (f : S -> A -> result S) (l : list A) (s : S) : result S :=
  match l with
  | [] => inr s
  | x :: r => do s' <- f s x; for_each f r s'
  end.

(** ** Enumeration fields at run time

    Both models are declared with [class Config: use_enum_values = True],
    so validation stores in [entity_type] and [relation_type] the value of
    the member, a plain [str], and not the member.  The comparisons and
    the set memberships of the code do not tell the two apart (the
    enumerations derive from [str]); attribute access does. *)

Inductive PyObj :=
| PyStr (s : string)              (* a plain [str] *)
| PyEnumMember (value : string).  (* a member of an enumeration *)

(** [o.value]. *)
Definition getattr_value (o : PyObj) : result string :=
  match o with
  | PyEnumMember v => inr v
  | PyStr _ => inl AttributeError
  end.

(** The object held by the field [entity_type] of a validated entity,
    which [_update_entity_indices] uses as the key of the type index. *)
Definition entity_type_object (t : EntityType) : PyObj := PyStr (EntityType_value t).

(** ** Insertion-ordered dictionaries *)

Section odict.
Context {K V : Type} `{EqDecision K}.

Definition odict := list (K * V).

Fixpoint od_get (d : list (K * V)) (k : K) : option V :=
  match d with
  | [] => None
  | (k', v) :: r => if decide (k = k') then Some v else od_get r k
  end.

(** [d[k] = v]: an existing key keeps its position. *)
Fixpoint od_set (d : list (K * V)) (k : K) (v : V) : list (K * V) :=
  match d with
  | [] => [(k, v)]
  | (k', v') :: r =>
      if decide (k = k') then (k, v) :: r else (k', v') :: od_set r k v
  end.

Definition od_mem (d : list (K * V)) (k : K) : bool :=
  match od_get d k with Some _ => true | None => false end.

Definition od_keys (d : list (K * V)) : list K := map fst d.
Definition od_values (d : list (K * V)) : list V := map snd d.
End odict.

Arguments odict : clear implicits.

(** ** relationship.py: [inverse_type]

    [Relationship.inverse_type(self)]: the dictionary [inverses], entry by
    entry, read with [dict.get]; a type without an entry and a type whose
    entry is [None] both give [None]. *)

Module RelationshipInverse.



End RelationshipInverse.

(** ** The object heap *)

Definition ref := nat.

Definition deref {A} (h : list A) (a : ref) : result A :=
  match h !! a with
  | Some x => inr x
  | None => inl DanglingRef
  end.

(** Allocation of a new object: its address is the next free one. *)
Definition alloc {A} (h : list A) (x : A) : list A * ref := (h ++ [x], length h).

(** In-place mutation of the object at [a]. *)
Definition store {A} (h : list A) (a : ref) (x : A) : list A := <[a := x]> h.

(** ** networkx

    The multigraph of the store is a [networkx.MultiDiGraph].  Its nested
    adjacency dictionaries [_succ[u][v][key]] and [_pred[v][u][key]] hold
    the edge data, here the reference to the Relationship object stored
    under the attribute ['relationship']; [_node[n]] holds the node data,
    here the reference stored under ['entity'] if the node has one. *)

Module nx.

Record MultiDiGraph := {
  _node : odict UUID (option ref);
  _succ : odict UUID (odict UUID (odict UUID ref));
  _pred : odict UUID (odict UUID (odict UUID ref));
}.

(** [nx.MultiDiGraph()]. *)
Definition empty : MultiDiGraph := {| _node := []; _succ := []; _pred := [] |}.

(** [n in G]. *)
Definition has_node (G : MultiDiGraph) (n : UUID) : bool := od_mem (_node G) n.

(** [G.add_node(n, entity=e)]. *)
Definition add_node (G : MultiDiGraph) (n : UUID) (e : ref) : MultiDiGraph :=
  if od_mem (_succ G) n
  then {| _node := od_set (_node G) n (Some e);
          _succ := _succ G;
          _pred := _pred G |}
  else {| _node := od_set (_node G) n (Some e);
          _succ := od_set (_succ G) n [];
          _pred := od_set (_pred G) n [] |}.

(** The implicit creation of an endpoint by [add_edge]. *)
Definition ensure_node (G : MultiDiGraph) (n : UUID) : MultiDiGraph :=
  if od_mem (_succ G) n then G
  else {| _node := od_set (_node G) n None;
          _succ := od_set (_succ G) n [];
          _pred := od_set (_pred G) n [] |}.

(** [G.add_edge(u, v, key=key, relationship=r)].  The key dictionary of
    the pair is one object, reachable from [_succ[u][v]] and from
    [_pred[v][u]]. *)
Definition add_edge (G : MultiDiGraph) (u v key : UUID) (r : ref) : MultiDiGraph :=
  let G1 := ensure_node (ensure_node G u) v in
  let succ_u := default [] (od_get (_succ G1) u) in
  let pred_v := default [] (od_get (_pred G1) v) in
  let keydict :=
    match od_get succ_u v with
    | Some kd => od_set kd key r
    | None => [(key, r)]
    end in
  {| _node := _node G1;
     _succ := od_set (_succ G1) u (od_set succ_u v keydict);
     _pred := od_set (_pred G1) v (od_set pred_v u keydict) |}.

(** The edge from [u] to [v] with key [key] carries the reference [a]. *)
Definition has_edge_ref (G : MultiDiGraph) (u v key : UUID) (a : ref) : Prop :=
  exists nbrs kd, (u, nbrs) ∈ _succ G /\ (v, kd) ∈ nbrs /\ (key, a) ∈ kd.

(** [G.has_edge(u, v)]. *)
Definition has_edge (G : MultiDiGraph) (u v : UUID) : bool :=
  match od_get (_succ G) u with
  | Some nbrs => od_mem nbrs v
  | None => false
  end.

(** [G.get_edge_data(u, v)]. *)
Definition get_edge_data (G : MultiDiGraph) (u v : UUID) : option (odict UUID ref) :=
  match od_get (_succ G) u with
  | Some nbrs => od_get nbrs v
  | None => None
  end.

(** [G.edges[u, v, key]]. *)
Definition edge (G : MultiDiGraph) (u v key : UUID) : result ref :=
  match get_edge_data G u v with
  | Some kd => match od_get kd key with Some r => inr r | None => inl KeyError end
  | None => inl KeyError
  end.

(** The edges of one adjacency row, neighbour by neighbour and key by
    key. *)
Definition row_edges (nbrs : odict UUID (odict UUID ref)) : list (UUID * UUID * ref) :=
  flat_map (fun '(v, kd) => map (fun '(key, r) => (v, key, r)) kd) nbrs.

(** [G.out_edges(u, data=True)]: triples (u, v, data). *)
Definition out_edges (G : MultiDiGraph) (u : UUID) : result (list (UUID * UUID * ref)) :=
  if has_node G u then
    match od_get (_succ G) u with
    | Some nbrs => inr (map (fun '(v, _, r) => (u, v, r)) (row_edges nbrs))
    | None => inl KeyError
    end
  else inl NetworkXError.

(** [G.in_edges(v, data=True)]: triples (u, v, data). *)
Definition in_edges (G : MultiDiGraph) (v : UUID) : result (list (UUID * UUID * ref)) :=
  if has_node G v then
    match od_get (_pred G) v with
    | Some nbrs => inr (map (fun '(u, _, r) => (u, v, r)) (row_edges nbrs))
    | None => inl KeyError
    end
  else inl NetworkXError.

(** [G.number_of_nodes()] and [G.number_of_edges()]. *)
Definition number_of_nodes (G : MultiDiGraph) : nat := length (_node G).

Definition number_of_edges (G : MultiDiGraph) : nat :=
  length (flat_map (fun '(_, nbrs) => row_edges nbrs) (_succ G)).

(** [nx.density(G)] of a directed graph. *)
Definition density (G : MultiDiGraph) : R :=
  let n := number_of_nodes G in
  let m := number_of_edges G in
  if (bool_decide (m = 0%nat) || bool_decide (n <= 1)%nat)%bool then 0
  else INR m / (INR n * (INR n - 1)).

(** The neighbours of [u] in [nx.subgraph_view(G, filter_edge=f)]: the
    successors [v] with at least one key that passes the filter, which
    is evaluated key by key until the first success. *)
Fixpoint any_key_ok (f : UUID -> result bool) (keys : list UUID) : result bool :=
  match keys with
  | [] => inr false
  | k :: r => do b <- f k; if (b : bool) then inr true else any_key_ok f r
  end.

Fixpoint view_row (f : UUID -> UUID -> result bool)
    (nbrs : odict UUID (odict UUID ref)) : result (list UUID) :=
  match nbrs with
  | [] => inr []
  | (v, kd) :: r =>
      do ok <- any_key_ok (f v) (od_keys kd);
      do vs <- view_row f r;
      inr (if (ok : bool) then v :: vs else vs)
  end.

Definition view_successors (G : MultiDiGraph)
    (filter_edge : UUID -> UUID -> UUID -> result bool) (u : UUID) : result (list UUID) :=
  match od_get (_succ G) u with
  | Some nbrs => view_row (filter_edge u) nbrs
  | None => inl KeyError
  end.

(** Modelled from the spec: [nx.shortest_path] is a function of the
    networkx library, which is not part of the repository.  It is the
    unweighted breadth-first shortest-path search of the specification,
    with parent pointers: every node of the frontier carries the path
    that reached it, newest node first.  A node outside the graph raises
    [NodeNotFound], an unreachable target raises [NetworkXNoPath].  The
    search runs level by level; [fuel] bounds the number of levels. *)
Definition expand_path (succ : UUID -> result (list UUID))
    (st : gset UUID * list (list UUID)) (p : list UUID)
    : result (gset UUID * list (list UUID)) :=
  match p with
  | [] => inr st
  | u :: _ =>
      do vs <- succ u;
      inr (fold_left
             (fun '(seen, next) v =>
                if bool_decide (v ∈ seen) then (seen, next)
                else (seen ∪ {[v]}, next ++ [v :: p]))
             vs st)
  end.

Fixpoint bfs (fuel : nat) (succ : UUID -> result (list UUID)) (target : UUID)
    (seen : gset UUID) (frontier : list (list UUID)) : result (list UUID) :=
  match find (fun p => bool_decide (head p = Some target)) frontier with
  | Some p => inr (rev p)
  | None =>
      match frontier with
      | [] => inl NetworkXNoPath
      | _ :: _ =>
          match fuel with
          | O => inl OutOfFuel
          | S fuel' =>
              do st <- for_each (expand_path succ) frontier (seen, []);
              bfs fuel' succ target (fst st) (snd st)
          end
      end
  end.

(** A bound on the number of levels: every level but the last reaches
    a node that is the head of some edge. *)
Definition levels_bound (G : MultiDiGraph) : nat :=
  S (length (flat_map (fun '(_, nbrs) => od_keys nbrs) (_succ G))).

Definition shortest_path (G : MultiDiGraph)
    (filter_edge : UUID -> UUID -> UUID -> result bool)
    (source target : UUID) : result (list UUID) :=
  if (has_node G source && has_node G target)%bool
  then bfs (levels_bound G) (view_successors G filter_edge) target
           {[ source ]} [[source]]
  else inl NodeNotFound.

End nx.

(** ** semantic_graph.py *)

Record SemanticGraph := {
  entities : list Entity;                 (* heap of Entity objects *)
  relationships : list Relationship;      (* heap of Relationship objects *)
  graph : nx.MultiDiGraph;
  _entity_index : odict UUID ref;
  _relationship_index : odict UUID ref;
  _entities_by_type : gmap EntityType (gset UUID);
  _entities_by_name : gmap string (gset UUID);
}.

Module SemanticGraphM.

(** [SemanticGraph.__init__]. *)
Definition init : SemanticGraph :=
  {| entities := []; relationships := []; graph := nx.empty;
     _entity_index := []; _relationship_index := [];
     _entities_by_type := ∅; _entities_by_name := ∅ |}.

(** [_update_entity_indices(entity)]; the argument is the content of
    the object read by the method. *)
Definition _update_entity_indices (g : SemanticGraph) (entity : Entity) : SemanticGraph :=
  let by_type :=
    if bool_decide (entity_type entity ∉ dom (_entities_by_type g))
    then <[entity_type entity := ∅]> (_entities_by_type g)
    else _entities_by_type g in
  let by_type := alter (fun s => s ∪ {[ id entity ]}) (entity_type entity) by_type in
  let name_lower := Py.lower (name entity) in
  let by_name :=
    if bool_decide (name_lower ∉ dom (_entities_by_name g))
    then <[name_lower := ∅]> (_entities_by_name g)
    else _entities_by_name g in
  let by_name := alter (fun s => s ∪ {[ id entity ]}) name_lower by_name in
  {| entities := entities g; relationships := relationships g;
     graph := graph g;
     _entity_index := _entity_index g;
     _relationship_index := _relationship_index g;
     _entities_by_type := by_type;
     _entities_by_name := by_name |}.

(** [get_entity(entity_id)]. *)
Definition get_entity (g : SemanticGraph) (entity_id : UUID) : option ref :=
  od_get (_entity_index g) entity_id.

(** [self._entity_index[eid]]. *)
Definition entity_index_at (g : SemanticGraph) (eid : UUID) : result ref :=
  match od_get (_entity_index g) eid with
  | Some a => inr a
  | None => inl KeyError
  end.

(** [get_entities_by_type(entity_type)]. *)
Definition get_entities_by_type (g : SemanticGraph) (t : EntityType) : result (list ref) :=
  let entity_ids := default ∅ (_entities_by_type g !! t) in
  traverse (entity_index_at g) (elements entity_ids).

(** The test of the fuzzy branch of [get_entities_by_name] on one
    entity. *)
Definition fuzzy_hit (name_lower : string) (entity : Entity) : bool :=
  if Py.str_in name_lower (Py.lower (name entity)) then true
  else if existsb (fun alias => Py.str_in name_lower (Py.lower alias))
                  (aliases (semantic entity)) then true
  else false.

(** [get_entities_by_name(name, fuzzy)]. *)
Definition get_entities_by_name (g : SemanticGraph) (name : string) (fuzzy : bool)
    : result (list ref) :=
  let name_lower := Py.lower name in
  if negb fuzzy then
    let entity_ids := default ∅ (_entities_by_name g !! name_lower) in
    traverse (entity_index_at g) (elements entity_ids)
  else
    for_each
      (fun matches a =>
         do entity <- deref (entities g) a;
         inr (if fuzzy_hit name_lower entity then matches ++ [a] else matches))
      (od_values (_entity_index g)) [].

(** [get_relationships(source_id, target_id, relation_type)]. *)
Definition get_relationships (g : SemanticGraph) (source target : option UUID)
    (rtype : option RelationType) : result (list ref) :=
  do rels <-
    match source, target with
    | Some s, Some t =>
        if nx.has_edge (graph g) s t
        then inr (od_values (default [] (nx.get_edge_data (graph g) s t)))
        else inr []
    | Some s, None =>
        do es <- nx.out_edges (graph g) s; inr (map snd es)
    | None, Some t =>
        do es <- nx.in_edges (graph g) t; inr (map snd es)
    | None, None => inr (od_values (_relationship_index g))
    end;
  match rtype with
  | Some ty =>
      for_each
        (fun acc a =>
           do r <- deref (relationships g) a;
           inr (if bool_decide (relation_type r = ty) then acc ++ [a] else acc))
        rels []
  | None => inr rels
  end.

(** The first candidate that matches, in the order of the list. *)
Fixpoint first_match (g : SemanticGraph) (test : Entity -> bool)
    (candidates : list ref) : result (option ref) :=
  match candidates with
  | [] => inr None
  | c :: r =>
      do e <- deref (entities g) c;
      if test e then inr (Some c) else first_match g test r
  end.

(** [_find_matching_entity(entity)]; [matches] runs with its default
    threshold. *)
Definition _find_matching_entity (g : SemanticGraph) (entity : Entity)
    : result (option ref) :=
  do candidates <- get_entities_by_name g (name entity) false;
  do hit <- first_match g (fun candidate => EntityM.matches candidate entity 0.7) candidates;
  match hit with
  | Some c => inr (Some c)
  | None =>
      if Py.truthy_list (embedding (visual entity)) then
        first_match g
          (fun existing =>
             bool_decide (entity_type existing = entity_type entity)
             && EntityM.matches existing entity 0.7)%bool
          (od_values (_entity_index g))
      else inr None
  end.

(** [_find_existing_relationship(rel)]. *)
Definition _find_existing_relationship (g : SemanticGraph) (rel : Relationship)
    : result (option ref) :=
  do existing_rels <-
    get_relationships g (Some (source_id rel)) (Some (target_id rel))
                      (Some (relation_type rel));
  inr (head existing_rels).

(** The merge branch of [add_entity]:
    [existing.merge_observation(entity)], which mutates the stored
    object in place, then [_update_entity_indices(existing)]. *)
Definition merge_entity (now : datetime) (g : SemanticGraph) (existing : ref)
    (obj entity : Entity) : SemanticGraph :=
  let obj' := EntityM.merge_observation now obj entity 0.3 in
  _update_entity_indices
    {| entities := store (entities g) existing obj';
       relationships := relationships g; graph := graph g;
       _entity_index := _entity_index g;
       _relationship_index := _relationship_index g;
       _entities_by_type := _entities_by_type g;
       _entities_by_name := _entities_by_name g |}
    obj'.

(** The insertion branch of [add_entity]: [graph.add_node],
    [_entity_index[entity.id] = entity], [_update_entity_indices(entity)].
    The caller's object becomes a stored object. *)
Definition insert_entity (g : SemanticGraph) (entity : Entity) : SemanticGraph * ref :=
  let '(heap, a) := alloc (entities g) entity in
  (_update_entity_indices
     {| entities := heap;
        relationships := relationships g;
        graph := nx.add_node (graph g) (id entity) a;
        _entity_index := od_set (_entity_index g) (id entity) a;
        _relationship_index := _relationship_index g;
        _entities_by_type := _entities_by_type g;
        _entities_by_name := _entities_by_name g |}
     entity,
   a).

(** [add_entity(entity, merge_if_exists)]; the result is the reference
    the method returns. *)
Definition add_entity (now : datetime) (entity : Entity) (merge_if_exists : bool)
    (g : SemanticGraph) : SemanticGraph * result ref :=
  match (if merge_if_exists then _find_matching_entity g entity else inr None) with
  | inl exc => (g, inl exc)
  | inr (Some existing) =>
      match deref (entities g) existing with
      | inl exc => (g, inl exc)
      | inr obj => (merge_entity now g existing obj entity, inr existing)
      end
  | inr None =>
      let '(g', a) := insert_entity g entity in (g', inr a)
  end.

(** The merge branch of [add_relationship]:
    [existing.merge_observation()] on the stored object. *)
Definition merge_relationship (now : datetime) (g : SemanticGraph) (existing : ref)
    (obj : Relationship) : SemanticGraph :=
  {| entities := entities g;
     relationships :=
       store (relationships g) existing
             (RelationshipM.merge_observation now obj 0.3);
     graph := graph g;
     _entity_index := _entity_index g;
     _relationship_index := _relationship_index g;
     _entities_by_type := _entities_by_type g;
     _entities_by_name := _entities_by_name g |}.

(** The insertion branch of [add_relationship]: [graph.add_edge] and
    [_relationship_index[relationship.id] = relationship]. *)
Definition insert_relationship (g : SemanticGraph) (relationship : Relationship)
    : SemanticGraph * ref :=
  let '(heap, a) := alloc (relationships g) relationship in
  ({| entities := entities g;
      relationships := heap;
      graph := nx.add_edge (graph g) (source_id relationship)
                 (target_id relationship) (rel_id relationship) a;
      _entity_index := _entity_index g;
      _relationship_index :=
        od_set (_relationship_index g) (rel_id relationship) a;
      _entities_by_type := _entities_by_type g;
      _entities_by_name := _entities_by_name g |},
   a).

(** [add_relationship(relationship, merge_if_exists)]. *)
Definition add_relationship (now : datetime) (relationship : Relationship)
    (merge_if_exists : bool) (g : SemanticGraph) : SemanticGraph * result ref :=
  if negb (od_mem (_entity_index g) (source_id relationship))
  then (g, inl (ValueError "Source entity not found"))
  else if negb (od_mem (_entity_index g) (target_id relationship))
  then (g, inl (ValueError "Target entity not found"))
  else
    match (if merge_if_exists then _find_existing_relationship g relationship
           else inr None) with
    | inl exc => (g, inl exc)
    | inr (Some existing) =>
        match deref (relationships g) existing with
        | inl exc => (g, inl exc)
        | inr obj => (merge_relationship now g existing obj, inr existing)
        end
    | inr None =>
        let '(g', a) := insert_relationship g relationship in (g', inr a)
    end.

End SemanticGraphM.

Module Query.
Import SemanticGraphM.

(** The two guards of [query_spatial] on one relationship, and the
    pair it contributes to the result. *)
Definition spatial_result (g : SemanticGraph) (rel : Relationship) (a : ref)
    (results : list (ref * ref)) : list (ref * ref) :=
  if RelationshipM.is_spatial rel then
    match get_entity g (target_id rel) with
    | Some target => results ++ [(target, a)]
    | None => results
    end
  else results.

(** The body of the first loop of [query_spatial]. *)
Definition direct_step (g : SemanticGraph) (rtype : option RelationType)
    (results : list (ref * ref)) (a : ref) : result (list (ref * ref)) :=
  do rel <- deref (relationships g) a;
  match rtype with
  | Some ty =>
      if bool_decide (relation_type rel ≠ ty) then inr results
      else inr (spatial_result g rel a results)
  | None => inr (spatial_result g rel a results)
  end.

(** The state of the multi-hop loop: results, [visited], [next_level]. *)
Definition hop_state : Type := list (ref * ref) * gset UUID * gset UUID.

(** The body of the innermost loop, for one relationship of [eid]. *)
Definition hop_step (g : SemanticGraph) (rtype : option RelationType)
    (st : hop_state) (a : ref) : result hop_state :=
  let '(results, visited, next_level) := st in
  do rel <- deref (relationships g) a;
  if bool_decide (target_id rel ∉ visited) then
    let results' :=
      if (match rtype with
          | None => true
          | Some ty => bool_decide (relation_type rel = ty)
          end)
      then spatial_result g rel a results
      else results in
    inr (results', visited ∪ {[ target_id rel ]}, next_level ∪ {[ target_id rel ]})
  else inr st.

(** The loop over [current_level], for one entity id. *)
Definition hop_entity (g : SemanticGraph) (rtype : option RelationType)
    (st : hop_state) (eid : UUID) : result hop_state :=
  do rels <- get_relationships g (Some eid) None None;
  for_each (hop_step g rtype) rels st.

(** [for _ in range(n)]: one frontier expansion per iteration. *)
Fixpoint hop_levels (n : nat) (g : SemanticGraph) (rtype : option RelationType)
    (results : list (ref * ref)) (visited current_level : gset UUID)
    : result (list (ref * ref)) :=
  match n with
  | O => inr results
  | S n' =>
      do st <- for_each (hop_entity g rtype) (elements current_level)
                        (results, visited, ∅);
      let '(results', visited', next_level) := st in
      hop_levels n' g rtype results' visited' next_level
  end.

(** [query_spatial(entity, relation_type, max_hops)]: pairs of
    references (related entity, relationship). *)
Definition query_spatial (g : SemanticGraph) (entity : Entity)
    (rtype : option RelationType) (max_hops : Z) : result (list (ref * ref)) :=
  do rels <- get_relationships g (Some (id entity)) None None;
  do results <- for_each (direct_step g rtype) rels [];
  if bool_decide (1 < max_hops)%Z then
    hop_levels (Z.to_nat (max_hops - 1)) g rtype results
               {[ id entity ]} {[ id entity ]}
  else inr results.

(** The default allow-set of [find_path]. *)
Definition default_relation_types : gset RelationType :=
  {[ ON; IN; NEAR; NEXT_TO; ATTACHED_TO ]}.

(** [edge_filter(u, v, key)] of [find_path]. *)
Definition edge_filter (g : SemanticGraph) (relation_types : gset RelationType)
    (u v key : UUID) : result bool :=
  do a <- nx.edge (graph g) u v key;
  do rel <- deref (relationships g) a;
  inr (bool_decide (relation_type rel ∈ relation_types)).

(** [find_path(source, target, relation_types)]: [None] when networkx
    reports that there is no path; any other exception propagates. *)
Definition find_path (g : SemanticGraph) (source target : Entity)
    (relation_types : option (gset RelationType))
    : result (option (list (option ref))) :=
  let relation_types := default default_relation_types relation_types in
  match nx.shortest_path (graph g) (edge_filter g relation_types)
                         (id source) (id target) with
  | inr path_ids => inr (Some (map (get_entity g) path_ids))
  | inl NetworkXNoPath => inr None
  | inl exc => inl exc
  end.

End Query.

(** ** Serialisation: [to_dict], [from_dict], [stats], export and import

    [model_dump(mode='json')] turns a set into a list, an enumeration
    member into its string value, and leaves the other fields as they
    are; [model_validate] reads them back and checks the declared
    constraints. *)

Module Codec.
Import SemanticGraphM.

Record SemanticAttributesDoc := {
  d_category : option string;
  d_subcategory : option string;
  d_function : option string;
  d_material_composition : list string;
  d_brand : option string;
  d_model : option string;
  d_tags : list string;
  d_description : option string;
  d_aliases : list string;
}.

Record EntityDoc := {
  d_id : UUID;
  d_entity_type : string;
  d_name : string;
  d_semantic : SemanticAttributesDoc;
  d_visual : VisualFeatures;
  d_first_observed : datetime;
  d_last_observed : datetime;
  d_observation_count : Z;
  d_source_devices : list string;
  d_confidence : R;
  d_properties : gmap string PyVal;
}.

Record RelationshipDoc := {
  d_rel_id : UUID;
  d_relation_type : string;
  d_source_id : UUID;
  d_target_id : UUID;
  d_spatial : option SpatialProperties;
  d_rel_first_observed : datetime;
  d_rel_last_observed : datetime;
  d_rel_observation_count : Z;
  d_rel_source_devices : list string;
  d_rel_confidence : R;
  d_is_bidirectional : bool;
  d_rel_properties : gmap string PyVal;
}.

Definition EntityType_all : list EntityType :=
  [OBJECT; SPACE; LANDMARK; PERSON; MATERIAL; EQUIPMENT; CONTAINER; SURFACE; UNKNOWN].

(** Validation of an enumeration field: the member with that value. *)
Definition EntityType_of_value (s : string) : result EntityType :=
  match find (fun t => String.eqb (EntityType_value t) s) EntityType_all with
  | Some t => inr t
  | None => inl ValidationError
  end.

Definition RelationType_of_value (s : string) : result RelationType :=
  match find (fun t => String.eqb (RelationType_value t) s) RelationType_all with
  | Some t => inr t
  | None => inl ValidationError
  end.

(** Validation of [Field(ge=0.0, le=1.0)]. *)
Definition check_unit (x : R) : result R :=
  if (Py.lt x 0 || Py.gt x 1)%bool then inl ValidationError else inr x.

(** [Entity.to_dict()]. *)
Definition Entity_to_dict (e : Entity) : EntityDoc :=
  {| d_id := id e;
     d_entity_type := EntityType_value (entity_type e);
     d_name := name e;
     d_semantic :=
       {| d_category := category (semantic e);
          d_subcategory := subcategory (semantic e);
          d_function := function (semantic e);
          d_material_composition := material_composition (semantic e);
          d_brand := brand (semantic e);
          d_model := model (semantic e);
          d_tags := elements (tags (semantic e));
          d_description := description (semantic e);
          d_aliases := aliases (semantic e) |};
     d_visual := visual e;
     d_first_observed := first_observed e;
     d_last_observed := last_observed e;
     d_observation_count := observation_count e;
     d_source_devices := elements (source_devices e);
     d_confidence := confidence e;
     d_properties := properties e |}.

(** [Entity.from_dict(data)]. *)
Definition Entity_from_dict (d : EntityDoc) : result Entity :=
  do t <- EntityType_of_value (d_entity_type d);
  do c <- check_unit (d_confidence d);
  inr {| id := d_id d;
         entity_type := t;
         name := d_name d;
         semantic :=
           {| category := d_category (d_semantic d);
              subcategory := d_subcategory (d_semantic d);
              function := d_function (d_semantic d);
              material_composition := d_material_composition (d_semantic d);
              brand := d_brand (d_semantic d);
              model := d_model (d_semantic d);
              tags := list_to_set (d_tags (d_semantic d));
              description := d_description (d_semantic d);
              aliases := d_aliases (d_semantic d) |};
         visual := d_visual d;
         first_observed := d_first_observed d;
         last_observed := d_last_observed d;
         observation_count := d_observation_count d;
         source_devices := list_to_set (d_source_devices d);
         confidence := c;
         properties := d_properties d |}.

(** [Relationship.to_dict()]. *)
Definition Relationship_to_dict (r : Relationship) : RelationshipDoc :=
  {| d_rel_id := rel_id r;
     d_relation_type := RelationType_value (relation_type r);
     d_source_id := source_id r;
     d_target_id := target_id r;
     d_spatial := spatial r;
     d_rel_first_observed := rel_first_observed r;
     d_rel_last_observed := rel_last_observed r;
     d_rel_observation_count := rel_observation_count r;
     d_rel_source_devices := elements (rel_source_devices r);
     d_rel_confidence := rel_confidence r;
     d_is_bidirectional := is_bidirectional r;
     d_rel_properties := rel_properties r |}.

(** [Relationship.from_dict(data)]. *)
Definition Relationship_from_dict (d : RelationshipDoc) : result Relationship :=
  do t <- RelationType_of_value (d_relation_type d);
  do sp <-
    match d_spatial d with
    | Some s => do _ <- check_unit (sp_confidence s); inr (Some s)
    | None => inr None
    end;
  do c <- check_unit (d_rel_confidence d);
  inr {| rel_id := d_rel_id d;
         relation_type := t;
         source_id := d_source_id d;
         target_id := d_target_id d;
         spatial := sp;
         rel_first_observed := d_rel_first_observed d;
         rel_last_observed := d_rel_last_observed d;
         rel_observation_count := d_rel_observation_count d;
         rel_source_devices := list_to_set (d_rel_source_devices d);
         rel_confidence := c;
         is_bidirectional := d_is_bidirectional d;
         rel_properties := d_rel_properties d |}.

Record Stats := {
  total_entities : nat;
  total_relationships : nat;
  entities_by_type : list (string * nat);
  spatial_relationships : nat;
  graph_density : R;
}.

Record Metadata := {
  exported_at : datetime;
  metadata_stats : Stats;
}.

Record ExportDoc := {
  doc_entities : list EntityDoc;
  doc_relationships : list RelationshipDoc;
  doc_metadata : Metadata;
}.

(** [stats()]; the entries of the dictionary are evaluated in order. *)
Definition stats (g : SemanticGraph) : result Stats :=
  let total_entities := length (_entity_index g) in
  let total_relationships := length (_relationship_index g) in
  do entities_by_type <-
    traverse (fun '(entity_type, entities) =>
                do k <- getattr_value (entity_type_object entity_type);
                inr (k, size (entities : gset UUID)))
             (map_to_list (_entities_by_type g));
  do spatial_relationships <-
    for_each (fun n a =>
                do r <- deref (relationships g) a;
                inr (if RelationshipM.is_spatial r then S n else n))
             (od_values (_relationship_index g)) 0%nat;
  inr {| total_entities := total_entities;
         total_relationships := total_relationships;
         entities_by_type := entities_by_type;
         spatial_relationships := spatial_relationships;
         graph_density := nx.density (graph g) |}.

(** The two record lists of the export document. *)
Definition export_entities (g : SemanticGraph) : result (list EntityDoc) :=
  traverse (fun a => do e <- deref (entities g) a; inr (Entity_to_dict e))
           (od_values (_entity_index g)).

Definition export_relationships (g : SemanticGraph) : result (list RelationshipDoc) :=
  traverse (fun a => do r <- deref (relationships g) a; inr (Relationship_to_dict r))
           (od_values (_relationship_index g)).

(** [export_to_dict()]. *)
Definition export_to_dict (now : datetime) (g : SemanticGraph) : result ExportDoc :=
  do es <- export_entities g;
  do rs <- export_relationships g;
  do st <- stats g;
  inr {| doc_entities := es;
         doc_relationships := rs;
         doc_metadata := {| exported_at := now; metadata_stats := st |} |}.

(** The two loops of [import_from_dict]. *)
Definition import_entity (now : datetime) (g : SemanticGraph) (d : EntityDoc)
    : result SemanticGraph :=
  do entity <- Entity_from_dict d;
  let '(g', r) := add_entity now entity false g in
  do _ <- r; inr g'.

Definition import_relationship (now : datetime) (g : SemanticGraph)
    (d : RelationshipDoc) : result SemanticGraph :=
  do relationship <- Relationship_from_dict d;
  let '(g', r) := add_relationship now relationship false g in
  do _ <- r; inr g'.

(** [import_from_dict(data)], on the two record lists of the document. *)
Definition import_records (now : datetime) (es : list EntityDoc)
    (rs : list RelationshipDoc) : result SemanticGraph :=
  do g <- for_each (import_entity now) es init;
  for_each (import_relationship now) rs g.


End Codec.

(** ** The identity-resolution chain, as the specification words it *)

Module MatchSpec.

(** Both types are known and they differ. *)
Definition type_conflict (a b : Entity) : Prop :=
  entity_type a ≠ UNKNOWN /\ entity_type b ≠ UNKNOWN /\ entity_type a ≠ entity_type b.

(** The names are equal case-insensitively. *)
Definition names_equal (a b : Entity) : Prop :=
  Py.lower (name a) = Py.lower (name b).

(** The lower-cased name and aliases of an entity. *)
Definition lowered_names (e : Entity) : list string :=
  Py.lower (name e) :: map Py.lower (aliases (semantic e)).

Definition names_intersect (a b : Entity) : Prop :=
  exists n, In n (lowered_names a) /\ In n (lowered_names b).

Fixpoint dot (u v : list R) : R :=
  match u, v with
  | x :: u', y :: v' => x * y + dot u' v'
  | _, _ => 0
  end.

Definition norm (u : list R) : R := sqrt (dot u u).

(** Cosine similarity: 0 when the lengths differ or a norm is 0, else
    dot(u,v)/(‖u‖·‖v‖). *)
Inductive cosine_is (u v : list R) : R -> Prop :=
| cosine_degenerate :
    length u ≠ length v \/ norm u = 0 \/ norm v = 0 -> cosine_is u v 0
| cosine_regular :
    length u = length v -> norm u ≠ 0 -> norm v ≠ 0 ->
    cosine_is u v (dot u v / (norm u * norm v)).

(** Both entities have a visual embedding (a non-empty vector) and the
    similarity exceeds the threshold. *)
Definition visual_match (a b : Entity) (t : R) : Prop :=
  exists u v c,
    embedding (visual a) = Some u /\ embedding (visual b) = Some v /\
    u ≠ [] /\ v ≠ [] /\ cosine_is u v c /\ c > t.

(** Both tag sets are non-empty and their Jaccard overlap exceeds 0.5. *)
Definition tags_match (a b : Entity) : Prop :=
  tags (semantic a) ≠ ∅ /\ tags (semantic b) ≠ ∅ /\
  INR (size (tags (semantic a) ∩ tags (semantic b)))
    / INR (size (tags (semantic a) ∪ tags (semantic b))) > 0.5.

(** The ordered chain: each rule applies only when every earlier rule
    failed, and the first rule that applies fixes the result. *)
Inductive chain (a b : Entity) (t : R) : bool -> Prop :=
| chain_types : type_conflict a b -> chain a b t false
| chain_name : ~ type_conflict a b -> names_equal a b -> chain a b t true
| chain_aliases :
    ~ type_conflict a b -> ~ names_equal a b -> names_intersect a b ->
    chain a b t true
| chain_visual :
    ~ type_conflict a b -> ~ names_equal a b -> ~ names_intersect a b ->
    visual_match a b t -> chain a b t true
| chain_tags :
    ~ type_conflict a b -> ~ names_equal a b -> ~ names_intersect a b ->
    ~ visual_match a b t -> tags_match a b -> chain a b t true
| chain_otherwise :
    ~ type_conflict a b -> ~ names_equal a b -> ~ names_intersect a b ->
    ~ visual_match a b t -> ~ tags_match a b -> chain a b t false.

End MatchSpec.

(** ** Sample records *)

Module Sample.

(** An entity with default semantic and visual attributes, as built by
    [Entity(id=..., entity_type=..., name=..., confidence=...)]. *)
Definition entity (i : UUID) (t : EntityType) (n : string) (c : R) : Entity :=
  {| id := i; entity_type := t; name := n;
     semantic := SemanticAttributes_default;
     visual := VisualFeatures_default;
     first_observed := 0%Z; last_observed := 0%Z;
     observation_count := 1%Z; source_devices := ∅;
     confidence := c; properties := ∅ |}.

(** The same with a semantic category. *)
Definition entity_in_category (i : UUID) (t : EntityType) (n : string) (c : R)
    (cat : string) : Entity :=
  {| id := i; entity_type := t; name := n;
     semantic :=
       {| category := Some cat; subcategory := None; function := None;
          material_composition := []; brand := None; model := None;
          tags := ∅; description := None; aliases := [] |};
     visual := VisualFeatures_default;
     first_observed := 0%Z; last_observed := 0%Z;
     observation_count := 1%Z; source_devices := ∅;
     confidence := c; properties := ∅ |}.

(** [Relationship(id=..., relation_type=..., source_id=..., target_id=...)]. *)
Definition relationship (i : UUID) (t : RelationType) (s d : UUID) (c : R)
    : Relationship :=
  {| rel_id := i; relation_type := t; source_id := s; target_id := d;
     spatial := None;
     rel_first_observed := 0%Z; rel_last_observed := 0%Z;
     rel_observation_count := 1%Z; rel_source_devices := ∅;
     rel_confidence := c; is_bidirectional := false; rel_properties := ∅ |}.

End Sample.

(** ** Store invariants and reachable states *)

Module Inv.
Import SemanticGraphM.

(** [sub] occurs in [s]. *)
Definition substring (sub s : string) : Prop :=
  exists pre post, s = (pre ++ sub ++ post)%string.

(** The secondary indices agree with the primary entity map. *)
Record indices_consistent (g : SemanticGraph) : Prop := {
  by_type_in_primary :
    forall t ids k, _entities_by_type g !! t = Some ids -> k ∈ ids ->
                    is_Some (od_get (_entity_index g) k);
  by_name_in_primary :
    forall n ids k, _entities_by_name g !! n = Some ids -> k ∈ ids ->
                    is_Some (od_get (_entity_index g) k);
  primary_in_by_type :
    forall k a e, od_get (_entity_index g) k = Some a -> entities g !! a = Some e ->
                  exists ids, _entities_by_type g !! entity_type e = Some ids /\ id e ∈ ids;
  primary_in_by_name :
    forall k a e, od_get (_entity_index g) k = Some a -> entities g !! a = Some e ->
                  exists ids, _entities_by_name g !! Py.lower (name e) = Some ids /\ id e ∈ ids;
}.

(** The primary maps: every key is the id of the object it refers to,
    the object satisfies the field constraints, no key occurs twice, and
    the endpoints of a stored relationship are stored entities. *)
Record primary_wf (g : SemanticGraph) : Prop := {
  entity_keys_nodup : NoDup (od_keys (_entity_index g));
  entity_objects :
    forall k a, (k, a) ∈ _entity_index g ->
                exists e, entities g !! a = Some e /\ id e = k /\ Entity_valid e;
  relationship_keys_nodup : NoDup (od_keys (_relationship_index g));
  relationship_objects :
    forall k a, (k, a) ∈ _relationship_index g ->
                exists r, relationships g !! a = Some r /\ rel_id r = k
                          /\ Relationship_valid r
                          /\ is_Some (od_get (_entity_index g) (source_id r))
                          /\ is_Some (od_get (_entity_index g) (target_id r));
}.

(** Every edge of the multigraph refers to a Relationship object. *)
Definition edges_wf (g : SemanticGraph) : Prop :=
  forall u v key a,
    nx.has_edge_ref (graph g) u v key a -> is_Some (relationships g !! a).

Record inv (g : SemanticGraph) : Prop := {
  inv_indices : indices_consistent g;
  inv_primary : primary_wf g;
  inv_edges : edges_wf g;
}.

(** The states built from the empty store by the two mutating
    operations, on records that satisfy their field constraints.  A call
    that raises leaves the store as it was. *)
Inductive reachable : SemanticGraph -> Prop :=
| reachable_init : reachable init
| reachable_add_entity now e m g :
    reachable g -> Entity_valid e -> reachable (fst (add_entity now e m g))
| reachable_add_relationship now r m g :
    reachable g -> Relationship_valid r ->
    reachable (fst (add_relationship now r m g)).

End Inv.

(** ** Well-formedness of the multigraph *)

Module GraphInv.
(** The multigraph of the store: nodes and adjacency rows have the same
    keys, a stored entity is a node, the heads of the edges of a row are
    distinct and have rows of their own, and an edge joins the endpoints
    of the relationship it carries. *)
Record graph_wf (g : SemanticGraph) : Prop := {
  gw_nodes : forall n, od_mem (nx._node (graph g)) n = od_mem (nx._succ (graph g)) n;
  gw_stored : forall k, is_Some (od_get (_entity_index g) k) ->
                        nx.has_node (graph g) k = true;
  gw_rows : forall u nbrs, (u, nbrs) ∈ nx._succ (graph g) ->
              NoDup (od_keys nbrs)
              /\ forall v kd, (v, kd) ∈ nbrs -> is_Some (od_get (nx._succ (graph g)) v);
  gw_endpoints : forall u v key a r,
      nx.has_edge_ref (graph g) u v key a -> relationships g !! a = Some r ->
      source_id r = u /\ target_id r = v;
}.

(** The rows of a graph are well formed: distinct heads, each with a row. *)
Definition rows_wf (G : nx.MultiDiGraph) : Prop :=
  forall u nbrs, (u, nbrs) ∈ nx._succ G ->
    NoDup (od_keys nbrs)
    /\ forall v kd, (v, kd) ∈ nbrs -> is_Some (od_get (nx._succ G) v).

End GraphInv.

(** ** Fuzzy lookup, as the specification words it *)

Module FuzzySpec.
Import SemanticGraphM.

(** The three-way rule of the specification, compared
    case-insensitively: the query occurs in the name, or the name occurs
    in the query, or the query occurs in an alias. *)
Definition three_way (query : string) (e : Entity) : Prop :=
  Inv.substring (Py.lower query) (Py.lower (name e))
  \/ Inv.substring (Py.lower (name e)) (Py.lower query)
  \/ exists alias, In alias (aliases (semantic e))
                   /\ Inv.substring (Py.lower query) (Py.lower alias).

(** What the code tests: the query occurs in the name or in an alias. *)
Definition two_way (query : string) (e : Entity) : Prop :=
  Inv.substring (Py.lower query) (Py.lower (name e))
  \/ exists alias, In alias (aliases (semantic e))
                   /\ Inv.substring (Py.lower query) (Py.lower alias).

(** The fuzzy lookup returns exactly the stored entities that satisfy
    [rule]. *)
Definition returns_exactly (rule : string -> Entity -> Prop)
    (g : SemanticGraph) (query : string) : Prop :=
  exists found,
    get_entities_by_name g query true = inr found /\
    forall a e, In a (od_values (_entity_index g)) -> entities g !! a = Some e ->
                (In a found <-> rule query e).

End FuzzySpec.

(** ** Stored records, for the export-import round trip *)

Module StoreView.
Import SemanticGraphM.



(** The stored objects, in the order of the primary maps. *)
Definition entity_list (g : SemanticGraph) : list Entity :=
  omap (fun '(_, a) => entities g !! a) (_entity_index g).

Definition relationship_list (g : SemanticGraph) : list Relationship :=
  omap (fun '(_, a) => relationships g !! a) (_relationship_index g).

End StoreView.

(** ** Paths of a successor function, for the breadth-first search *)

Module BfsSpec.
Section bfs_spec.
Variable succ : UUID -> result (list UUID).
Variable s : UUID.

(** [v] is a neighbour of [u]. *)
Definition step (u v : UUID) : Prop := exists vs, succ u = inr vs /\ In v vs.

(** [path t l]: [l] lists the nodes of a path from the source to [t],
    both included. *)
Inductive path : UUID -> list UUID -> Prop :=
| path_start : path s [s]
| path_snoc t v l : path t l -> step t v -> path v (l ++ [v]).

(** [v] is reached by a path of [n] edges. *)
Definition reach_in (n : nat) (v : UUID) : Prop :=
  exists l, path v l /\ length l = S n.

(** [v] is the newest node of a path of the frontier. *)
Definition heads (frontier : list (list UUID)) (v : UUID) : Prop :=
  exists p, In p frontier /\ head p = Some v.

(** The state of the search when level [k] starts. *)
Record level (k : nat) (seen : gset UUID) (frontier : list (list UUID)) : Prop := {
  lv_paths : forall p, In p frontier ->
                       exists v, head p = Some v /\ path v (rev p) /\ length p = S k;
  lv_seen : forall v, v ∈ seen <-> exists n, (n <= k)%nat /\ reach_in n v;
  lv_sphere : forall v, reach_in k v ->
                        heads frontier v \/ exists n, (n < k)%nat /\ reach_in n v;
}.
End bfs_spec.

(** Every path of a frontier ends in a node of [W]. *)
Definition heads_in (W : UUID -> Prop) (fr : list (list UUID)) : Prop :=
  forall p u, In p fr -> head p = Some u -> W u.
End BfsSpec.

(** ** Graph scenarios and hop distance *)

Module GraphSpec.
Import SemanticGraphM.

(** The store holds the entity [e], at reference [a]. *)
Definition stored (g : SemanticGraph) (e : Entity) (a : ref) : Prop :=
  get_entity g (id e) = Some a /\ entities g !! a = Some e.

(** [u] is a node whose only outgoing edge goes to [v] and carries the
    relationship [r], stored at reference [a]. *)
Definition only_edge (g : SemanticGraph) (u v : UUID) (a : ref) (r : Relationship) : Prop :=
  nx.has_node (graph g) u = true
  /\ (exists key, od_get (nx._succ (graph g)) u = Some [(v, [(key, a)])])
  /\ relationships g !! a = Some r
  /\ source_id r = u /\ target_id r = v.

(** [v] is the target of an outgoing relationship of [u]. *)
Definition hop (g : SemanticGraph) (u v : UUID) : Prop :=
  exists es a r,
    nx.out_edges (graph g) u = inr es /\ In a (map snd es)
    /\ relationships g !! a = Some r /\ target_id r = v.

(** [v] is reached from [u] by [n] hops. *)
Inductive walk (g : SemanticGraph) : nat -> UUID -> UUID -> Prop :=
| walk_here u : walk g 0 u u
| walk_step n u v w : walk g n u v -> hop g v w -> walk g (S n) u w.

(** Every pair of [results] is a stored entity and a relationship that
    points to it, at most [n] hops from [source]. *)
Definition within_hops (g : SemanticGraph) (source : UUID) (n : nat)
    (results : list (ref * ref)) : Prop :=
  forall t a, In (t, a) results ->
    exists r m, relationships g !! a = Some r
                /\ get_entity g (target_id r) = Some t
                /\ (1 <= m <= n)%nat /\ walk g m source (target_id r).

(** The invariant of the loops inside one frontier expansion of
    [query_spatial] that starts [j] hops from the source: the results are
    within [j+1] hops and so is every node of the next frontier. *)
Definition level_inv (g : SemanticGraph) (src : UUID) (j : nat)
    (st : Query.hop_state) : Prop :=
  within_hops g src (S j) (st.1.1) /\ forall v, v ∈ st.2 -> walk g (S j) src v.

(** [l] is a path of the view filtered by [types], from [s] to [t]. *)
Definition view_path (g : SemanticGraph) (types : gset RelationType)
    (s t : UUID) (l : list UUID) : Prop :=
  BfsSpec.path (nx.view_successors (graph g) (Query.edge_filter g types)) s t l.

(** What [find_path] returns: the entities of a shortest path of the
    view, endpoints included; or [None] when the view has no path; or an
    exception, which is neither the no-path signal nor the exhaustion of
    the search bound. *)
Definition find_path_outcome (g : SemanticGraph) (source target : Entity)
    (types : gset RelationType) (out : result (option (list (option ref)))) : Prop :=
  match out with
  | inr (Some found) =>
      exists ids,
        found = map (get_entity g) ids
        /\ head ids = Some (id source) /\ last ids = Some (id target)
        /\ view_path g types (id source) (id target) ids
        /\ forall l, view_path g types (id source) (id target) l ->
                     (length ids <= length l)%nat
  | inr None => forall l, ~ view_path g types (id source) (id target) l
  | inl exc => exc ≠ NetworkXNoPath /\ exc ≠ OutOfFuel
  end.

(** The chain A —ON→ B —IN→ C: the three entities are stored at [a], [b]
    and [c]; the only outgoing edge of A is the ON edge to B, stored at
    [a1]; the only outgoing edge of B is the IN edge to C, stored at
    [a2]. *)
Record on_in_chain (g : SemanticGraph) (A B C : Entity) (a b c a1 a2 : ref) : Prop := {
  chain_A : stored g A a;
  chain_B : stored g B b;
  chain_C : stored g C c;
  chain_C_node : nx.has_node (graph g) (id C) = true;
  chain_AB : exists r1, only_edge g (id A) (id B) a1 r1 /\ relation_type r1 = ON;
  chain_BC : exists r2, only_edge g (id B) (id C) a2 r2 /\ relation_type r2 = IN;
  chain_distinct : id A ≠ id B /\ id B ≠ id C /\ id A ≠ id C;
}.

(** Two stored entities joined by a single PART_OF edge from A to B. *)
Record part_of_pair (g : SemanticGraph) (A B : Entity) (a b : ref) : Prop := {
  pair_A : stored g A a;
  pair_B : stored g B b;
  pair_B_node : nx.has_node (graph g) (id B) = true;
  pair_AB : exists a1 r1, only_edge g (id A) (id B) a1 r1 /\ relation_type r1 = PART_OF;
  pair_distinct : id A ≠ id B;
}.

End GraphSpec.

(** ** Sample stores *)

Module Scenario.
Import SemanticGraphM.

Definition hammer : Entity := Sample.entity 1%N OBJECT "Hammer" 0.5.

(** A store that holds the single entity "Hammer". *)
Definition one_hammer : SemanticGraph := fst (add_entity 0%Z hammer false init).

Definition cup : Entity := Sample.entity 11%N OBJECT "Cup" 0.5.
Definition table : Entity := Sample.entity 12%N SURFACE "Table" 0.5.
Definition kitchen : Entity := Sample.entity 13%N SPACE "Kitchen" 0.5.
Definition cup_on_table : Relationship := Sample.relationship 21%N ON 11%N 12%N 0.5.
Definition table_in_kitchen : Relationship := Sample.relationship 22%N IN 12%N 13%N 0.5.

(** Cup —ON→ Table —IN→ Kitchen. *)
Definition kitchen_chain : SemanticGraph :=
  let g1 := fst (add_entity 0%Z cup false init) in
  let g2 := fst (add_entity 0%Z table false g1) in
  let g3 := fst (add_entity 0%Z kitchen false g2) in
  let g4 := fst (add_relationship 0%Z cup_on_table false g3) in
  fst (add_relationship 0%Z table_in_kitchen false g4).

Definition tool : Entity := Sample.entity 51%N OBJECT "Tool" 0.5.
Definition tool_on_table_rel : Relationship := Sample.relationship 61%N ON 51%N 12%N 0.5.

(** The store of the serialisation test: Tool —ON→ Table. *)
Definition tool_on_table : SemanticGraph :=
  let g1 := fst (add_entity 0%Z tool true init) in
  let g2 := fst (add_entity 0%Z table true g1) in
  fst (add_relationship 0%Z tool_on_table_rel true g2).

Definition wheel : Entity := Sample.entity 31%N OBJECT "Wheel" 0.5.
Definition car : Entity := Sample.entity 32%N EQUIPMENT "Car" 0.5.
Definition wheel_part_of_car : Relationship :=
  Sample.relationship 41%N PART_OF 31%N 32%N 0.5.

(** Wheel —PART_OF→ Car. *)
Definition wheel_and_car : SemanticGraph :=
  let g1 := fst (add_entity 0%Z wheel false init) in
  let g2 := fst (add_entity 0%Z car false g1) in
  fst (add_relationship 0%Z wheel_part_of_car false g2).

End Scenario.

(** ** Repeated observations of one relationship *)


(** ** The two adjacency maps of the multigraph *)

Module AdjInv.

(** [G._pred[v][u]], the mirror of [get_edge_data]. *)
Definition pred_data (G : nx.MultiDiGraph) (v u : UUID) : option (odict UUID ref) :=
  match od_get (nx._pred G) v with
  | Some nbrs => od_get nbrs u
  | None => None
  end.

(** The predecessor map mirrors the successor map: the same nodes have a
    row, the tails of a row are distinct, and [_pred[v][u]] is the key
    dictionary [_succ[u][v]]. *)
Record adj_wf (G : nx.MultiDiGraph) : Prop := {
  aw_pred_rows : forall v nbrs, od_get (nx._pred G) v = Some nbrs -> NoDup (od_keys nbrs);
  aw_pred_mem : forall n, od_mem (nx._pred G) n = od_mem (nx._succ G) n;
  aw_mirror : forall u v, nx.get_edge_data G u v = pred_data G v u;
}.

(** The multigraph and the primary maps: a stored relationship is carried
    by the edge between its endpoints whose key is its id, and every node
    is a stored entity. *)
Record store_edges (g : SemanticGraph) : Prop := {
  se_adj : adj_wf (graph g);
  se_indexed :
    forall k a r, od_get (_relationship_index g) k = Some a ->
                  relationships g !! a = Some r ->
                  exists kd, nx.get_edge_data (graph g) (source_id r) (target_id r) = Some kd
                             /\ od_get kd k = Some a;
  se_nodes : forall n, nx.has_node (graph g) n = true ->
                       is_Some (od_get (_entity_index g) n);
}.

(** The key dictionary that [add_edge] stores for the pair. *)
Definition new_keydict (G : nx.MultiDiGraph) (u v key : UUID) (r : ref) : odict UUID ref :=
  match nx.get_edge_data G u v with
  | Some kd => od_set kd key r
  | None => [(key, r)]
  end.

(** The type filter at the end of [get_relationships], on one
    reference. *)
Definition of_type (g : SemanticGraph) (rtype : option RelationType) (a : ref) : bool :=
  match rtype, relationships g !! a with
  | None, _ => true
  | Some ty, Some r => bool_decide (relation_type r = ty)
  | Some _, None => false
  end.

End AdjInv.

(** ** Stores whose entity ids are never reused *)

Module FreshIds.
Import SemanticGraphM.

(** The states built from the empty store when every entity passed to
    [add_entity] carries an id that is not stored yet, as the ids drawn by
    [uuid4] are. *)
Inductive reachable : SemanticGraph -> Prop :=
| reachable_init : reachable init
| reachable_add_entity now e m g :
    reachable g -> Entity_valid e -> get_entity g (id e) = None ->
    reachable (fst (add_entity now e m g))
| reachable_add_relationship now r m g :
    reachable g -> Relationship_valid r ->
    reachable (fst (add_relationship now r m g)).

(** Every id of a bucket of a secondary index is the id of a stored
    entity of that type, or of that lower-cased name. *)
Record indices_exact (g : SemanticGraph) : Prop := {
  by_type_exact :
    forall t ids k, _entities_by_type g !! t = Some ids -> k ∈ ids ->
      exists a e, od_get (_entity_index g) k = Some a /\ entities g !! a = Some e
                  /\ entity_type e = t;
  by_name_exact :
    forall n ids k, _entities_by_name g !! n = Some ids -> k ∈ ids ->
      exists a e, od_get (_entity_index g) k = Some a /\ entities g !! a = Some e
                  /\ Py.lower (name e) = n;
}.

End FreshIds.

(** ** semantic_graph.py: [get_context] *)

Module Context.
Import SemanticGraphM Query.

(** The dictionary that [get_context] returns; entities and
    relationships are references to the stored objects, [ctx_entity] is
    the argument of the call. *)
Record ContextDoc := {
  ctx_entity : Entity;
  spatial_neighbors : list (ref * ref);
  container : option ref;
  contents : list ref;
  nearby : list ref;
}.

(** The body of the first loop, on the pair ([container], [nearby]). *)
Definition outgoing_step (g : SemanticGraph) (st : option ref * list ref) (a : ref)
    : result (option ref * list ref) :=
  let '(container, nearby) := st in
  do rel <- deref (relationships g) a;
  if negb (RelationshipM.is_spatial rel) then inr st
  else
    match get_entity g (target_id rel) with
    | None => inr st
    | Some target =>
        if bool_decide (relation_type rel = IN) then inr (Some target, nearby)
        else if bool_decide (relation_type rel = NEAR) then inr (container, nearby ++ [target])
        else inr st
    end.

(** The body of the second loop, on [contents]. *)
Definition incoming_step (g : SemanticGraph) (contents : list ref) (a : ref)
    : result (list ref) :=
  do rel <- deref (relationships g) a;
  if bool_decide (relation_type rel = IN) then
    match get_entity g (source_id rel) with
    | Some source => inr (contents ++ [source])
    | None => inr contents
    end
  else inr contents.

(** [get_context(entity, radius)]. *)
Definition get_context (g : SemanticGraph) (entity : Entity) (radius : Z)
    : result ContextDoc :=
  do rels_out <- get_relationships g (Some (id entity)) None None;
  do out <- for_each (outgoing_step g) rels_out (None, []);
  do rels_in <- get_relationships g None (Some (id entity)) None;
  do contents <- for_each (incoming_step g) rels_in [];
  do spatial_results <- query_spatial g entity None radius;
  inr {| ctx_entity := entity;
         spatial_neighbors := spatial_results;
         container := fst out;
         contents := contents;
         nearby := snd out |}.

End Context.

(** ** Relationships of an entity, for the context query *)

Module ContextSpec.
Import SemanticGraphM.

(** The relationship at [a] leaves [u], has type [ty], and its target is
    the stored entity [c]. *)
Definition leaves_to (g : SemanticGraph) (u : UUID) (ty : RelationType)
    (c : ref) (a : ref) : Prop :=
  exists r, relationships g !! a = Some r /\ source_id r = u
            /\ relation_type r = ty /\ get_entity g (target_id r) = Some c.

(** The relationship at [a] arrives at [v], has type [ty], and its
    source is the stored entity [c]. *)
Definition arrives_from (g : SemanticGraph) (v : UUID) (ty : RelationType)
    (c : ref) (a : ref) : Prop :=
  exists r, relationships g !! a = Some r /\ target_id r = v
            /\ relation_type r = ty /\ get_entity g (source_id r) = Some c.

End ContextSpec.

(** ** Pairs returned by the spatial query *)

Module SpatialSpec.
Import SemanticGraphM.

(** The pair (entity, relationship) is made of a spatial relationship of
    the requested type, if one is requested, and of the stored entity it
    points to. *)
Definition spatial_pair (g : SemanticGraph) (rtype : option RelationType)
    (p : ref * ref) : Prop :=
  exists r, relationships g !! p.2 = Some r
            /\ RelationshipM.is_spatial r = true
            /\ (forall ty, rtype = Some ty -> relation_type r = ty)
            /\ get_entity g (target_id r) = Some p.1.

(** Such a pair, for one of the relationships of the list [rels]. *)
Definition direct_pair (g : SemanticGraph) (rtype : option RelationType)
    (rels : list ref) (p : ref * ref) : Prop :=
  In p.2 rels /\ spatial_pair g rtype p.

End SpatialSpec.

(** ** Exceptions of the import *)

Module ImportSpec.

(** The exceptions that [import_from_dict] raises on a document: a
    validation error of a record, or the missing endpoint of a
    relationship. *)
Definition import_error (exc : PyExc) : Prop :=
  exc = ValidationError \/ exists msg, exc = ValueError msg.

End ImportSpec.

(** ** ingestion/observation.py *)

(** A value of the [metadata] dictionary of an observation: the size and
    the mode of the image. *)
Inductive MetaVal :=
| MetaSize (width height : Z)
| MetaStr (s : string).

Record Observation := {
  obs_id : UUID;
  obs_timestamp : datetime;
  device_id : string;
  source_type : string;
  obs_entities : list Entity;
  obs_relationships : list Relationship;
  image_path : option string;
  obs_description : option string;
  video_path : option string;
  location_hint : option string;
  obs_context : option string;
  obs_confidence : R;
  processed : bool;
  processing_errors : list string;
  obs_metadata : gmap string MetaVal;
}.

Module ObservationM.

(** [entity.source_devices.add(device)] on the object [entity]. *)
Definition entity_add_device (entity : Entity) (device : string) : Entity :=
  {| id := id entity; entity_type := entity_type entity; name := name entity;
     semantic := semantic entity; visual := visual entity;
     first_observed := first_observed entity; last_observed := last_observed entity;
     observation_count := observation_count entity;
     source_devices := source_devices entity ∪ {[ device ]};
     confidence := confidence entity; properties := properties entity |}.

(** [relationship.source_devices.add(device)]. *)
Definition relationship_add_device (r : Relationship) (device : string) : Relationship :=
  {| rel_id := rel_id r; relation_type := relation_type r;
     source_id := source_id r; target_id := target_id r; spatial := spatial r;
     rel_first_observed := rel_first_observed r; rel_last_observed := rel_last_observed r;
     rel_observation_count := rel_observation_count r;
     rel_source_devices := rel_source_devices r ∪ {[ device ]};
     rel_confidence := rel_confidence r; is_bidirectional := is_bidirectional r;
     rel_properties := rel_properties r |}.

(** The observation with other lists of entities and relationships, and
    with other processing fields. *)
Definition update (self : Observation) (es : list Entity) (rs : list Relationship)
    (done : bool) (errors : list string) (meta : gmap string MetaVal) : Observation :=
  {| obs_id := obs_id self; obs_timestamp := obs_timestamp self;
     device_id := device_id self; source_type := source_type self;
     obs_entities := es; obs_relationships := rs;
     image_path := image_path self; obs_description := obs_description self;
     video_path := video_path self; location_hint := location_hint self;
     obs_context := obs_context self; obs_confidence := obs_confidence self;
     processed := done; processing_errors := errors; obs_metadata := meta |}.

(** [Observation.add_entity(self, entity)]. *)
Definition add_entity (self : Observation) (entity : Entity) : Observation :=
  update self (obs_entities self ++ [entity_add_device entity (device_id self)])
         (obs_relationships self) (processed self) (processing_errors self)
         (obs_metadata self).

(** [Observation.add_relationship(self, relationship)]. *)
Definition add_relationship (self : Observation) (relationship : Relationship)
    : Observation :=
  update self (obs_entities self)
         (obs_relationships self ++ [relationship_add_device relationship (device_id self)])
         (processed self) (processing_errors self) (obs_metadata self).

End ObservationM.

(** ** ingestion/photo_processor.py

    The processor built with [use_vision_model=False], the default, for
    which [process_photo] takes the description-based branch.  The ids
    drawn by [uuid4] are the values [uuid4 0], [uuid4 1], ... of a
    supply, and a counter tells how many have been drawn; [Path_stem] is
    [Path(p).stem]; [Image_open] is [Image.open], which gives the size
    and the mode of the image, or the message of the exception it
    raises. *)

Module PhotoProcessor.
Section processor.
Variable uuid4 : nat -> UUID.
Variable Path_stem : string -> string.
Variable Image_open : string -> string + (Z * Z * string).

(** [Entity(entity_type=t, name=n, semantic=sem, confidence=c)]. *)
Definition new_entity (now : datetime) (i : UUID) (t : EntityType) (n : string)
    (sem : SemanticAttributes) (c : R) : Entity :=
  {| id := i; entity_type := t; name := n; semantic := sem;
     visual := VisualFeatures_default;
     first_observed := now; last_observed := now;
     observation_count := 1%Z; source_devices := ∅;
     confidence := c; properties := ∅ |}.

(** [SemanticAttributes(description=d, tags=ts)]. *)
Definition described (d : string) (ts : gset string) : SemanticAttributes :=
  {| category := None; subcategory := None; function := None;
     material_composition := []; brand := None; model := None; tags := ts;
     description := Some d; aliases := [] |}.

(** [Relationship(relation_type=t, source_id=s, target_id=d,
    spatial=SpatialProperties(confidence=0.5), confidence=0.5)]. *)
Definition new_relationship (now : datetime) (i : UUID) (t : RelationType)
    (s d : UUID) : Relationship :=
  {| rel_id := i; relation_type := t; source_id := s; target_id := d;
     spatial := Some {| distance_estimate := None; distance_meters := None;
                        relative_orientation := None; elevation_difference := None;
                        sp_confidence := 0.5 |};
     rel_first_observed := now; rel_last_observed := now;
     rel_observation_count := 1%Z; rel_source_devices := ∅;
     rel_confidence := 0.5; is_bidirectional := false; rel_properties := ∅ |}.

Definition entity_keywords : list (string * EntityType) :=
  [ ("tool", OBJECT); ("machine", EQUIPMENT); ("box", CONTAINER);
    ("table", SURFACE); ("room", SPACE); ("shelf", CONTAINER);
    ("part", OBJECT); ("product", OBJECT) ].

Definition spatial_keywords : list (string * RelationType) :=
  [ (" on ", ON); (" in ", IN); (" near ", NEAR); (" next to ", NEXT_TO);
    (" above ", ABOVE); (" below ", BELOW) ].

(** The body of the loop over [entity_keywords], on the list [entities]
    and the number of ids drawn. *)
Definition detect_step (now : datetime) (description description_lower : string)
    (st : list Entity * nat) (kw : string * EntityType) : list Entity * nat :=
  let '(entities, n) := st in
  let '(keyword, entity_type) := kw in
  if Py.str_in keyword description_lower
  then (entities ++ [new_entity now (uuid4 n) entity_type keyword
                       (described description {[ keyword ]}) 0.6],
        S n)
  else (entities, n).

(** The body of the loop over [spatial_keywords]. *)
Definition relate_step (now : datetime) (description_lower : string)
    (detected_entities : list Entity)
    (st : list Relationship * nat) (kw : string * RelationType)
    : list Relationship * nat :=
  let '(relationships, n) := st in
  let '(keyword, rel_type) := kw in
  if (Py.str_in keyword description_lower
      && bool_decide (2 <= length detected_entities)%nat)%bool
  then
    match detected_entities with
    | e0 :: e1 :: _ =>
        (relationships ++ [new_relationship now (uuid4 n) rel_type (id e0) (id e1)],
         S n)
    | _ => (relationships, n)   (* excluded by the test on the length *)
    end
  else (relationships, n).

(** [_extract_from_description(description, image_path)], from the
    [n]-th id of the supply on; the result carries the number of ids
    drawn at the end. *)
Definition _extract_from_description (now : datetime) (n : nat)
    (description : option string) (image_path : string)
    : list Entity * list Relationship * nat :=
  if negb (Py.truthy_str description) then
    ([new_entity now (uuid4 n) UNKNOWN (Path_stem image_path)
        (described "Image without description" ∅) 0.3],
     [], S n)
  else
    let description := default EmptyString description in
    let description_lower := Py.lower description in
    let '(entities, n1) :=
      fold_left (detect_step now description description_lower) entity_keywords ([], n) in
    let '(relationships, n2) :=
      fold_left (relate_step now description_lower entities) spatial_keywords ([], n1) in
    (entities, relationships, n2).

(** [Observation(device_id=..., source_type="photo", image_path=...,
    description=..., location_hint=...)]. *)
Definition new_observation (now : datetime) (i : UUID) (device : string)
    (path : string) (description location : option string) : Observation :=
  {| obs_id := i; obs_timestamp := now; device_id := device; source_type := "photo";
     obs_entities := []; obs_relationships := [];
     image_path := Some path; obs_description := description; video_path := None;
     location_hint := location; obs_context := None; obs_confidence := 0.5;
     processed := false; processing_errors := []; obs_metadata := ∅ |}.

(** [process_photo(image_path, description, device_id, location_hint)]. *)
Definition process_photo (now : datetime) (n : nat) (path : string)
    (description : option string) (device : string) (location : option string)
    : Observation * nat :=
  let observation := new_observation now (uuid4 n) device path description location in
  match Image_open path with
  | inr (width, height, mode) =>
      let meta := <["image_mode" := MetaStr mode]>
                    (<["image_size" := MetaSize width height]> (obs_metadata observation)) in
      let observation :=
        ObservationM.update observation (obs_entities observation)
          (obs_relationships observation) (processed observation)
          (processing_errors observation) meta in
      let '(entities, relationships, n') :=
        _extract_from_description now (S n) description path in
      let observation := fold_left ObservationM.add_entity entities observation in
      let observation := fold_left ObservationM.add_relationship relationships observation in
      (ObservationM.update observation (obs_entities observation)
         (obs_relationships observation) true (processing_errors observation)
         (obs_metadata observation),
       n')
  | inl message =>
      (ObservationM.update observation (obs_entities observation)
         (obs_relationships observation) false
         (processing_errors observation ++ [message]) (obs_metadata observation),
       S n)
  end.

(** The loop of [batch_process]: [enumerate(image_paths)] from index [i]. *)
Fixpoint batch_loop (now : datetime) (device : string) (descriptions : option (list string))
    (i : nat) (image_paths : list string) (n : nat) : list Observation * nat :=
  match image_paths with
  | [] => ([], n)
  | path :: rest =>
      let description :=
        if Py.truthy_list descriptions then default [] descriptions !! i else None in
      let '(obs, n1) := process_photo now n path description device None in
      let '(observations, n2) := batch_loop now device descriptions (S i) rest n1 in
      (obs :: observations, n2)
  end.

(** [batch_process(image_paths, descriptions, device_id)]. *)
Definition batch_process (now : datetime) (n : nat) (image_paths : list string)
    (descriptions : option (list string)) (device : string)
    : result (list Observation * nat) :=
  if (Py.truthy_list descriptions
      && bool_decide (length (default [] descriptions) ≠ length image_paths))%bool
  then inl (ValueError "Descriptions list must match image_paths length")
  else inr (batch_loop now device descriptions 0 image_paths n).

End processor.
End PhotoProcessor.

(** * Properties *)

(** ** Python built-ins *)

Lemma py_gt_true x y : Py.gt x y = true <-> x > y.
Proof. unfold Py.gt. destruct (Rlt_dec y x); split; intros; try done; lra. Qed.

Lemma py_lt_true x y : Py.lt x y = true <-> x < y.
Proof. unfold Py.lt. destruct (Rlt_dec x y); split; intros; try done; lra. Qed.

Lemma py_eq_true x y : Py.eq x y = true <-> x = y.
Proof. unfold Py.eq. destruct (Req_dec_T x y); split; intros; try done. Qed.

Lemma py_sum_from l : forall a, fold_left Rplus l a = a + Py.sum l.
Proof.
  unfold Py.sum. induction l as [|x l IH]; intros a; simpl.
  - lra.
  - rewrite (IH (a + x)), (IH (0 + x)). lra.
Qed.

Lemma py_sum_cons x l : Py.sum (x :: l) = x + Py.sum l.
Proof. unfold Py.sum at 1. simpl. rewrite py_sum_from. lra. Qed.

Lemma py_sum_zip_dot u : forall v,
  Py.sum (map (fun ab => fst ab * snd ab) (Py.zip u v)) = MatchSpec.dot u v.
Proof.
  induction u as [|x u IH]; intros [|y v]; simpl; try reflexivity.
  rewrite py_sum_cons, IH. reflexivity.
Qed.

Lemma py_sum_squares u :
  Py.sum (map (fun a => a * a) u) = MatchSpec.dot u u.
Proof.
  induction u as [|x u IH]; simpl; [reflexivity|].
  rewrite py_sum_cons, IH. reflexivity.
Qed.

(** ** Entity.matches *)

Section Matches.
Import MatchSpec.

Lemma cosine_similarity_spec u v c :
  cosine_is u v c <-> c = EntityM._cosine_similarity u v.
Proof.
  unfold EntityM._cosine_similarity.
  rewrite py_sum_zip_dot, !py_sum_squares. fold (norm u) (norm v).
  case_bool_decide as Hlen.
  - split; [|intros ->; constructor; auto].
    intros [H|H1 H2 H3]; [reflexivity | congruence].
  - destruct (Py.eq (norm u) 0) eqn:Hu; simpl.
    { apply py_eq_true in Hu. split; [|intros ->; constructor; auto].
      intros [H|H1 H2 H3]; [reflexivity | contradiction]. }
    destruct (Py.eq (norm v) 0) eqn:Hv.
    { apply py_eq_true in Hv. split; [|intros ->; constructor; auto].
      intros [H|H1 H2 H3]; [reflexivity | contradiction]. }
    assert (norm u ≠ 0) by (intros E; apply py_eq_true in E; congruence).
    assert (norm v ≠ 0) by (intros E; apply py_eq_true in E; congruence).
    split.
    + intros [[H1|[H1|H1]]|H1 H2 H3]; [congruence..|reflexivity].
    + intros ->. constructor; [|done..].
      destruct (decide (length u = length v)); [done|contradiction].
Qed.

Lemma type_conflict_test a b :
  (bool_decide (entity_type a ≠ entity_type b)
   && bool_decide (entity_type a ≠ UNKNOWN)
   && bool_decide (entity_type b ≠ UNKNOWN))%bool = true <-> type_conflict a b.
Proof.
  unfold type_conflict.
  rewrite !andb_true_iff, !bool_decide_eq_true. tauto.
Qed.

Lemma names_equal_test a b :
  String.eqb (Py.lower (name a)) (Py.lower (name b)) = true <-> names_equal a b.
Proof. apply String.eqb_eq. Qed.

Lemma lowered_names_set e n :
  n ∈ ({[ Py.lower (name e) ]} ∪ list_to_set (map Py.lower (aliases (semantic e))) : gset string)
  <-> In n (lowered_names e).
Proof.
  unfold lowered_names. rewrite elem_of_union, elem_of_singleton,
    elem_of_list_to_set, list_elem_of_In. simpl. split; intros [H|H]; auto.
Qed.

Lemma names_intersect_test a b :
  ({[ Py.lower (name a) ]} ∪ list_to_set (map Py.lower (aliases (semantic a))) : gset string)
  ∩ ({[ Py.lower (name b) ]} ∪ list_to_set (map Py.lower (aliases (semantic b)))) ≠ ∅
  <-> names_intersect a b.
Proof.
  unfold names_intersect. split.
  - intros H. apply set_choose_L in H as [n Hn].
    apply elem_of_intersection in Hn as [H1 H2].
    exists n. by rewrite <- !lowered_names_set.
  - intros (n & H1 & H2) E.
    apply lowered_names_set in H1, H2.
    assert (n ∈ (∅ : gset string)) as H0 by (rewrite <- E; set_solver).
    set_solver.
Qed.

Lemma visual_match_test a b t :
  (Py.truthy_list (embedding (visual a))
   && Py.truthy_list (embedding (visual b))
   && Py.gt (EntityM._cosine_similarity (default [] (embedding (visual a)))
                                        (default [] (embedding (visual b)))) t)%bool = true
  <-> visual_match a b t.
Proof.
  unfold visual_match. rewrite !andb_true_iff, py_gt_true. split.
  - intros [[Ha Hb] Hc].
    destruct (embedding (visual a)) as [[|x u]|]; try discriminate.
    destruct (embedding (visual b)) as [[|y v]|]; try discriminate.
    simpl in Hc. eexists _, _, _. repeat split; try done.
    by apply cosine_similarity_spec.
  - intros (u & v & c & -> & -> & Hu & Hv & Hc & Hgt).
    apply cosine_similarity_spec in Hc as ->.
    destruct u, v; done.
Qed.

Lemma tags_match_test a b :
  (bool_decide (tags (semantic a) ≠ ∅)
   && bool_decide (tags (semantic b) ≠ ∅)
   && (bool_decide (0 < size (tags (semantic a) ∪ tags (semantic b)))%nat
       && Py.gt (INR (size (tags (semantic a) ∩ tags (semantic b)))
                 / INR (size (tags (semantic a) ∪ tags (semantic b)))) 0.5))%bool = true
  <-> tags_match a b.
Proof.
  unfold tags_match.
  rewrite !andb_true_iff, !bool_decide_eq_true, py_gt_true. split; [tauto|].
  intros (Ha & Hb & Hj). repeat split; try done.
  destruct (size (tags (semantic a) ∪ tags (semantic b))) eqn:E; [|lia].
  apply size_empty_inv in E. apply leibniz_equiv in E.
  exfalso. apply Ha. set_solver.
Qed.

End Matches.

(** C1.  [matches(a, b, t)] is the ordered, short-circuiting chain of the
    specification: false on a conflict of known types; otherwise true on
    case-insensitive name equality; otherwise true when the lower-cased
    name-and-alias sets intersect; otherwise true when both have an
    embedding and the cosine similarity (0 for different lengths or a
    zero norm) is strictly above [t]; otherwise true when both tag sets are
    non-empty with Jaccard overlap strictly above 0.5; otherwise false.
    The result of [matches] is the result of the chain and no other. *)
Theorem matches_is_ordered_chain (a b : Entity) (t : R) (r : bool) :
  MatchSpec.chain a b t r <-> EntityM.matches a b t = r.
Proof.
  unfold EntityM.matches.
  pose proof (type_conflict_test a b) as Htc.
  pose proof (names_equal_test a b) as Hne.
  pose proof (names_intersect_test a b) as Hni.
  pose proof (visual_match_test a b t) as Hvm.
  pose proof (tags_match_test a b) as Htm.
  cbv zeta.
  destruct (_ && _ && _)%bool eqn:E1 in |- *.
  { assert (MatchSpec.type_conflict a b) as H by (apply Htc; exact E1).
    split; [inversion 1; try contradiction; reflexivity | intros <-; by constructor]. }
  assert (~ MatchSpec.type_conflict a b) as H1.
  { intros H. apply Htc in H. congruence. }
  clear Htc E1.
  destruct (String.eqb _ _) eqn:E2.
  { assert (MatchSpec.names_equal a b) as H by (by apply Hne).
    split; [inversion 1; try contradiction; reflexivity | intros <-; by constructor]. }
  assert (~ MatchSpec.names_equal a b) as H2.
  { intros H. apply Hne in H. congruence. }
  clear Hne E2.
  destruct (bool_decide (_ ∩ _ ≠ ∅)) eqn:E3.
  { apply bool_decide_eq_true, Hni in E3.
    split; [inversion 1; try contradiction; reflexivity|].
    intros <-. by apply MatchSpec.chain_aliases. }
  assert (~ MatchSpec.names_intersect a b) as H3.
  { intros H. apply Hni in H. apply bool_decide_eq_false in E3. contradiction. }
  clear Hni E3.
  destruct (_ && _ && _)%bool eqn:E4 in |- *.
  { assert (MatchSpec.visual_match a b t) as H by (by apply Hvm).
    split; [inversion 1; try contradiction; reflexivity|].
    intros <-. by apply MatchSpec.chain_visual. }
  assert (~ MatchSpec.visual_match a b t) as H4.
  { intros H. apply Hvm in H. congruence. }
  clear Hvm E4.
  destruct (_ && _ && _)%bool eqn:E5 in |- *.
  { assert (MatchSpec.tags_match a b) as H by (by apply Htm).
    split; [inversion 1; try contradiction; reflexivity|].
    intros <-. by apply MatchSpec.chain_tags. }
  assert (~ MatchSpec.tags_match a b) as H5.
  { intros H. apply Htm in H. congruence. }
  split; [inversion 1; try contradiction; reflexivity|].
  intros <-. by apply MatchSpec.chain_otherwise.
Qed.

(** ** Entity.merge_observation *)

(** C2.  Merging an incoming observation with weight [w] leaves the
    confidence of the existing entity at exactly (1-w)*c0 + w*c1 and
    raises its observation count by exactly one. *)
Theorem entity_merge_blends_confidence (now : datetime) (existing incoming : Entity) (w : R) :
  let merged := EntityM.merge_observation now existing incoming w in
  confidence merged = (1 - w) * confidence existing + w * confidence incoming
  /\ observation_count merged = (observation_count existing + 1)%Z.
Proof. split; reflexivity. Qed.

(** The blend of two confidences of [0,1] with a weight of [0,1] stays in
    [0,1]. *)
Lemma entity_merge_valid now existing incoming w :
  0 <= w <= 1 -> Entity_valid existing -> Entity_valid incoming ->
  Entity_valid (EntityM.merge_observation now existing incoming w).
Proof. unfold Entity_valid. simpl. intros. split; nra. Qed.

(** The test that guards the update of [category] and [function] reads
    the confidence after the blend. *)
Lemma entity_merge_category now existing incoming w :
  category (semantic (EntityM.merge_observation now existing incoming w)) =
    if (Py.gt (confidence incoming)
              ((1 - w) * confidence existing + w * confidence incoming)
        && Py.truthy_str (category (semantic incoming)))%bool
    then category (semantic incoming) else category (semantic existing).
Proof. reflexivity. Qed.

Lemma entity_merge_function now existing incoming w :
  function (semantic (EntityM.merge_observation now existing incoming w)) =
    if (Py.gt (confidence incoming)
              ((1 - w) * confidence existing + w * confidence incoming)
        && Py.truthy_str (function (semantic incoming)))%bool
    then function (semantic incoming) else function (semantic existing).
Proof. reflexivity. Qed.

(** Below weight 1 the test after the blend agrees with the comparison of
    the two confidences before it. *)
Lemma blended_test_below_one c0 c1 w :
  0 <= w < 1 -> Py.gt c1 ((1 - w) * c0 + w * c1) = Py.gt c1 c0.
Proof.
  intros Hw. unfold Py.gt.
  destruct (Rlt_dec _ c1), (Rlt_dec c0 c1); try reflexivity; exfalso; nra.
Qed.

(** At weight 1 the blended confidence is the incoming one, and the test
    fails whatever the two confidences are. *)
Lemma blended_test_at_one c0 c1 : Py.gt c1 ((1 - 1) * c0 + 1 * c1) = false.
Proof. unfold Py.gt. destruct (Rlt_dec _ _); [exfalso; lra | reflexivity]. Qed.

(** C5, the code on weight 1.  The incoming observation is more confident
    than the existing entity (0.8 against 0.2) and carries a category, yet
    the merge keeps the old category: the comparison is made after the
    blend, against the blended confidence 0.8. *)
Theorem entity_merge_full_weight_keeps_category :
  let existing := Sample.entity_in_category 1%N OBJECT "Tool" 0.2 "old" in
  let incoming := Sample.entity_in_category 2%N OBJECT "Tool" 0.8 "tool" in
  confidence incoming > confidence existing
  /\ category (semantic incoming) = Some "tool"
  /\ category (semantic (EntityM.merge_observation 0%Z existing incoming 1)) = Some "old".
Proof.
  cbv zeta. split; [simpl; lra|]. split; [reflexivity|].
  rewrite entity_merge_category. simpl confidence.
  rewrite blended_test_at_one. reflexivity.
Qed.

(** ** Relationship.merge_observation *)

Lemma py_min_Rmin a b : Py.min a b = Rmin a b.
Proof.
  unfold Py.min, Py.lt, Rmin.
  destruct (Rlt_dec b a), (Rle_dec a b); try reflexivity; lra.
Qed.

Lemma relationship_merge_bounds c w :
  0 <= c <= 1 -> 0 <= w <= 1 -> c <= Rmin 1 (c + w * (1 - c)) <= 1.
Proof. intros Hc Hw. unfold Rmin. destruct (Rle_dec _ _); nra. Qed.

(** C8.  For a confidence [c] and a weight [w] of [0,1], the relationship
    merge sets the confidence to min(1, c + w*(1-c)), raises the
    observation count by one, and the new confidence is at least [c] and
    at most 1. *)
Theorem relationship_merge_confidence (now : datetime) (r : Relationship) (w : R) :
  0 <= rel_confidence r <= 1 -> 0 <= w <= 1 ->
  let merged := RelationshipM.merge_observation now r w in
  rel_confidence merged = Rmin 1 (rel_confidence r + w * (1 - rel_confidence r))
  /\ rel_observation_count merged = (rel_observation_count r + 1)%Z
  /\ rel_confidence r <= rel_confidence merged <= 1.
Proof.
  intros Hc Hw. cbv zeta. simpl. rewrite py_min_Rmin.
  split; [reflexivity|]. split; [reflexivity|].
  by apply relationship_merge_bounds.
Qed.

Lemma relationship_merge_confidence_witness :
  let r := Sample.relationship 7%N ON 1%N 2%N 0.5 in
  rel_confidence (RelationshipM.merge_observation 0%Z r 0.3)
    = Rmin 1 (0.5 + 0.3 * (1 - 0.5))
  /\ rel_observation_count (RelationshipM.merge_observation 0%Z r 0.3) = 2%Z
  /\ 0.5 <= rel_confidence (RelationshipM.merge_observation 0%Z r 0.3) <= 1.
Proof.
  apply (relationship_merge_confidence 0%Z (Sample.relationship 7%N ON 1%N 2%N 0.5) 0.3);
    simpl; lra.
Defined.

Lemma relationship_merge_valid now r w :
  0 <= w <= 1 -> Relationship_valid r ->
  Relationship_valid (RelationshipM.merge_observation now r w).
Proof.
  intros Hw [Hc Hs]. split; [|exact Hs].
  simpl. rewrite py_min_Rmin.
  pose proof (relationship_merge_bounds _ _ Hc Hw). lra.
Qed.

(** ** Insertion-ordered dictionaries *)

Section odict_facts.
Context {K V : Type} `{EqDecision K}.
Implicit Types (d : list (K * V)) (k : K) (v : V).

Lemma od_get_set d k v k' :
  od_get (od_set d k v) k' = if decide (k' = k) then Some v else od_get d k'.
Proof.
  induction d as [|[k0 v0] d IH]; simpl.
  - reflexivity.
  - destruct (decide (k = k0)) as [->|Hne]; simpl.
    + destruct (decide (k' = k0)); reflexivity.
    + rewrite IH. destruct (decide (k' = k0)) as [->|]; [|reflexivity].
      destruct (decide (k0 = k)); [congruence | reflexivity].
Qed.

Lemma od_mem_is_Some d k : od_mem d k = true <-> is_Some (od_get d k).
Proof.
  unfold od_mem. destruct (od_get d k); split; intros H0; try done.
Qed.

Lemma od_mem_false d k : od_mem d k = false <-> od_get d k = None.
Proof. unfold od_mem. destruct (od_get d k); split; intros; done. Qed.

Lemma od_get_Some_elem d k v : od_get d k = Some v -> (k, v) ∈ d.
Proof.
  induction d as [|[k0 v0] d IH]; simpl; [done|].
  destruct (decide (k = k0)) as [->|Hne].
  - intros [= ->]. apply list_elem_of_here.
  - intros Hg. apply list_elem_of_further. by apply IH.
Qed.

Lemma od_get_None_keys d k : od_get d k = None <-> k ∉ od_keys d.
Proof.
  unfold od_keys. induction d as [|[k0 v0] d IH]; simpl.
  - split; [intros _; apply not_elem_of_nil | done].
  - rewrite not_elem_of_cons. destruct (decide (k = k0)) as [->|Hne].
    + split; [done | intros [? _]; done].
    + rewrite IH. tauto.
Qed.

Lemma od_elem_keys d k v : (k, v) ∈ d -> k ∈ od_keys d.
Proof. intros Hin. unfold od_keys. apply (list_elem_of_fmap_2 fst) in Hin. exact Hin. Qed.

Lemma od_elem_get d k v : NoDup (od_keys d) -> (k, v) ∈ d -> od_get d k = Some v.
Proof.
  unfold od_keys. induction d as [|[k0 v0] d IH]; simpl.
  - intros _ Hin. by apply elem_of_nil in Hin.
  - intros Hnd Hin. apply NoDup_cons in Hnd as [Hk0 Hnd].
    apply elem_of_cons in Hin as [[= -> ->]|Hin].
    + by rewrite decide_True.
    + destruct (decide (k = k0)) as [->|Hne].
      * exfalso. apply Hk0. by apply (od_elem_keys d k0 v).
      * by apply IH.
Qed.


Lemma od_keys_set d k v :
  od_keys (od_set d k v) = if od_mem d k then od_keys d else od_keys d ++ [k].
Proof.
  unfold od_mem, od_keys. induction d as [|[k0 v0] d IH]; simpl; [done|].
  destruct (decide (k = k0)) as [->|Hne]; simpl; [done|].
  rewrite IH. by destruct (od_get d k).
Qed.

Lemma od_keys_set_nodup d k v : NoDup (od_keys d) -> NoDup (od_keys (od_set d k v)).
Proof.
  intros Hnd. rewrite od_keys_set.
  destruct (od_mem d k) eqn:E; [done|].
  apply od_mem_false, od_get_None_keys in E.
  apply NoDup_app. split; [done|]. split.
  - intros x Hx Hx'. apply list_elem_of_singleton in Hx' as ->. done.
  - apply NoDup_singleton.
Qed.

Lemma od_elem_set d k v k' v' :
  (k', v') ∈ od_set d k v -> (k' = k /\ v' = v) \/ (k', v') ∈ d.
Proof.
  induction d as [|[k0 v0] d IH]; simpl.
  - intros Hin. apply list_elem_of_singleton in Hin as [= -> ->]. by left.
  - destruct (decide (k = k0)) as [->|Hne].
    + intros Hin. apply elem_of_cons in Hin as [[= -> ->]|Hin]; [by left|].
      right. by apply list_elem_of_further.
    + intros Hin. apply elem_of_cons in Hin as [[= -> ->]|Hin].
      * right. apply list_elem_of_here.
      * destruct (IH Hin) as [?|?]; [by left|]. right. by apply list_elem_of_further.
Qed.

Lemma od_length_set d k v :
  length (od_set d k v) = if od_mem d k then length d else S (length d).
Proof.
  rewrite <- !(length_map fst). change (map fst) with (@od_keys K V).
  rewrite od_keys_set. destruct (od_mem d k); [done|].
  rewrite length_app. simpl. lia.
Qed.
End odict_facts.

(** ** add_relationship on a missing endpoint *)

(** C3.  When the source or the target of a relationship is not a key of
    the entity store, [add_relationship], with or without merging, raises
    the reference error ([ValueError]) and the store is exactly the store
    before the call: the relationship count, the relationship-id map and
    the adjacency structure are unchanged. *)
Theorem add_relationship_missing_endpoint
    (now : datetime) (rel : Relationship) (merge_if_exists : bool) (g : SemanticGraph) :
  od_get (_entity_index g) (source_id rel) = None
  \/ od_get (_entity_index g) (target_id rel) = None ->
  let out := SemanticGraphM.add_relationship now rel merge_if_exists g in
  (exists msg, snd out = inl (ValueError msg))
  /\ fst out = g
  /\ length (_relationship_index (fst out)) = length (_relationship_index g)
  /\ _relationship_index (fst out) = _relationship_index g
  /\ graph (fst out) = graph g.
Proof.
  intros Hmissing. cbv zeta. unfold SemanticGraphM.add_relationship.
  destruct (od_mem (_entity_index g) (source_id rel)) eqn:Hs; simpl.
  - destruct (od_mem (_entity_index g) (target_id rel)) eqn:Ht; simpl.
    + exfalso. apply od_mem_is_Some in Hs as [? Hs], Ht as [? Ht].
      destruct Hmissing; congruence.
    + eauto 10.
  - eauto 10.
Qed.

Lemma add_relationship_missing_endpoint_witness :
  let rel := Sample.relationship 9%N ON 1%N 2%N 0.5 in
  let out := SemanticGraphM.add_relationship 0%Z rel true SemanticGraphM.init in
  (od_get (_entity_index SemanticGraphM.init) (source_id rel) = None
   \/ od_get (_entity_index SemanticGraphM.init) (target_id rel) = None)
  /\ (exists msg, snd out = inl (ValueError msg))
  /\ fst out = SemanticGraphM.init.
Proof.
  cbv zeta.
  assert (od_get (_entity_index SemanticGraphM.init)
            (source_id (Sample.relationship 9%N ON 1%N 2%N 0.5)) = None
          \/ od_get (_entity_index SemanticGraphM.init)
               (target_id (Sample.relationship 9%N ON 1%N 2%N 0.5)) = None) as H
    by (left; reflexivity).
  split; [exact H|].
  destruct (add_relationship_missing_endpoint 0%Z
              (Sample.relationship 9%N ON 1%N 2%N 0.5) true SemanticGraphM.init H)
    as (Hexc & Hst & _).
  split; assumption.
Defined.

(** ** Strings *)

Lemma string_append_cons c p post :
  (String c p ++ post)%string = String c (p ++ post)%string.
Proof. reflexivity. Qed.

Lemma string_prefix_spec p : forall s,
  String.prefix p s = true <-> exists post, s = (p ++ post)%string.
Proof.
  induction p as [|c p IH]; intros s.
  - split; [intros _; by exists s | by destruct s].
  - destruct s as [|c' s]; simpl.
    + split; [done | intros [post Hpost]; discriminate].
    + destruct (Ascii.ascii_dec c c') as [->|Hne].
      * rewrite IH. split; intros [post Hpost]; exists post;
          rewrite string_append_cons in *; congruence.
      * split; [done | intros [post Hpost]; rewrite string_append_cons in Hpost; congruence].
Qed.

Lemma str_in_spec sub s : Py.str_in sub s = true <-> Inv.substring sub s.
Proof.
  unfold Inv.substring. split.
  - induction s as [|c s IH]; cbn [Py.str_in].
    + destruct (String.prefix sub "") eqn:E; [|discriminate].
      intros _. apply string_prefix_spec in E as [post E]. by exists ""%string, post.
    + destruct (String.prefix sub (String c s)) eqn:E.
      * intros _. apply string_prefix_spec in E as [post E]. by exists ""%string, post.
      * intros H. destruct (IH H) as (pre & post & ->).
        by exists (String c pre), post.
  - intros (pre & post & ->). induction pre as [|c pre IH].
    + assert (String.prefix sub (sub ++ post) = true) as E
        by (apply string_prefix_spec; by exists post).
      change ("" ++ sub ++ post)%string with (sub ++ post)%string.
      destruct (sub ++ post)%string; cbn [Py.str_in]; by rewrite E.
    + rewrite string_append_cons. cbn [Py.str_in]. rewrite IH.
      by destruct (String.prefix sub _).
Qed.

(** ** Fuzzy name lookup *)

Lemma fuzzy_hit_spec query e :
  SemanticGraphM.fuzzy_hit (Py.lower query) e = true <-> FuzzySpec.two_way query e.
Proof.
  unfold SemanticGraphM.fuzzy_hit, FuzzySpec.two_way.
  destruct (Py.str_in (Py.lower query) (Py.lower (name e))) eqn:E1.
  { apply str_in_spec in E1. tauto. }
  assert (~ Inv.substring (Py.lower query) (Py.lower (name e))) as N1.
  { intros H. apply str_in_spec in H. congruence. }
  destruct (existsb _ _) eqn:E2.
  - apply existsb_exists in E2 as (alias & Hin & Hsub).
    apply str_in_spec in Hsub. split; [|done]. right. eauto.
  - split; [done|]. intros [H|(alias & Hin & Hsub)]; [contradiction|].
    apply str_in_spec in Hsub.
    assert (existsb (fun alias => Py.str_in (Py.lower query) (Py.lower alias))
                    (aliases (semantic e)) = true) as E3
      by (apply existsb_exists; eauto).
    congruence.
Qed.

(** A loop that appends the references whose object passes a test keeps
    them in the order of the list it runs over. *)
Lemma filter_loop {A} (heap : list A) (P : A -> bool) (l : list ref) :
  (forall a, In a l -> is_Some (heap !! a)) ->
  forall acc,
    for_each (fun acc a => do x <- deref heap a; inr (if P x then acc ++ [a] else acc))
             l acc
    = inr (acc ++ List.filter (fun a => match heap !! a with
                                        | Some x => P x
                                        | None => false
                                        end) l).
Proof.
  induction l as [|a l IH]; intros Hwf acc; simpl.
  - by rewrite app_nil_r.
  - destruct (Hwf a) as [e He]; [by left|].
    unfold deref at 1. rewrite He. simpl.
    rewrite IH by (intros; apply Hwf; by right).
    destruct (P e); simpl; [by rewrite <- app_assoc | reflexivity].
Qed.

(** C6, as amended.  With [fuzzy=True] a stored entity is returned if and
    only if, case-insensitively, the query is a substring of its name or
    of at least one of its aliases. *)
Theorem fuzzy_lookup_name_or_alias (g : SemanticGraph) (query : string) :
  (forall a, In a (od_values (_entity_index g)) -> is_Some (entities g !! a)) ->
  FuzzySpec.returns_exactly FuzzySpec.two_way g query.
Proof.
  intros Hwf. unfold FuzzySpec.returns_exactly, SemanticGraphM.get_entities_by_name.
  simpl.
  rewrite (filter_loop (entities g) (SemanticGraphM.fuzzy_hit (Py.lower query)) _ Hwf).
  eexists. split; [reflexivity|].
  intros a e Hin He. simpl.
  rewrite filter_In, He, fuzzy_hit_spec. tauto.
Qed.

Lemma fuzzy_lookup_name_or_alias_witness :
  (forall a, In a (od_values (_entity_index Scenario.one_hammer)) ->
             is_Some (entities Scenario.one_hammer !! a))
  /\ FuzzySpec.returns_exactly FuzzySpec.two_way Scenario.one_hammer "ham".
Proof.
  assert (forall a, In a (od_values (_entity_index Scenario.one_hammer)) ->
                    is_Some (entities Scenario.one_hammer !! a)) as Hwf.
  { intros a [<-|[]]. by eexists. }
  split; [exact Hwf|].
  exact (fuzzy_lookup_name_or_alias Scenario.one_hammer "ham" Hwf).
Defined.

(** C6, as stated, fails.  The store holds the single entity "Hammer";
    the query "big hammer" contains its name, case-insensitively, so the
    three-way rule of the claim selects it, but the lookup returns the
    empty list. *)
Lemma fuzzy_lookup_name_inside_query_counterexample :
  SemanticGraphM.get_entities_by_name Scenario.one_hammer "big hammer" true = inr []
  /\ ~ FuzzySpec.returns_exactly FuzzySpec.three_way Scenario.one_hammer "big hammer".
Proof.
  assert (SemanticGraphM.get_entities_by_name Scenario.one_hammer "big hammer" true
          = inr []) as Hrun by (vm_compute; reflexivity).
  split; [exact Hrun|].
  intros (found & Hfound & Hspec).
  rewrite Hrun in Hfound. injection Hfound as <-.
  destruct (Hspec 0%nat Scenario.hammer) as [_ Hin].
  - by left.
  - reflexivity.
  - apply Hin. right. left. by exists "big "%string, ""%string.
Qed.

(** ** The object heap *)

Lemma store_lookup {A} (h : list A) (a a' : ref) (x : A) :
  store h a x !! a' =
    if decide (a' = a) then (if decide (a < length h)%nat then Some x else None)
    else h !! a'.
Proof.
  unfold store. destruct (decide (a' = a)) as [->|Hne].
  - destruct (decide (a < length h)%nat) as [Hlt|Hge].
    + by apply list_lookup_insert_eq.
    + rewrite list_insert_ge by lia. apply lookup_ge_None. lia.
  - by apply list_lookup_insert_ne.
Qed.

Lemma store_is_Some {A} (h : list A) (a a' : ref) (x : A) :
  is_Some (store h a x !! a') <-> is_Some (h !! a').
Proof.
  unfold store. rewrite !lookup_lt_is_Some, length_insert. done.
Qed.

Lemma alloc_lookup_old {A} (h : list A) (x y : A) (a : ref) :
  h !! a = Some y -> (h ++ [x]) !! a = Some y.
Proof. intros Hl. by apply lookup_app_l_Some. Qed.

Lemma alloc_lookup_new {A} (h : list A) (x : A) : (h ++ [x]) !! length h = Some x.
Proof. by apply list_lookup_middle. Qed.

Lemma alloc_lookup {A} (h : list A) (x y : A) (a : ref) :
  (h ++ [x]) !! a = Some y -> (a = length h /\ y = x) \/ h !! a = Some y.
Proof.
  intros Hl. destruct (decide (a < length h)%nat) as [Hlt|Hge].
  - right. by rewrite lookup_app_l in Hl.
  - left. rewrite lookup_app_r in Hl by lia.
    destruct (a - length h)%nat as [|n] eqn:E; simpl in Hl; [|by destruct n].
    injection Hl as <-. split; [|done].
    lia.
Qed.
Section indices.
Import SemanticGraphM.

Lemma bucket_add `{Countable K} (m : gmap K (gset UUID)) (k0 : K) (i : UUID) (k : K) :
  alter (fun s => s ∪ {[ i ]}) k0
        (if bool_decide (k0 ∉ dom m) then <[k0 := ∅]> m else m) !! k
  = if decide (k = k0) then Some (default ∅ (m !! k0) ∪ {[ i ]}) else m !! k.
Proof.
  rewrite lookup_alter. destruct (decide (k0 = k)) as [<-|Hne].
  - rewrite decide_True by done. case_bool_decide as Hdom.
    + apply not_elem_of_dom in Hdom. rewrite lookup_insert_eq, Hdom. reflexivity.
    + apply elem_of_dom in Hdom as [s Hs].
      rewrite Hs. reflexivity.
  - rewrite decide_False by done. case_bool_decide; [|done].
    by rewrite lookup_insert_ne.
Qed.

Lemma update_indices_by_type g e t :
  _entities_by_type (_update_entity_indices g e) !! t =
    if decide (t = entity_type e)
    then Some (default ∅ (_entities_by_type g !! entity_type e) ∪ {[ id e ]})
    else _entities_by_type g !! t.
Proof. unfold _update_entity_indices. simpl. apply bucket_add. Qed.

Lemma update_indices_by_name g e n :
  _entities_by_name (_update_entity_indices g e) !! n =
    if decide (n = Py.lower (name e))
    then Some (default ∅ (_entities_by_name g !! Py.lower (name e)) ∪ {[ id e ]})
    else _entities_by_name g !! n.
Proof. unfold _update_entity_indices. simpl. apply bucket_add. Qed.
End indices.

Section entity_invariants.
Import SemanticGraphM Inv.

Lemma od_elem_is_Some {V} (d : odict UUID V) k v :
  (k, v) ∈ d -> is_Some (od_get d k).
Proof.
  intros Hin. destruct (od_get d k) eqn:E; [by eexists|].
  apply od_get_None_keys in E. exfalso. apply E. by apply (od_elem_keys d k v).
Qed.

Lemma merge_entity_inv now g a k obj e :
  inv g -> (k, a) ∈ _entity_index g -> entities g !! a = Some obj ->
  Entity_valid e -> inv (merge_entity now g a obj e).
Proof.
  intros [Hidx Hprim Hedges] Hin Hobj Hvalid.
  destruct (entity_objects g Hprim k a Hin) as (obj0 & Hobj0 & Hid & Hv).
  assert (obj0 = obj) as -> by congruence.
  assert (a < length (entities g))%nat as Hlt by (by eapply lookup_lt_Some).
  set (obj' := EntityM.merge_observation now obj e 0.3).
  assert (Entity_valid obj') as Hv'
    by (apply entity_merge_valid; [lra|done..]).
  unfold merge_entity. fold obj'.
  split.
  - split.
    + intros t ids k0. rewrite update_indices_by_type. simpl.
      destruct (decide _) as [->|Hne].
      * intros [= <-] Hk0. apply elem_of_union in Hk0 as [Hk0|Hk0].
        -- destruct (_entities_by_type g !! entity_type obj) eqn:E; simpl in Hk0.
           ++ by eapply (by_type_in_primary g Hidx).
           ++ by apply elem_of_empty in Hk0.
        -- apply elem_of_singleton in Hk0 as ->. simpl. rewrite Hid.
           by eapply od_elem_is_Some.
      * intros Hl Hk0. by eapply (by_type_in_primary g Hidx).
    + intros n ids k0. rewrite update_indices_by_name. simpl.
      destruct (decide _) as [->|Hne].
      * intros [= <-] Hk0. apply elem_of_union in Hk0 as [Hk0|Hk0].
        -- destruct (_entities_by_name g !! Py.lower (name obj)) eqn:E; simpl in Hk0.
           ++ by eapply (by_name_in_primary g Hidx).
           ++ by apply elem_of_empty in Hk0.
        -- apply elem_of_singleton in Hk0 as ->. simpl. rewrite Hid.
           by eapply od_elem_is_Some.
      * intros Hl Hk0. by eapply (by_name_in_primary g Hidx).
    + intros k1 a1 e1. rewrite update_indices_by_type. simpl. rewrite store_lookup.
      intros Hk1 He1.
      destruct (decide (a1 = a)) as [->|Hne].
      * rewrite decide_True in He1 by done. injection He1 as <-.
        simpl. rewrite decide_True by done. eexists. split; [done|]. set_solver.
      * destruct (primary_in_by_type g Hidx k1 a1 e1 Hk1 He1) as (ids & Hids & Hmem).
        simpl. destruct (decide _) as [Heq|Hneq].
        -- eexists. split; [done|]. rewrite <- Heq, Hids. simpl. set_solver.
        -- eauto.
    + intros k1 a1 e1. rewrite update_indices_by_name. simpl. rewrite store_lookup.
      intros Hk1 He1.
      destruct (decide (a1 = a)) as [->|Hne].
      * rewrite decide_True in He1 by done. injection He1 as <-.
        simpl. rewrite decide_True by done. eexists. split; [done|]. set_solver.
      * destruct (primary_in_by_name g Hidx k1 a1 e1 Hk1 He1) as (ids & Hids & Hmem).
        simpl. destruct (decide _) as [Heq|Hneq].
        -- eexists. split; [done|]. rewrite <- Heq, Hids. simpl. set_solver.
        -- eauto.
  - split; simpl.
    + apply (entity_keys_nodup g Hprim).
    + intros k1 a1 Hin1.
      destruct (entity_objects g Hprim k1 a1 Hin1) as (e1 & He1 & Hid1 & Hv1).
      rewrite store_lookup. destruct (decide (a1 = a)) as [->|Hne].
      * rewrite decide_True by done. exists obj'. split; [done|].
        split; [|done]. simpl. congruence.
      * eauto.
    + apply (relationship_keys_nodup g Hprim).
    + apply (relationship_objects g Hprim).
  - exact Hedges.
Qed.

Lemma insert_entity_inv g e :
  inv g -> Entity_valid e -> inv (fst (insert_entity g e)).
Proof.
  intros [Hidx Hprim Hedges] Hvalid. unfold insert_entity, alloc. simpl fst.
  split.
  - split.
    + intros t ids k0. rewrite update_indices_by_type. simpl. rewrite od_get_set.
      destruct (decide (k0 = id e)) as [->|Hk]; [by eexists|].
      destruct (decide _) as [->|Hne].
      * intros [= <-] Hk0. apply elem_of_union in Hk0 as [Hk0|Hk0].
        -- destruct (_entities_by_type g !! entity_type e) eqn:E; simpl in Hk0.
           ++ by eapply (by_type_in_primary g Hidx).
           ++ by apply elem_of_empty in Hk0.
        -- by apply elem_of_singleton in Hk0.
      * intros Hl Hk0. by eapply (by_type_in_primary g Hidx).
    + intros n ids k0. rewrite update_indices_by_name. simpl. rewrite od_get_set.
      destruct (decide (k0 = id e)) as [->|Hk]; [by eexists|].
      destruct (decide _) as [->|Hne].
      * intros [= <-] Hk0. apply elem_of_union in Hk0 as [Hk0|Hk0].
        -- destruct (_entities_by_name g !! Py.lower (name e)) eqn:E; simpl in Hk0.
           ++ by eapply (by_name_in_primary g Hidx).
           ++ by apply elem_of_empty in Hk0.
        -- by apply elem_of_singleton in Hk0.
      * intros Hl Hk0. by eapply (by_name_in_primary g Hidx).
    + intros k1 a1 e1. rewrite update_indices_by_type. simpl. rewrite od_get_set.
      destruct (decide (k1 = id e)) as [->|Hk].
      * intros [= <-]. rewrite alloc_lookup_new. intros [= <-].
        rewrite decide_True by done. eexists. split; [done|]. set_solver.
      * intros Hk1 He1. apply od_get_Some_elem in Hk1 as Hin1.
        destruct (entity_objects g Hprim k1 a1 Hin1) as (e1' & He1' & _).
        rewrite (alloc_lookup_old _ e _ _ He1') in He1. injection He1 as ->.
        destruct (primary_in_by_type g Hidx k1 a1 e1 Hk1 He1') as (ids & Hids & Hmem).
        destruct (decide _) as [Heq|Hneq].
        -- eexists. split; [done|]. rewrite <- Heq, Hids. simpl. set_solver.
        -- eauto.
    + intros k1 a1 e1. rewrite update_indices_by_name. simpl. rewrite od_get_set.
      destruct (decide (k1 = id e)) as [->|Hk].
      * intros [= <-]. rewrite alloc_lookup_new. intros [= <-].
        rewrite decide_True by done. eexists. split; [done|]. set_solver.
      * intros Hk1 He1. apply od_get_Some_elem in Hk1 as Hin1.
        destruct (entity_objects g Hprim k1 a1 Hin1) as (e1' & He1' & _).
        rewrite (alloc_lookup_old _ e _ _ He1') in He1. injection He1 as ->.
        destruct (primary_in_by_name g Hidx k1 a1 e1 Hk1 He1') as (ids & Hids & Hmem).
        destruct (decide _) as [Heq|Hneq].
        -- eexists. split; [done|]. rewrite <- Heq, Hids. simpl. set_solver.
        -- eauto.
  - split; simpl.
    + apply od_keys_set_nodup, (entity_keys_nodup g Hprim).
    + intros k1 a1 Hin1. apply od_elem_set in Hin1 as [[-> ->]|Hin1].
      * exists e. by rewrite alloc_lookup_new.
      * destruct (entity_objects g Hprim k1 a1 Hin1) as (e1 & He1 & Hid1 & Hv1).
        exists e1. split; [by apply alloc_lookup_old | done].
    + apply (relationship_keys_nodup g Hprim).
    + intros k1 a1 Hin1.
      destruct (relationship_objects g Hprim k1 a1 Hin1) as (r & Hr & Hid & Hv & Hs & Ht).
      exists r. do 3 (split; [done|]). rewrite !od_get_set.
      split; (destruct (decide _); [by eexists | done]).
  - intros u v key a0 (nbrs & kd & Hu & Hv & Hkey). simpl in *.
    apply (Hedges u v key a0). exists nbrs, kd. split; [|done].
    unfold nx.add_node in Hu.
    destruct (od_mem (nx._succ (graph g)) (id e)); simpl in Hu; [done|].
    apply od_elem_set in Hu as [[-> ->]|Hu]; [|done].
    by apply elem_of_nil in Hv.
Qed.
End entity_invariants.

(** ** Loops in the exception monad *)

Lemma deref_inr {A} (h : list A) (a : ref) (x : A) : deref h a = inr x <-> h !! a = Some x.
Proof. unfold deref. destruct (h !! a); split; intros [=]; by subst. Qed.

Lemma deref_total {A} (h : list A) (a : ref) :
  is_Some (h !! a) -> exists x, deref h a = inr x /\ h !! a = Some x.
Proof. intros [x Hx]. exists x. by rewrite deref_inr. Qed.

Lemma traverse_inr {A B} (f : A -> result B) (l : list A) (ys : list B) :
  traverse f l = inr ys -> Forall2 (fun x y => f x = inr y) l ys.
Proof.
  revert ys. induction l as [|x l IH]; simpl; intros ys.
  - intros [= <-]. constructor.
  - destruct (f x) as [|y] eqn:Ex; simpl; [done|].
    destruct (traverse f l) as [|ys'] eqn:El; simpl; [done|].
    intros [= <-]. constructor; [done | by apply IH].
Qed.

Lemma traverse_inr_elem {A B} (f : A -> result B) (l : list A) (ys : list B) (y : B) :
  traverse f l = inr ys -> In y ys -> exists x, In x l /\ f x = inr y.
Proof.
  intros H. apply traverse_inr in H. induction H as [|x y0 l ys Hxy _ IH]; simpl.
  - done.
  - intros [<-|Hin]; [eauto|]. destruct (IH Hin) as (x' & ? & ?). eauto.
Qed.

Lemma traverse_total {A B} (f : A -> result B) (l : list A) :
  (forall x, In x l -> exists y, f x = inr y) -> exists ys, traverse f l = inr ys.
Proof.
  induction l as [|x l IH]; simpl; intros Hf.
  - by eexists.
  - destruct (Hf x) as [y Hy]; [by left|]. rewrite Hy. simpl.
    destruct IH as [ys Hys]; [intros; apply Hf; by right|].
    rewrite Hys. simpl. by eexists.
Qed.

Section find_matching.
Import SemanticGraphM Inv.

Lemma od_values_elem {V} (d : odict UUID V) (v : V) :
  In v (od_values d) -> exists k, (k, v) ∈ d.
Proof.
  unfold od_values. intros Hin. apply in_map_iff in Hin as ([k v'] & <- & Hin).
  exists k. by apply list_elem_of_In.
Qed.

Lemma first_match_Some g test cs c :
  first_match g test cs = inr (Some c) ->
  In c cs /\ exists e, entities g !! c = Some e /\ test e = true.
Proof.
  induction cs as [|c0 cs IH]; simpl; [done|].
  destruct (deref (entities g) c0) as [|e0] eqn:E0; simpl; [done|].
  apply deref_inr in E0. destruct (test e0) eqn:Et.
  - intros [= <-]. split; [by left | eauto].
  - intros H. destruct (IH H) as [Hin He]. split; [by right | done].
Qed.

Lemma first_match_total g test cs :
  (forall c, In c cs -> is_Some (entities g !! c)) ->
  exists r, first_match g test cs = inr r.
Proof.
  induction cs as [|c0 cs IH]; simpl; intros Hwf; [by eexists|].
  destruct (deref_total (entities g) c0) as (e0 & -> & _); [apply Hwf; by left|].
  simpl. destruct (test e0); [by eexists|]. apply IH. intros; apply Hwf; by right.
Qed.

Lemma index_refs_stored g c :
  inv g -> In c (od_values (_entity_index g)) -> is_Some (entities g !! c).
Proof.
  intros Hinv Hin. apply od_values_elem in Hin as [k Hin].
  destruct (entity_objects g (inv_primary g Hinv) k c Hin) as (e & He & _).
  by eexists.
Qed.

Lemma by_name_candidates g n :
  inv g ->
  exists cs, traverse (entity_index_at g)
                      (elements (default ∅ (_entities_by_name g !! n))) = inr cs
             /\ forall c, In c cs -> exists k, (k, c) ∈ _entity_index g.
Proof.
  intros Hinv.
  destruct (traverse_total (entity_index_at g)
              (elements (default ∅ (_entities_by_name g !! n)))) as [cs Hcs].
  - intros k Hk. apply list_elem_of_In, elem_of_elements in Hk.
    destruct (_entities_by_name g !! n) as [ids|] eqn:E; simpl in Hk;
      [|by apply elem_of_empty in Hk].
    destruct (by_name_in_primary g (inv_indices g Hinv) n ids k E Hk) as [a Ha].
    exists a. unfold entity_index_at. by rewrite Ha.
  - exists cs. split; [done|]. intros c Hc.
    destruct (traverse_inr_elem _ _ _ _ Hcs Hc) as (k & _ & Hk).
    unfold entity_index_at in Hk.
    destruct (od_get (_entity_index g) k) as [a|] eqn:E; [|done].
    injection Hk as ->. exists k. by apply od_get_Some_elem.
Qed.

Lemma find_matching_entity_total g e :
  inv g -> exists r, _find_matching_entity g e = inr r.
Proof.
  intros Hinv. unfold _find_matching_entity, get_entities_by_name. simpl.
  destruct (by_name_candidates g (Py.lower (name e)) Hinv) as (cs & -> & Hcs). simpl.
  destruct (first_match_total g (fun candidate => EntityM.matches candidate e 0.7) cs)
    as [hit ->].
  { intros c Hc. destruct (Hcs c Hc) as [k Hk].
    destruct (entity_objects g (inv_primary g Hinv) k c Hk) as (o & Ho & _).
    by eexists. }
  simpl. destruct hit; [by eexists|].
  destruct (Py.truthy_list _); [|by eexists].
  apply first_match_total. intros c Hc. by apply index_refs_stored.
Qed.

Lemma find_matching_entity_stored g e c :
  inv g -> _find_matching_entity g e = inr (Some c) ->
  exists k obj, (k, c) ∈ _entity_index g /\ entities g !! c = Some obj.
Proof.
  intros Hinv. unfold _find_matching_entity, get_entities_by_name. simpl.
  destruct (by_name_candidates g (Py.lower (name e)) Hinv) as (cs & -> & Hcs). simpl.
  destruct (first_match g _ cs) as [|hit] eqn:E1; simpl; [done|].
  destruct hit as [c1|].
  - intros [= ->]. apply first_match_Some in E1 as (Hin & obj & Hobj & _).
    destruct (Hcs c Hin) as [k Hk]. eauto.
  - destruct (Py.truthy_list _); [|done].
    intros E2. apply first_match_Some in E2 as (Hin & obj & Hobj & _).
    apply od_values_elem in Hin as [k Hk]. eauto.
Qed.

Lemma add_entity_total now e m g :
  inv g -> exists a, snd (add_entity now e m g) = inr a.
Proof.
  intros Hinv. unfold add_entity.
  destruct (find_matching_entity_total g e Hinv) as [r Hr].
  destruct m.
  - rewrite Hr. destruct r as [c|].
    + destruct (find_matching_entity_stored g e c Hinv Hr) as (k & obj & Hk & Hobj).
      apply deref_inr in Hobj. rewrite Hobj. by eexists.
    + destruct (insert_entity g e). by eexists.
  - destruct (insert_entity g e). by eexists.
Qed.

Lemma add_entity_inv now e m g :
  inv g -> Entity_valid e -> inv (fst (add_entity now e m g)).
Proof.
  intros Hinv Hvalid. unfold add_entity.
  destruct (find_matching_entity_total g e Hinv) as [r Hr].
  assert (inv (fst (let '(g', a) := insert_entity g e in (g', inr a : result ref))))
    as Hinsert.
  { pose proof (insert_entity_inv g e Hinv Hvalid) as H.
    by destruct (insert_entity g e). }
  destruct m; [|exact Hinsert].
  rewrite Hr. destruct r as [c|]; [|exact Hinsert].
  destruct (find_matching_entity_stored g e c Hinv Hr) as (k & obj & Hk & Hobj).
  rewrite (proj2 (deref_inr _ _ _) Hobj). simpl.
  by eapply merge_entity_inv.
Qed.
End find_matching.

(** ** The multigraph *)

Section multigraph.

Import nx.

Lemma ensure_node_succ G n u nbrs :
  (u, nbrs) ∈ nx._succ (nx.ensure_node G n) -> (u, nbrs) ∈ nx._succ G \/ nbrs = [].
Proof.
  unfold nx.ensure_node. destruct (od_mem _ _); simpl; [by left|].
  intros Hin. apply od_elem_set in Hin as [[-> ->]|Hin]; [by right | by left].
Qed.

Lemma add_edge_refs G u v key r u' v' key' a :
  has_edge_ref (nx.add_edge G u v key r) u' v' key' a ->
  a = r \/ exists u0 v0, has_edge_ref G u0 v0 key' a.
Proof.
  intros (nbrs & kd & Hu & Hv & Hk). unfold nx.add_edge in Hu. simpl in Hu.
  set (G1 := nx.ensure_node (nx.ensure_node G u) v) in *.
  assert (forall u0 nbrs0 v0 kd0, (u0, nbrs0) ∈ nx._succ G1 -> (v0, kd0) ∈ nbrs0 ->
            (key', a) ∈ kd0 -> exists u0 v0, has_edge_ref G u0 v0 key' a) as Hold.
  { intros u0 nbrs0 v0 kd0 H1 H2 H3.
    apply ensure_node_succ in H1 as [H1| ->]; [|by apply elem_of_nil in H2].
    apply ensure_node_succ in H1 as [H1| ->]; [|by apply elem_of_nil in H2].
    exists u0, v0, nbrs0, kd0. done. }
  apply od_elem_set in Hu as [[-> ->]|Hu]; [|right; by eapply Hold].
  destruct (od_get (nx._succ G1) u) as [succ_u|] eqn:Esu; simpl in Hv.
  - apply od_get_Some_elem in Esu.
    apply od_elem_set in Hv as [[-> ->]|Hv]; [|right; by eapply Hold].
    destruct (od_get succ_u v) as [kd0|] eqn:Ekd.
    + apply od_get_Some_elem in Ekd.
      apply od_elem_set in Hk as [[-> ->]|Hk]; [by left|]. right. by eapply Hold.
    + apply list_elem_of_singleton in Hk as [= -> ->]. by left.
  - apply list_elem_of_singleton in Hv as [= -> ->].
    apply list_elem_of_singleton in Hk as [= -> ->]. by left.
Qed.
End multigraph.

Section relationship_invariants.
Import SemanticGraphM Inv.

Lemma edge_data_refs G s t a :
  In a (od_values (default [] (nx.get_edge_data G s t))) ->
  exists key, nx.has_edge_ref G s t key a.
Proof.
  unfold nx.get_edge_data. intros Hin.
  destruct (od_get (nx._succ G) s) as [nbrs|] eqn:Es; simpl in Hin; [|done].
  destruct (od_get nbrs t) as [kd|] eqn:Et; simpl in Hin; [|done].
  apply od_values_elem in Hin as [key Hkey].
  exists key, nbrs, kd. split; [by apply od_get_Some_elem|].
  split; [by apply od_get_Some_elem | done].
Qed.

Lemma get_relationships_pair g s t ty :
  inv g ->
  exists rs, get_relationships g (Some s) (Some t) (Some ty) = inr rs
             /\ forall a, In a rs -> exists key, nx.has_edge_ref (graph g) s t key a.
Proof.
  intros Hinv. unfold get_relationships.
  destruct (nx.has_edge (graph g) s t); simpl.
  - rewrite (filter_loop (relationships g)
               (fun r => bool_decide (relation_type r = ty))).
    + eexists. split; [reflexivity|]. intros a Ha. simpl in Ha.
      apply filter_In in Ha as [Ha _]. by apply edge_data_refs.
    + intros a Ha. destruct (edge_data_refs _ _ _ _ Ha) as [key Hkey].
      by apply (inv_edges g Hinv s t key a).
  - eexists. split; [reflexivity|]. done.
Qed.

Lemma find_existing_relationship_cases g rel :
  inv g ->
  exists r, _find_existing_relationship g rel = inr r
            /\ forall a, r = Some a -> is_Some (relationships g !! a).
Proof.
  intros Hinv. unfold _find_existing_relationship.
  destruct (get_relationships_pair g (source_id rel) (target_id rel)
              (relation_type rel) Hinv) as (rs & -> & Hrs).
  simpl. eexists. split; [reflexivity|]. intros a Ha.
  destruct rs as [|a0 rs]; simpl in Ha; [done|]. injection Ha as ->.
  destruct (Hrs a) as [key Hkey]; [by left|].
  by apply (inv_edges g Hinv (source_id rel) (target_id rel) key a).
Qed.

Lemma merge_relationship_inv now g a obj :
  inv g -> relationships g !! a = Some obj -> inv (merge_relationship now g a obj).
Proof.
  intros [Hidx Hprim Hedges] Hobj. unfold merge_relationship.
  split.
  - destruct Hidx. by split.
  - split; simpl.
    + apply (entity_keys_nodup g Hprim).
    + apply (entity_objects g Hprim).
    + apply (relationship_keys_nodup g Hprim).
    + intros k1 a1 Hin1.
      destruct (relationship_objects g Hprim k1 a1 Hin1)
        as (r & Hr & Hid & Hv & Hs & Ht).
      rewrite store_lookup. destruct (decide (a1 = a)) as [->|Hne].
      * rewrite decide_True by (by eapply lookup_lt_Some).
        assert (r = obj) as -> by congruence.
        eexists. split; [reflexivity|]. simpl.
        split; [done|]. split; [|done].
        apply relationship_merge_valid; [lra | done].
      * eauto 10.
  - intros u v key a0 Hedge. simpl in *. apply store_is_Some. by eapply Hedges.
Qed.

Lemma insert_relationship_inv g rel :
  inv g -> Relationship_valid rel ->
  is_Some (od_get (_entity_index g) (source_id rel)) ->
  is_Some (od_get (_entity_index g) (target_id rel)) ->
  inv (fst (insert_relationship g rel)).
Proof.
  intros [Hidx Hprim Hedges] Hvalid Hs Ht. unfold insert_relationship, alloc. simpl fst.
  split.
  - destruct Hidx as [H1 H2 H3 H4]. by split.
  - split; simpl.
    + apply (entity_keys_nodup g Hprim).
    + apply (entity_objects g Hprim).
    + apply od_keys_set_nodup, (relationship_keys_nodup g Hprim).
    + intros k1 a1 Hin1. apply od_elem_set in Hin1 as [[-> ->]|Hin1].
      * exists rel. by rewrite alloc_lookup_new.
      * destruct (relationship_objects g Hprim k1 a1 Hin1)
          as (r & Hr & Hid & Hv & Hs' & Ht').
        exists r. split; [by apply alloc_lookup_old | done].
  - intros u v key a0 Hedge. simpl in *.
    apply add_edge_refs in Hedge as [->|(u0 & v0 & Hedge)].
    + rewrite alloc_lookup_new. by eexists.
    + destruct (Hedges u0 v0 key a0 Hedge) as [r Hr].
      exists r. by apply alloc_lookup_old.
Qed.

Lemma add_relationship_inv now rel m g :
  inv g -> Relationship_valid rel -> inv (fst (add_relationship now rel m g)).
Proof.
  intros Hinv Hvalid. unfold add_relationship.
  destruct (od_mem (_entity_index g) (source_id rel)) eqn:Hs; simpl; [|done].
  destruct (od_mem (_entity_index g) (target_id rel)) eqn:Ht; simpl; [|done].
  apply od_mem_is_Some in Hs, Ht.
  assert (inv (fst (let '(g', a) := insert_relationship g rel in (g', inr a : result ref))))
    as Hinsert.
  { pose proof (insert_relationship_inv g rel Hinv Hvalid Hs Ht) as H.
    by destruct (insert_relationship g rel). }
  destruct m; [|exact Hinsert].
  destruct (find_existing_relationship_cases g rel Hinv) as (r & -> & Hr).
  destruct r as [a|]; [|exact Hinsert].
  destruct (Hr a eq_refl) as [obj Hobj].
  rewrite (proj2 (deref_inr _ _ _) Hobj). simpl.
  by apply merge_relationship_inv.
Qed.

(** With both endpoints stored, [add_relationship] returns. *)
Lemma add_relationship_total now rel m g :
  inv g ->
  is_Some (od_get (_entity_index g) (source_id rel)) ->
  is_Some (od_get (_entity_index g) (target_id rel)) ->
  exists a, snd (add_relationship now rel m g) = inr a.
Proof.
  intros Hinv Hs Ht. unfold add_relationship.
  apply od_mem_is_Some in Hs, Ht. rewrite Hs, Ht. simpl.
  destruct m.
  - destruct (find_existing_relationship_cases g rel Hinv) as (r & -> & Hr).
    destruct r as [a|].
    + destruct (Hr a eq_refl) as [obj Hobj].
      rewrite (proj2 (deref_inr _ _ _) Hobj). by eexists.
    + destruct (insert_relationship g rel). by eexists.
  - destruct (insert_relationship g rel). by eexists.
Qed.

Lemma init_inv : inv init.
Proof.
  split.
  - split; simpl; intros *; try rewrite lookup_empty; done.
  - split; simpl; try apply NoDup_nil_2; intros * H; by apply elem_of_nil in H.
  - intros u v key a (nbrs & kd & H & _). by apply elem_of_nil in H.
Qed.

Lemma reachable_inv g : reachable g -> inv g.
Proof.
  induction 1 as [|now e m g _ IH Hv|now r m g _ IH Hv].
  - apply init_inv.
  - by apply add_entity_inv.
  - by apply add_relationship_inv.
Qed.
End relationship_invariants.

(** ** query_spatial *)

Lemma for_each_inv {A S} (I : S -> Prop) (f : S -> A -> result S) (l : list A) :
  (forall s x s', In x l -> I s -> f s x = inr s' -> I s') ->
  forall s0 s, I s0 -> for_each f l s0 = inr s -> I s.
Proof.
  induction l as [|x l IH]; simpl; intros Hstep s0 s H0.
  - by intros [= <-].
  - destruct (f s0 x) as [|s1] eqn:E; simpl; [done|].
    apply IH; [intros; eapply Hstep; eauto | eapply Hstep; eauto].
Qed.

Section query_spatial.
Import SemanticGraphM Query GraphSpec.

Lemma is_spatial_ON r : relation_type r = ON -> RelationshipM.is_spatial r = true.
Proof. intros H. unfold RelationshipM.is_spatial. rewrite H. by vm_compute. Qed.

Lemma only_edge_relationships g u v a r :
  only_edge g u v a r -> get_relationships g (Some u) None None = inr [a].
Proof.
  intros (Hnode & [key Hrow] & _). unfold get_relationships, nx.out_edges.
  rewrite Hnode, Hrow. reflexivity.
Qed.

Lemma within_hops_mono g src n m results :
  (n <= m)%nat -> within_hops g src n results -> within_hops g src m results.
Proof.
  intros Hle H t a Hin. destruct (H t a Hin) as (r & k & ? & ? & ? & ?).
  exists r, k. repeat split; try done; lia.
Qed.

Lemma within_hops_spatial_result g src n m rel a results :
  relationships g !! a = Some rel ->
  (1 <= m <= n)%nat -> walk g m src (target_id rel) ->
  within_hops g src n results ->
  within_hops g src n (spatial_result g rel a results).
Proof.
  intros Hrel Hm Hwalk Hres. unfold spatial_result.
  destruct (RelationshipM.is_spatial rel); [|done].
  destruct (get_entity g (target_id rel)) as [target|] eqn:Et; [|done].
  intros t a0 Hin. apply in_app_or in Hin as [Hin|[[= <- <-]|[]]]; [by apply Hres|].
  exists rel, m. done.
Qed.

Lemma source_relationships g u rels :
  get_relationships g (Some u) None None = inr rels ->
  forall a r, In a rels -> relationships g !! a = Some r -> hop g u (target_id r).
Proof.
  unfold get_relationships. destruct (nx.out_edges (graph g) u) as [|es] eqn:E; [done|].
  simpl. intros [= <-] a r Hin Hr. exists es, a, r. done.
Qed.

Lemma direct_within_one_hop g src rtype rels results :
  get_relationships g (Some src) None None = inr rels ->
  for_each (direct_step g rtype) rels [] = inr results ->
  within_hops g src 1 results.
Proof.
  intros Hrels. apply (for_each_inv (within_hops g src 1)); [|by intros ? ? []].
  intros res a res' Hin Hres. unfold direct_step.
  destruct (deref (relationships g) a) as [|rel] eqn:Ed; simpl; [done|].
  apply deref_inr in Ed.
  assert (within_hops g src 1 (spatial_result g rel a res)) as Hnew.
  { apply (within_hops_spatial_result g src 1 1 rel a res Ed); [lia| |done].
    eapply walk_step; [apply walk_here|]. by eapply source_relationships. }
  destruct rtype as [ty|]; [|by intros [= <-]].
  case_bool_decide; by intros [= <-].
Qed.

Lemma hop_entity_inv g src rtype j eid st st' :
  walk g j src eid -> level_inv g src j st ->
  hop_entity g rtype st eid = inr st' -> level_inv g src j st'.
Proof.
  intros Hwalk Hst. unfold hop_entity.
  destruct (get_relationships g (Some eid) None None) as [|rels] eqn:Hrels; simpl; [done|].
  apply (for_each_inv (level_inv g src j)); [|done].
  intros [[results visited] next] a st1 Hin [Hres Hnext]. unfold hop_step.
  destruct (deref (relationships g) a) as [|rel] eqn:Ed; simpl; [done|].
  apply deref_inr in Ed.
  assert (walk g (S j) src (target_id rel)) as Hstep.
  { eapply walk_step; [exact Hwalk|]. by eapply source_relationships. }
  case_bool_decide; [|intros [= <-]; by split].
  intros [= <-]. split; simpl in *.
  - assert (within_hops g src (S j) (spatial_result g rel a results)) as Hnew.
    { apply (within_hops_spatial_result g src (S j) (S j) rel a results Ed);
        [lia|done|done]. }
    destruct rtype as [ty|]; [|done]. by case_bool_decide.
  - intros v Hv. apply elem_of_union in Hv as [Hv|Hv]; [by apply Hnext|].
    by apply elem_of_singleton in Hv as ->.
Qed.

Lemma hop_levels_within g src rtype n : forall j results visited current res,
  within_hops g src (Nat.max 1 j) results ->
  (forall v, v ∈ current -> walk g j src v) ->
  hop_levels n g rtype results visited current = inr res ->
  within_hops g src (Nat.max 1 (j + n)) res.
Proof.
  induction n as [|n IH]; intros j results visited current res Hres Hcur; simpl.
  - intros [= <-]. by rewrite Nat.add_0_r.
  - destruct (for_each _ _ _) as [|[[results' visited'] next]] eqn:Hloop; simpl; [done|].
    assert (level_inv g src j (results', visited', next)) as [Hres' Hnext].
    { revert Hloop. apply (for_each_inv (level_inv g src j)).
      - intros st eid st' Hin Hst. apply hop_entity_inv; [|done].
        apply Hcur. by apply elem_of_elements, list_elem_of_In.
      - split; simpl.
        + eapply within_hops_mono; [|exact Hres]. lia.
        + intros v Hv. by apply elem_of_empty in Hv. }
    simpl in *. intros Hrest.
    replace (j + S n)%nat with (S j + n)%nat by lia.
    eapply IH; [|exact Hnext|exact Hrest].
    eapply within_hops_mono; [|exact Hres']. lia.
Qed.

Lemma query_spatial_within g entity rtype h res :
  (1 < h)%Z -> query_spatial g entity rtype h = inr res ->
  within_hops g (id entity) (Z.to_nat (h - 1)) res.
Proof.
  intros Hh. unfold query_spatial.
  destruct (get_relationships g (Some (id entity)) None None) as [|rels] eqn:Hrels;
    simpl; [done|].
  destruct (for_each (direct_step g rtype) rels []) as [|results] eqn:Hdirect;
    simpl; [done|].
  rewrite bool_decide_eq_true_2 by done. intros Hlevels.
  pose proof (direct_within_one_hop g (id entity) rtype rels results Hrels Hdirect) as H1.
  pose proof (hop_levels_within g (id entity) rtype (Z.to_nat (h - 1)) 0
                results {[ id entity ]} {[ id entity ]} res) as H.
  simpl in H. replace (Nat.max 1 (Z.to_nat (h - 1))) with (Z.to_nat (h - 1)) in H by lia.
  apply H; [done| |done].
  intros v Hv. apply elem_of_singleton in Hv as ->. apply walk_here.
Qed.

Lemma query_spatial_two_hops_chain g A B b a1 r1 :
  only_edge g (id A) (id B) a1 r1 -> relation_type r1 = ON ->
  stored g B b -> id A ≠ id B ->
  query_spatial g A None 2 = inr [(b, a1); (b, a1)].
Proof.
  intros Hedge Hty [Hb _] Hne.
  pose proof (only_edge_relationships _ _ _ _ _ Hedge) as Hrels.
  destruct Hedge as (_ & _ & Hr1 & _ & Htgt).
  apply deref_inr in Hr1 as Hd1.
  unfold query_spatial. rewrite Hrels. simpl.
  unfold direct_step at 1. rewrite Hd1. simpl.
  unfold spatial_result at 1. rewrite (is_spatial_ON _ Hty), Htgt, Hb. simpl.
  rewrite elements_singleton. simpl.
  unfold hop_entity. rewrite Hrels. simpl.
  rewrite Hd1. simpl. rewrite Htgt.
  rewrite bool_decide_eq_true_2 by (by rewrite not_elem_of_singleton).
  unfold spatial_result. rewrite (is_spatial_ON _ Hty), Htgt, Hb. reflexivity.
Qed.
End query_spatial.

(** ** find_path *)

Section find_path.
Import SemanticGraphM Query GraphSpec.

Lemma levels_bound_row G u v kd row :
  od_get (nx._succ G) u = Some ((v, kd) :: row) ->
  exists n, nx.levels_bound G = S (S n).
Proof.
  unfold nx.levels_bound. intros Hrow.
  induction (nx._succ G) as [|[u0 row0] d IH]; simpl in *; [done|].
  destruct (decide (u = u0)) as [->|Hne].
  - injection Hrow as ->. simpl. by eexists.
  - destruct (IH Hrow) as [n Hn]. injection Hn as Hn.
    rewrite length_app, Hn. exists (length (od_keys row0) + n)%nat. lia.
Qed.

(** The filtered view at a node whose only edge is allowed, or not. *)
Lemma only_edge_view g types u v a r :
  only_edge g u v a r ->
  nx.view_successors (graph g) (edge_filter g types) u
  = inr (if bool_decide (relation_type r ∈ types) then [v] else []).
Proof.
  intros (_ & [key Hrow] & Hr & _). apply deref_inr in Hr.
  unfold nx.view_successors. rewrite Hrow. simpl.
  unfold edge_filter, nx.edge, nx.get_edge_data. rewrite Hrow. simpl.
  repeat (rewrite decide_True by done; simpl). rewrite Hr. simpl.
  by destruct (bool_decide _).
Qed.

Lemma find_path_chain g A B C a b c a1 r1 a2 r2 :
  stored g A a -> stored g B b -> stored g C c ->
  only_edge g (id A) (id B) a1 r1 -> relation_type r1 = ON ->
  only_edge g (id B) (id C) a2 r2 -> relation_type r2 = IN ->
  nx.has_node (graph g) (id C) = true ->
  id A ≠ id B -> id B ≠ id C -> id A ≠ id C ->
  find_path g A C None = inr (Some [Some a; Some b; Some c]).
Proof.
  intros [Ha _] [Hb _] [Hc _] HAB Hon HBC Hin HnodeC Hab Hbc Hac.
  pose proof (only_edge_view g default_relation_types _ _ _ _ HAB) as HviewA.
  pose proof (only_edge_view g default_relation_types _ _ _ _ HBC) as HviewB.
  rewrite Hon in HviewA. rewrite Hin in HviewB.
  rewrite bool_decide_eq_true_2 in HviewA by (by vm_compute).
  rewrite bool_decide_eq_true_2 in HviewB by (by vm_compute).
  destruct HAB as (HnodeA & [key Hrow] & _).
  destruct (levels_bound_row _ _ _ _ _ Hrow) as [n Hfuel].
  unfold find_path, nx.shortest_path. simpl default.
  rewrite HnodeA, HnodeC, Hfuel. simpl andb. cbv iota.
  cbn [nx.bfs find head for_each bind nx.expand_path].
  rewrite bool_decide_eq_false_2 by congruence.
  rewrite HviewA. cbn [bind fold_left fst snd].
  rewrite bool_decide_eq_false_2 by (rewrite elem_of_singleton; congruence).
  cbn [app fst snd find head for_each bind nx.expand_path nx.bfs].
  rewrite bool_decide_eq_false_2 by congruence.
  rewrite HviewB. cbn [bind fold_left fst snd].
  rewrite bool_decide_eq_false_2
    by (rewrite elem_of_union, !elem_of_singleton; intros [?|?]; congruence).
  cbn [app fst snd find head for_each bind nx.expand_path].
  destruct n; cbn [nx.bfs find head];
    rewrite bool_decide_eq_true_2 by done; simpl; by rewrite Ha, Hb, Hc.
Qed.

Lemma find_path_part_of g A B a1 r1 :
  only_edge g (id A) (id B) a1 r1 -> relation_type r1 = PART_OF ->
  nx.has_node (graph g) (id B) = true -> id A ≠ id B ->
  find_path g A B None = inr None.
Proof.
  intros HAB Hty HnodeB Hab.
  pose proof (only_edge_view g default_relation_types _ _ _ _ HAB) as HviewA.
  rewrite Hty in HviewA.
  rewrite bool_decide_eq_false_2 in HviewA by (by vm_compute).
  destruct HAB as (HnodeA & _).
  unfold find_path, nx.shortest_path, nx.levels_bound. simpl default.
  rewrite HnodeA, HnodeB. simpl andb. cbv iota.
  cbn [nx.bfs find head for_each bind nx.expand_path].
  rewrite bool_decide_eq_false_2 by congruence.
  rewrite HviewA. cbn [bind fold_left fst snd].
  by destruct (length _).
Qed.
End find_path.

(** ** Facts on the sample stores *)

Section scenarios.
Import SemanticGraphM GraphSpec.

Lemma sample_entity_valid i t n : Entity_valid (Sample.entity i t n 0.5).
Proof. unfold Entity_valid. simpl. lra. Qed.

Lemma sample_relationship_valid i t s d :
  Relationship_valid (Sample.relationship i t s d 0.5).
Proof. unfold Relationship_valid. simpl. split; [lra | done]. Qed.

Lemma one_hammer_reachable : Inv.reachable Scenario.one_hammer.
Proof.
  apply Inv.reachable_add_entity; [apply Inv.reachable_init|].
  apply sample_entity_valid.
Qed.

Lemma kitchen_chain_reachable : Inv.reachable Scenario.kitchen_chain.
Proof.
  unfold Scenario.kitchen_chain.
  repeat first
    [ apply Inv.reachable_add_relationship; [|apply sample_relationship_valid]
    | apply Inv.reachable_add_entity; [|apply sample_entity_valid]
    | apply Inv.reachable_init ].
Qed.

Lemma kitchen_chain_scenario :
  on_in_chain Scenario.kitchen_chain Scenario.cup Scenario.table Scenario.kitchen
              0%nat 1%nat 2%nat 0%nat 1%nat.
Proof.
  split.
  - split; reflexivity.
  - split; reflexivity.
  - split; reflexivity.
  - reflexivity.
  - exists Scenario.cup_on_table. split; [|reflexivity].
    split; [reflexivity|]. split; [by exists 21%N|]. by repeat split.
  - exists Scenario.table_in_kitchen. split; [|reflexivity].
    split; [reflexivity|]. split; [by exists 22%N|]. by repeat split.
  - by repeat split.
Qed.

Lemma wheel_and_car_scenario :
  part_of_pair Scenario.wheel_and_car Scenario.wheel Scenario.car 0%nat 1%nat.
Proof.
  split.
  - split; reflexivity.
  - split; reflexivity.
  - reflexivity.
  - exists 0%nat, Scenario.wheel_part_of_car. split; [|reflexivity].
    split; [reflexivity|]. split; [by exists 41%N|]. by repeat split.
  - done.
Qed.
End scenarios.

(** ** The claims on the graph *)

Section graph_claims.
Import SemanticGraphM Query GraphSpec.

Lemma stored_distinct g B C b c : stored g B b -> stored g C c -> id B ≠ id C -> b ≠ c.
Proof. intros [_ HB] [_ HC] Hne ->. congruence. Qed.

Lemma add_entity_returns_stored now e m g g' a :
  Inv.inv g -> add_entity now e m g = (g', inr a) ->
  exists k, od_get (_entity_index g') k = Some a.
Proof.
  intros Hinv. unfold add_entity.
  assert ((let '(g0, a0) := insert_entity g e in (g0, inr a0 : result ref)) = (g', inr a)
          -> exists k, od_get (_entity_index g') k = Some a) as Hinsert.
  { unfold insert_entity, alloc. intros [= <- <-]. simpl.
    exists (id e). rewrite od_get_set. by rewrite decide_True. }
  destruct m; [|exact Hinsert].
  destruct (_find_matching_entity g e) as [|[c|]] eqn:Hfind; [done| |exact Hinsert].
  destruct (find_matching_entity_stored g e c Hinv Hfind) as (k & obj & Hk & Hobj).
  rewrite (proj2 (deref_inr _ _ _) Hobj). intros [= <- <-].
  exists k. unfold merge_entity. simpl.
  apply od_elem_get; [|done]. apply (Inv.entity_keys_nodup g (Inv.inv_primary g Hinv)).
Qed.
End graph_claims.

(** ** Serialisation of one record *)

Section codec.
Import Codec.





End codec.

(** ** stats and export *)

Section export.
Import SemanticGraphM Codec StoreView.

(** [stats()] reads the attribute [value] of the first key of the type
    index, a plain string, and raises. *)
Lemma stats_raises g :
  _entities_by_type g ≠ ∅ -> stats g = inl AttributeError.
Proof.
  intros Hne. unfold stats.
  destruct (map_to_list (_entities_by_type g)) as [|[t ids] l] eqn:E.
  - apply map_to_list_empty_iff in E. contradiction.
  - reflexivity.
Qed.

Lemma stats_empty_type_index g :
  _entities_by_type g = ∅ -> _relationship_index g = [] ->
  exists st, stats g = inr st /\ total_entities st = length (_entity_index g)
             /\ total_relationships st = 0%nat.
Proof.
  intros Ht Hr. unfold stats. rewrite Ht, Hr, map_to_list_empty. simpl.
  eexists. split; [reflexivity|]. done.
Qed.

Lemma stored_entity_in_type_index g k a :
  Inv.inv g -> (k, a) ∈ _entity_index g -> _entities_by_type g ≠ ∅.
Proof.
  intros Hinv Hin Hempty.
  destruct (Inv.entity_objects g (Inv.inv_primary g Hinv) k a Hin) as (e & He & _).
  destruct (Inv.primary_in_by_type g (Inv.inv_indices g Hinv) k a e) as (ids & Hids & _);
    [|done|].
  - apply od_elem_get; [|done]. apply (Inv.entity_keys_nodup g (Inv.inv_primary g Hinv)).
  - rewrite Hempty, lookup_empty in Hids. done.
Qed.

Lemma omap_deref_total {K A} (h : list A) (d : list (K * ref)) :
  (forall k a, (k, a) ∈ d -> is_Some (h !! a)) ->
  traverse (deref h) (od_values d) = inr (omap (fun '(_, a) => h !! a) d).
Proof.
  induction d as [|[k a] d IH]; simpl; intros Hwf; [done|].
  destruct (Hwf k a) as [x Hx]; [apply list_elem_of_here|].
  unfold deref at 1. rewrite Hx. simpl.
  rewrite IH by (intros; eapply Hwf; by apply list_elem_of_further). done.
Qed.

Lemma traverse_map {A B C} (f : A -> result B) (h : B -> C) (l : list A) ys :
  traverse f l = inr ys ->
  traverse (fun a => do x <- f a; inr (h x)) l = inr (map h ys).
Proof.
  revert ys. induction l as [|a l IH]; simpl; intros ys.
  - by intros [= <-].
  - destruct (f a) as [|y]; simpl; [done|].
    destruct (traverse f l) as [|ys']; simpl; [done|].
    intros [= <-]. by rewrite (IH ys').
Qed.

Lemma export_entities_list g :
  Inv.inv g -> export_entities g = inr (map Entity_to_dict (entity_list g)).
Proof.
  intros Hinv. unfold export_entities, entity_list. apply traverse_map.
  apply omap_deref_total. intros k a Hin.
  destruct (Inv.entity_objects g (Inv.inv_primary g Hinv) k a Hin) as (e & He & _).
  by eexists.
Qed.

Lemma export_relationships_list g :
  Inv.inv g ->
  export_relationships g = inr (map Relationship_to_dict (relationship_list g)).
Proof.
  intros Hinv. unfold export_relationships, relationship_list. apply traverse_map.
  apply omap_deref_total. intros k a Hin.
  destruct (Inv.relationship_objects g (Inv.inv_primary g Hinv) k a Hin) as (r & Hr & _).
  by eexists.
Qed.

(** In a store that holds an entity, [export_to_dict] raises
    [AttributeError], from its call of [stats()]. *)
Lemma export_raises g now :
  Inv.inv g -> _entity_index g ≠ [] -> export_to_dict now g = inl AttributeError.
Proof.
  intros Hinv Hne. unfold export_to_dict.
  rewrite (export_entities_list g Hinv), (export_relationships_list g Hinv). simpl.
  rewrite stats_raises; [done|].
  destruct (_entity_index g) as [|[k a] d] eqn:E; [done|].
  apply (stored_entity_in_type_index g k a Hinv). rewrite E. apply list_elem_of_here.
Qed.
End export.

(** ** Import of the exported records *)

Section import.
Import SemanticGraphM Codec StoreView.















End import.

(** ** The export-import round trip *)

Section round_trip.
Import SemanticGraphM Codec StoreView.

End round_trip.

(** C4, the code on the store of the serialisation test (Tool on Table,
    added with the default merging).  The store holds two entities, so the
    type index has keys; [stats()] raises [AttributeError] on the first of
    them, and [export_to_dict], which calls [stats()], raises it too:
    there is no document to import. *)
Theorem export_to_dict_raises_on_test_store :
  length (_entity_index Scenario.tool_on_table) = 2%nat
  /\ length (_relationship_index Scenario.tool_on_table) = 1%nat
  /\ Codec.stats Scenario.tool_on_table = inl AttributeError
  /\ Codec.export_to_dict 0%Z Scenario.tool_on_table = inl AttributeError.
Proof. repeat split; by vm_compute. Qed.

(** ** Breadth-first search *)

Section bfs_facts.
Import BfsSpec.
Variable succ : UUID -> result (list UUID).
Variable s : UUID.
Hypothesis succ_errors :
  forall u, succ u ≠ inl NetworkXNoPath /\ succ u ≠ inl OutOfFuel.

Local Abbreviation step := (step succ).
Local Abbreviation path := (path succ s).
Local Abbreviation reach_in := (reach_in succ s).
Local Abbreviation level := (level succ s).

Lemma path_nonempty t l : path t l -> exists n, length l = S n.
Proof.
  destruct 1 as [|t v l _ _]; [by exists 0%nat|].
  exists (length l). rewrite length_app. simpl. lia.
Qed.

Lemma path_last t l : path t l -> last l = Some t.
Proof. destruct 1; [done|]. by rewrite last_snoc. Qed.

Lemma path_head t l : path t l -> head l = Some s.
Proof.
  induction 1 as [|t v l Hp IH _]; [done|].
  destruct l; [by apply path_nonempty in Hp as [? ?]|]. done.
Qed.

Lemma reach_in_0 v : reach_in 0 v <-> v = s.
Proof.
  split.
  - intros (l & Hp & Hlen). destruct Hp as [|t v l Hp Hs]; [done|].
    apply path_nonempty in Hp as [n Hn]. rewrite length_app, Hn in Hlen. simpl in Hlen. lia.
  - intros ->. exists [s]. split; [constructor | done].
Qed.

Lemma reach_in_S n v : reach_in (S n) v <-> exists t, reach_in n t /\ step t v.
Proof.
  split.
  - intros (l & Hp & Hlen). destruct Hp as [|t v l Hp Hs]; [done|].
    exists t. split; [|done]. exists l. split; [done|].
    rewrite length_app in Hlen. simpl in Hlen. lia.
  - intros (t & (l & Hp & Hlen) & Hs). exists (l ++ [v]). split; [by econstructor|].
    rewrite length_app. simpl. lia.
Qed.

Lemma level_0 : level 0 {[ s ]} [[s]].
Proof.
  split.
  - intros p [<-|[]]. exists s. split; [done|]. split; [constructor | done].
  - intros v. rewrite elem_of_singleton. split.
    + intros ->. exists 0%nat. split; [done|]. by apply reach_in_0.
    + intros (n & Hn & Hr). assert (n = 0%nat) as -> by lia. by apply reach_in_0.
  - intros v Hr. apply reach_in_0 in Hr as ->. left. exists [s]. split; [by left | done].
Qed.

(** One path of the frontier: its successors, in order, join [seen] and
    the next frontier unless they were seen before. *)
Lemma fold_expand (p : list UUID) (vs : list UUID) :
  forall seen next seen' next',
    fold_left (fun '(seen, next) v =>
                 if bool_decide (v ∈ seen) then (seen, next)
                 else (seen ∪ {[ v ]}, next ++ [v :: p]))
              vs (seen, next) = (seen', next') ->
    (forall x, x ∈ seen' <-> x ∈ seen \/ In x vs)
    /\ (forall q, In q next' <->
                  In q next \/ exists v, q = v :: p /\ In v vs /\ v ∉ (seen : gset UUID)).
Proof.
  induction vs as [|v0 vs IH]; intros seen next seen' next'; simpl.
  - intros [= <- <-]. split; intros; [tauto|]. split; [tauto|].
    intros [?|(v & _ & [] & _)]. done.
  - case_bool_decide as Hv0; intros Hfold; destruct (IH _ _ _ _ Hfold) as [IH1 IH2];
      split; intros x.
    + rewrite IH1. split; [tauto|]. intros [?|[<-|?]]; tauto.
    + rewrite IH2. split.
      * intros [?|(v & ? & ? & ?)]; [tauto|]. right. exists v. tauto.
      * intros [?|(v & ? & [<-|?] & ?)]; [tauto|done|]. right. exists v. tauto.
    + rewrite IH1, elem_of_union, elem_of_singleton. split.
      * intros [[?| ->]|?]; tauto.
      * intros [?|[<-|?]]; tauto.
    + rewrite IH2, in_app_iff. simpl. split.
      * intros [[?|[<-|[]]]|(v & -> & ? & Hv)]; [tauto| |].
        -- right. exists v0. tauto.
        -- right. exists v. rewrite not_elem_of_union in Hv. tauto.
      * intros [?|(v & -> & [<-|?] & Hv)]; [tauto|tauto|].
        destruct (decide (v = v0)) as [->|Hne]; [tauto|].
        right. exists v. rewrite not_elem_of_union, not_elem_of_singleton. tauto.
Qed.

(** One level: the effect of expanding every path of the frontier. *)
Lemma for_expand (fr : list (list UUID)) :
  forall seen next seen' next',
    for_each (nx.expand_path succ) fr (seen, next) = inr (seen', next') ->
    (forall x, x ∈ seen' <->
               x ∈ seen \/ exists p u, In p fr /\ head p = Some u /\ step u x)
    /\ (forall q, In q next' ->
                  In q next
                  \/ exists p u v, In p fr /\ head p = Some u /\ step u v
                                   /\ q = v :: p /\ v ∉ seen)
    /\ (forall q, In q next -> In q next')
    /\ (forall p u v, In p fr -> head p = Some u -> step u v -> v ∉ seen ->
                      exists q, In q next' /\ head q = Some v).
Proof.
  induction fr as [|p0 fr IH]; intros seen next seen' next'; simpl.
  - intros [= <- <-]. split; [|split; [|split]].
    + intros x. split; [tauto|]. intros [?|(p & u & [] & _)]. done.
    + tauto.
    + tauto.
    + intros p u v [].
  - destruct p0 as [|u tl]; simpl.
    { intros Hrest. destruct (IH _ _ _ _ Hrest) as (H1 & H2 & H3 & H4).
      split; [|split; [|split]].
      - intros x. rewrite H1. split.
        + intros [?|(p & u & ? & ? & ?)]; [tauto|]. right. exists p, u. tauto.
        + intros [?|(p & u & [<-|?] & ? & ?)]; [tauto|done|]. right. exists p, u. tauto.
      - intros q Hq. destruct (H2 q Hq) as [?|(p & u & v & ? & ?)]; [tauto|].
        right. exists p, u, v. tauto.
      - done.
      - intros p u v [<-|Hp]; [done|]. by apply H4. }
    destruct (succ u) as [|vs] eqn:Hsucc; simpl; [done|].
    destruct (fold_left _ vs (seen, next)) as [seen1 next1] eqn:Hfold.
    destruct (fold_expand _ _ _ _ _ _ Hfold) as [F1 F2].
    intros Hrest. destruct (IH _ _ _ _ Hrest) as (H1 & H2 & H3 & H4).
    assert (forall x, In x vs <-> step u x) as Hstep.
    { intros x. split; [intros; by exists vs|].
      intros (vs' & Hvs' & Hin). congruence. }
    split; [|split; [|split]].
    + intros x. rewrite H1, F1. split.
      * intros [[?|Hx]|(p & u' & ? & ? & ?)]; [tauto| |].
        -- right. exists (u :: tl), u. rewrite <- Hstep. tauto.
        -- right. exists p, u'. tauto.
      * intros [?|(p & u' & [<-|?] & Hh & Hs)]; [tauto| |].
        -- injection Hh as <-. rewrite <- Hstep in Hs. tauto.
        -- right. exists p, u'. tauto.
    + intros q Hq. destruct (H2 q Hq) as [Hq1|(p & u' & v & ? & ? & ? & ? & Hv)].
      * apply F2 in Hq1 as [?|(v & -> & Hin & Hv)]; [tauto|].
        right. exists (u :: tl), u, v. rewrite <- Hstep. tauto.
      * right. exists p, u', v. rewrite F1 in Hv. tauto.
    + intros q Hq. apply H3, F2. tauto.
    + intros p u' v [<-|Hp] Hh Hs Hv.
      * injection Hh as <-. exists (v :: u :: tl). split; [|done].
        apply H3, F2. right. exists v. rewrite Hstep. tauto.
      * destruct (decide (v ∈ seen1)) as [Hin|Hnotin].
        -- apply F1 in Hin as [?|Hin]; [done|].
           exists (v :: u :: tl). split; [|done]. apply H3, F2. right. exists v. tauto.
        -- by eapply H4.
Qed.

Lemma level_step k seen fr seen' next :
  level k seen fr ->
  for_each (nx.expand_path succ) fr (seen, []) = inr (seen', next) ->
  level (S k) seen' next.
Proof.
  intros [Lp Ls Lsph] Hrun. destruct (for_expand _ _ _ _ _ Hrun) as (H1 & H2 & _ & H4).
  assert (forall p u, In p fr -> head p = Some u -> reach_in k u) as Hfr.
  { intros p u Hp Hh. destruct (Lp p Hp) as (v & Hv & Hpath & Hlen).
    assert (v = u) as -> by congruence. exists (rev p). by rewrite length_rev. }
  split.
  - intros q Hq. destruct (H2 q Hq) as [[]|(p & u & v & Hp & Hh & Hs & -> & _)].
    destruct (Lp p Hp) as (u' & Hu' & Hpath & Hlen).
    assert (u' = u) as -> by congruence.
    exists v. split; [done|]. split; [|by simpl; rewrite Hlen].
    simpl. by econstructor.
  - intros x. rewrite H1, Ls. split.
    + intros [(n & Hn & Hr)|(p & u & Hp & Hh & Hs)].
      * exists n. split; [lia | done].
      * exists (S k). split; [done|]. apply reach_in_S. exists u. eauto.
    + intros (n & Hn & Hr). destruct (decide (n <= k)%nat) as [Hle|Hgt].
      * left. eauto.
      * assert (n = S k) as -> by lia. apply reach_in_S in Hr as (t & Ht & Hs).
        destruct (Lsph t Ht) as [(p & Hp & Hh)|(m & Hm & Hr)].
        -- right. exists p, t. done.
        -- left. exists (S m). split; [lia|]. apply reach_in_S. eauto.
  - intros x Hr. apply reach_in_S in Hr as (t & Ht & Hs).
    destruct (Lsph t Ht) as [(p & Hp & Hh)|(m & Hm & Hr)].
    + destruct (decide (x ∈ seen)) as [Hin|Hnotin].
      * apply Ls in Hin as (n & Hn & Hr). right. exists n. split; [lia | done].
      * left. by eapply H4.
    + right. exists (S m). split; [lia|]. apply reach_in_S. eauto.
Qed.

Lemma for_expand_error fr : forall st e,
  for_each (nx.expand_path succ) fr st = inl e -> exists u, succ u = inl e.
Proof.
  induction fr as [|p fr IH]; intros st e; simpl; [done|].
  destruct (nx.expand_path succ st p) as [e'|st'] eqn:Hp; simpl.
  - intros [= ->]. unfold nx.expand_path in Hp. destruct p as [|u tl]; [done|].
    destruct (succ u) as [e'|vs] eqn:Hu; simpl in Hp; [|done].
    injection Hp as ->. by exists u.
  - apply IH.
Qed.

Lemma closed_ball k seen :
  level k seen [] -> forall n v, reach_in n v -> exists m, (m < k)%nat /\ reach_in m v.
Proof.
  intros Hlevel.
  assert (forall v, reach_in k v -> exists m, (m < k)%nat /\ reach_in m v) as Hk.
  { intros v Hv. destruct (lv_sphere _ _ _ _ _ Hlevel v Hv) as [(p & [] & _)|H]. done. }
  induction n as [|n IH]; intros v Hv.
  - destruct (decide (0 < k)%nat); [eauto|]. apply Hk. by replace k with 0%nat by lia.
  - apply reach_in_S in Hv as (t & Ht & Hs).
    destruct (IH t Ht) as (m & Hm & Hr).
    assert (reach_in (S m) v) as Hv by (apply reach_in_S; eauto).
    destruct (decide (S m < k)%nat); [eauto|]. apply Hk. by replace k with (S m) by lia.
Qed.

Lemma target_not_in_frontier target k seen fr :
  level k seen fr -> (forall n, (n < k)%nat -> ~ reach_in n target) ->
  find (fun p => bool_decide (head p = Some target)) fr = None ->
  forall n, (n < S k)%nat -> ~ reach_in n target.
Proof.
  intros Hlevel Hfar Hfind n Hn Hr.
  destruct (decide (n < k)%nat) as [Hlt|]; [by apply (Hfar n)|].
  assert (n = k) as -> by lia.
  destruct (lv_sphere _ _ _ _ _ Hlevel target Hr) as [(p & Hp & Hh)|(m & Hm & Hr')].
  - pose proof (find_none _ _ Hfind p Hp) as Hf. simpl in Hf.
    apply bool_decide_eq_false in Hf. done.
  - by apply (Hfar m).
Qed.

(** The search returns a shortest path to the target, or reports that
    there is none; the only other outcomes are an exception of [succ]
    and the exhaustion of the fuel. *)
Lemma bfs_correct target fuel : forall k seen fr,
  level k seen fr -> (forall n, (n < k)%nat -> ~ reach_in n target) ->
  match nx.bfs fuel succ target seen fr with
  | inr p => path target p /\ forall l, path target l -> (length p <= length l)%nat
  | inl NetworkXNoPath => forall l, ~ path target l
  | inl _ => True
  end.
Proof.
  assert (forall k seen fr p,
            level k seen fr -> (forall n, (n < k)%nat -> ~ reach_in n target) ->
            find (fun p => bool_decide (head p = Some target)) fr = Some p ->
            path target (rev p)
            /\ forall l, path target l -> (length (rev p) <= length l)%nat) as Hfound.
  { intros k seen fr p Hlevel Hfar Hfind.
    apply find_some in Hfind as [Hp Hh]. apply bool_decide_eq_true in Hh.
    destruct (lv_paths _ _ _ _ _ Hlevel p Hp) as (v & Hv & Hpath & Hlen).
    assert (v = target) as -> by congruence.
    split; [done|]. intros l Hl. rewrite length_rev, Hlen.
    destruct (path_nonempty _ _ Hl) as [n Hn]. rewrite Hn.
    destruct (decide (n < k)%nat) as [Hlt|]; [|lia].
    exfalso. apply (Hfar n Hlt). by exists l. }
  assert (forall k seen,
            level k seen [] -> (forall n, (n < k)%nat -> ~ reach_in n target) ->
            forall l, ~ path target l) as Hnone.
  { intros k seen Hlevel Hfar l Hl.
    destruct (path_nonempty _ _ Hl) as [n Hn].
    destruct (closed_ball k seen Hlevel n target) as (m & Hm & Hr); [by exists l|].
    by apply (Hfar m). }
  induction fuel as [|fuel IH]; intros k seen fr Hlevel Hfar; cbn [nx.bfs].
  - destruct (find _ fr) as [p|] eqn:Hfind; [by eapply Hfound|].
    destruct fr as [|p0 fr]; [by eapply Hnone | done].
  - destruct (find _ fr) as [p|] eqn:Hfind; [by eapply Hfound|].
    destruct fr as [|p0 fr]; [by eapply Hnone|].
    destruct (for_each _ _ _) as [e|[seen' next]] eqn:Hrun; simpl.
    + apply for_expand_error in Hrun as [u Hu].
      destruct e; try done. by destruct (succ_errors u).
    + apply (IH (S k)); [by eapply level_step|].
      by eapply target_not_in_frontier.
Qed.

Lemma size_list_to_set_le (T : list UUID) : (size (list_to_set T : gset UUID) <= length T)%nat.
Proof.
  induction T as [|x T IH].
  - change (list_to_set [] : gset UUID) with (∅ : gset UUID). by rewrite size_empty.
  - change (list_to_set (x :: T) : gset UUID) with ({[ x ]} ∪ list_to_set T : gset UUID).
    rewrite size_union_alt, size_singleton. simpl.
    assert (list_to_set T ∖ {[ x ]} ⊆ (list_to_set T : gset UUID)) as Hsub.
    { intros y Hy. by apply elem_of_difference in Hy as [? _]. }
    apply subseteq_size in Hsub. lia.
Qed.

(** With one unit of fuel per node that is the head of an edge, and one
    more, the search never runs out of fuel. *)
Lemma bfs_fuel target (T : list UUID) :
  (forall u vs v, succ u = inr vs -> In v vs -> In v T) ->
  forall fuel k seen fr,
    (S (length T) <= k + fuel)%nat ->
    s ∈ seen ->
    (forall x, x ∈ seen -> x = s \/ In x T) ->
    (fr ≠ [] -> (k <= size (seen ∖ {[ s ]}))%nat) ->
    nx.bfs fuel succ target seen fr ≠ inl OutOfFuel.
Proof.
  intros HT. induction fuel as [|fuel IH]; intros k seen fr Hfuel Hs Hseen Hsize;
    cbn [nx.bfs]; (destruct (find _ fr) as [p|]; [done|]);
    (destruct fr as [|p0 fr]; [done|]).
  - exfalso.
    assert (seen ∖ {[ s ]} ⊆ (list_to_set T : gset UUID)) as Hsub.
    { intros x Hx. apply elem_of_difference in Hx as [Hx Hxs].
      rewrite not_elem_of_singleton in Hxs.
      destruct (Hseen x Hx) as [?|Hin]; [done|].
      by apply elem_of_list_to_set, list_elem_of_In. }
    apply subseteq_size in Hsub. pose proof (size_list_to_set_le T).
    specialize (Hsize ltac:(done)). lia.
  - destruct (for_each _ _ _) as [e|[seen' next]] eqn:Hrun; simpl.
    + apply for_expand_error in Hrun as [u Hu]. intros [= ->].
      by destruct (succ_errors u).
    + destruct (for_expand _ _ _ _ _ Hrun) as (H1 & H2 & _ & _).
      apply (IH (S k)); [lia| | |].
      * apply H1. by left.
      * intros x Hx. apply H1 in Hx as [Hx|(p & u & _ & _ & (vs & Hvs & Hin))].
        -- by apply Hseen.
        -- right. by eapply HT.
      * intros Hnext. destruct next as [|q next]; [done|].
        destruct (H2 q) as [[]|(p & u & v & Hp & Hh & Hstep & -> & Hv)]; [by left|].
        assert ((seen ∖ {[ s ]}) ∪ {[ v ]} ⊆ seen' ∖ {[ s ]}) as Hsub.
        { intros x Hx. apply elem_of_union in Hx as [Hx|Hx].
          - apply elem_of_difference in Hx as [Hx Hxs].
            apply elem_of_difference. split; [|done]. apply H1. by left.
          - apply elem_of_singleton in Hx as ->.
            apply elem_of_difference. split.
            + apply H1. right. exists p, u. done.
            + rewrite not_elem_of_singleton. intros ->. done. }
        apply subseteq_size in Hsub.
        rewrite size_union, size_singleton in Hsub.
        2:{ apply disjoint_singleton_r. intros Hx.
            by apply elem_of_difference in Hx as [? _]. }
        specialize (Hsize ltac:(done)). lia.
Qed.
End bfs_facts.


(** ** shortest_path and find_path in general *)

Section shortest_path.
Import SemanticGraphM Query GraphSpec.

Lemma any_key_ok_error f keys e :
  nx.any_key_ok f keys = inl e -> exists k, f k = inl e.
Proof.
  induction keys as [|k keys IH]; simpl; [done|].
  destruct (f k) as [e'|b] eqn:Hk; simpl.
  - intros [= ->]. by exists k.
  - destruct b; [done | apply IH].
Qed.

Lemma view_row_error f nbrs e :
  nx.view_row f nbrs = inl e -> exists v k, f v k = inl e.
Proof.
  induction nbrs as [|[v kd] nbrs IH]; simpl; [done|].
  destruct (nx.any_key_ok (f v) (od_keys kd)) as [e'|ok] eqn:Hok; simpl.
  - intros [= ->]. apply any_key_ok_error in Hok as [k Hk]. by exists v, k.
  - destruct (nx.view_row f nbrs) as [e'|vs]; simpl; [|done].
    intros [= ->]. by apply IH.
Qed.

Lemma view_row_keys f nbrs vs v :
  nx.view_row f nbrs = inr vs -> In v vs -> In v (od_keys nbrs).
Proof.
  revert vs. induction nbrs as [|[v0 kd] nbrs IH]; simpl; intros vs.
  - by intros [= <-].
  - destruct (nx.any_key_ok (f v0) (od_keys kd)) as [|ok]; simpl; [done|].
    destruct (nx.view_row f nbrs) as [|vs']; simpl; [done|].
    intros [= <-]. destruct ok; simpl; [intros [?|?]|]; eauto.
Qed.

Lemma edge_filter_error g types u v key e :
  edge_filter g types u v key = inl e -> e = KeyError \/ e = DanglingRef.
Proof.
  unfold edge_filter, nx.edge.
  destruct (nx.get_edge_data (graph g) u v) as [kd|]; simpl; [|intros [= <-]; by left].
  destruct (od_get kd key) as [a|]; simpl; [|intros [= <-]; by left].
  unfold deref. destruct (relationships g !! a); simpl; [done|].
  intros [= <-]. by right.
Qed.

Lemma view_successors_errors g types u :
  nx.view_successors (graph g) (edge_filter g types) u ≠ inl NetworkXNoPath
  /\ nx.view_successors (graph g) (edge_filter g types) u ≠ inl OutOfFuel.
Proof.
  assert (forall e, nx.view_successors (graph g) (edge_filter g types) u = inl e ->
                    e = KeyError \/ e = DanglingRef) as H.
  { intros e. unfold nx.view_successors.
    destruct (od_get (nx._succ (graph g)) u) as [nbrs|]; [|intros [= <-]; by left].
    intros He. apply view_row_error in He as (v & k & He).
    by eapply edge_filter_error. }
  split; intros He; destruct (H _ He); done.
Qed.

Lemma view_successors_heads G f u vs v :
  nx.view_successors G f u = inr vs -> In v vs ->
  In v (flat_map (fun '(_, nbrs) => od_keys nbrs) (nx._succ G)).
Proof.
  unfold nx.view_successors.
  destruct (od_get (nx._succ G) u) as [nbrs|] eqn:Hrow; [|done].
  intros Hvs Hin. apply in_flat_map. exists (u, nbrs). split.
  - apply list_elem_of_In. by apply od_get_Some_elem.
  - by eapply view_row_keys.
Qed.

Lemma find_path_general g source target types :
  find_path_outcome g source target (default default_relation_types types)
                    (find_path g source target types).
Proof.
  unfold find_path, nx.shortest_path.
  set (tys := default default_relation_types types).
  set (succ := nx.view_successors (graph g) (edge_filter g tys)).
  destruct (nx.has_node (graph g) (id source) && nx.has_node (graph g) (id target))%bool;
    [|done].
  pose proof (bfs_correct succ (id source) (view_successors_errors g tys) (id target)
                (nx.levels_bound (graph g)) 0 {[ id source ]} [[id source]]
                (level_0 succ (id source))) as Hcorrect.
  pose proof (bfs_fuel succ (id source) (view_successors_errors g tys) (id target)
                (flat_map (fun '(_, nbrs) => od_keys nbrs) (nx._succ (graph g)))
                (view_successors_heads (graph g) (edge_filter g tys))
                (nx.levels_bound (graph g)) 0 {[ id source ]} [[id source]]) as Hfuel.
  destruct (nx.bfs _ _ _ _ _) as [e|p].
  - destruct e; try done.
    + simpl. apply Hcorrect. lia.
    + exfalso. apply Hfuel; [apply le_n | by apply elem_of_singleton | | lia | done].
      intros x Hx. left. by apply elem_of_singleton in Hx.
  - destruct Hcorrect as [Hpath Hshort]; [lia|].
    exists p. split; [done|].
    split; [by eapply path_head|]. split; [by eapply path_last|]. done.
Qed.
End shortest_path.

(** ** Well-formedness of the multigraph *)

Section graph_wf.
Import SemanticGraphM Inv GraphInv.

Lemma od_mem_set {V} (d : odict UUID V) k v x :
  od_mem (od_set d k v) x = (bool_decide (x = k) || od_mem d x)%bool.
Proof.
  unfold od_mem. rewrite od_get_set. destruct (decide (x = k)) as [->|Hne].
  - by rewrite bool_decide_eq_true_2.
  - by rewrite bool_decide_eq_false_2.
Qed.

Lemma od_set_is_Some {V} (d : odict UUID V) k v x :
  is_Some (od_get d x) -> is_Some (od_get (od_set d k v) x).
Proof. rewrite od_get_set. destruct (decide (x = k)); [by eexists | done]. Qed.

Lemma ensure_node_nodes G n :
  (forall x, od_mem (nx._node G) x = od_mem (nx._succ G) x) ->
  forall x, od_mem (nx._node (nx.ensure_node G n)) x
            = od_mem (nx._succ (nx.ensure_node G n)) x.
Proof.
  intros H x. unfold nx.ensure_node. destruct (od_mem (nx._succ G) n) eqn:E; simpl; [done|].
  by rewrite !od_mem_set, H.
Qed.

Lemma ensure_node_row G n x :
  is_Some (od_get (nx._succ G) x) -> is_Some (od_get (nx._succ (nx.ensure_node G n)) x).
Proof.
  unfold nx.ensure_node. destruct (od_mem (nx._succ G) n); simpl; [done|].
  apply od_set_is_Some.
Qed.

Lemma ensure_node_self G n : is_Some (od_get (nx._succ (nx.ensure_node G n)) n).
Proof.
  unfold nx.ensure_node. destruct (od_mem (nx._succ G) n) eqn:E; simpl.
  - by apply od_mem_is_Some.
  - rewrite od_get_set, decide_True by done. by eexists.
Qed.

Lemma ensure_node_has_node G n x :
  nx.has_node G x = true -> nx.has_node (nx.ensure_node G n) x = true.
Proof.
  unfold nx.has_node, nx.ensure_node. destruct (od_mem (nx._succ G) n); simpl; [done|].
  rewrite od_mem_set. intros ->. by rewrite orb_true_r.
Qed.

(** The edges after [add_edge]: the new one, and the old ones. *)
Lemma add_edge_edges G u v key r u' v' key' a :
  nx.has_edge_ref (nx.add_edge G u v key r) u' v' key' a ->
  (u' = u /\ v' = v /\ key' = key /\ a = r) \/ nx.has_edge_ref G u' v' key' a.
Proof.
  intros (nbrs & kd & Hu & Hv & Hk). unfold nx.add_edge in Hu. simpl in Hu.
  set (G1 := nx.ensure_node (nx.ensure_node G u) v) in *.
  assert (forall u0 nbrs0, (u0, nbrs0) ∈ nx._succ G1 -> (v', kd) ∈ nbrs0 ->
                           nx.has_edge_ref G u0 v' key' a) as Hold.
  { intros u0 nbrs0 H1 H2.
    apply ensure_node_succ in H1 as [H1| ->]; [|by apply elem_of_nil in H2].
    apply ensure_node_succ in H1 as [H1| ->]; [|by apply elem_of_nil in H2].
    exists nbrs0, kd. done. }
  apply od_elem_set in Hu as [[-> ->]|Hu]; [|right; by eapply Hold].
  destruct (od_get (nx._succ G1) u) as [succ_u|] eqn:Esu; simpl in Hv.
  - apply od_get_Some_elem in Esu.
    apply od_elem_set in Hv as [[-> ->]|Hv]; [|right; by eapply Hold].
    destruct (od_get succ_u v) as [kd0|] eqn:Ekd.
    + apply od_get_Some_elem in Ekd.
      apply od_elem_set in Hk as [[-> ->]|Hk]; [by left|]. right.
      apply ensure_node_succ in Esu as [Esu| ->]; [|by apply elem_of_nil in Ekd].
      apply ensure_node_succ in Esu as [Esu| ->]; [|by apply elem_of_nil in Ekd].
      exists succ_u, kd0. done.
    + apply list_elem_of_singleton in Hk as [= -> ->]. by left.
  - apply list_elem_of_singleton in Hv as [= -> ->].
    apply list_elem_of_singleton in Hk as [= -> ->]. by left.
Qed.

Lemma init_graph_wf : graph_wf init.
Proof.
  split; simpl.
  - done.
  - intros k [? ?]. done.
  - intros u nbrs H. by apply elem_of_nil in H.
  - intros u v key a r (nbrs & kd & H & _). by apply elem_of_nil in H.
Qed.

Lemma merge_entity_graph_wf now g a obj e :
  graph_wf g -> graph_wf (merge_entity now g a obj e).
Proof. intros [H1 H2 H3 H4]. by split. Qed.

Lemma merge_relationship_graph_wf now g a obj :
  graph_wf g -> relationships g !! a = Some obj ->
  graph_wf (merge_relationship now g a obj).
Proof.
  intros [H1 H2 H3 H4] Hobj. split; simpl; try done.
  intros u v key a0 r Hedge. rewrite store_lookup.
  destruct (decide (a0 = a)) as [->|Hne]; [|by apply (H4 u v key a0 r Hedge)].
  rewrite decide_True by (by eapply lookup_lt_Some). intros [= <-]. simpl.
  by apply (H4 u v key a obj Hedge).
Qed.

Lemma insert_entity_graph_wf g e :
  inv g -> graph_wf g -> graph_wf (fst (insert_entity g e)).
Proof.
  intros Hinv [H1 H2 H3 H4]. unfold insert_entity, alloc. simpl fst.
  split; simpl.
  - intros n. unfold nx.add_node.
    destruct (od_mem (nx._succ (graph g)) (id e)) eqn:E; simpl.
    + rewrite od_mem_set, H1. destruct (decide (n = id e)) as [->|Hne].
      * by rewrite E, orb_true_r.
      * by rewrite bool_decide_eq_false_2.
    + by rewrite !od_mem_set, H1.
  - intros k Hk. unfold nx.has_node, nx.add_node.
    assert (od_mem (od_set (nx._node (graph g)) (id e) (Some (length (entities g)))) k
            = true) as Hnode.
    { rewrite od_mem_set. rewrite od_get_set in Hk.
      destruct (decide (k = id e)) as [->|Hne].
      - by rewrite bool_decide_eq_true_2.
      - rewrite bool_decide_eq_false_2 by done. by apply H2. }
    by destruct (od_mem (nx._succ (graph g)) (id e)).
  - intros u nbrs Hu. unfold nx.add_node in *.
    destruct (od_mem (nx._succ (graph g)) (id e)); simpl in *; [by apply (H3 u nbrs)|].
    apply od_elem_set in Hu as [[-> ->]|Hu].
    + split; [apply NoDup_nil_2|]. intros v kd Hv. by apply elem_of_nil in Hv.
    + destruct (H3 u nbrs Hu) as [Hnd Hrows]. split; [done|].
      intros v kd Hv. apply od_set_is_Some. by eapply Hrows.
  - intros u v key a r (nbrs & kd & Hu & Hv & Hk) Hr.
    assert (nx.has_edge_ref (graph g) u v key a) as Hedge.
    { exists nbrs, kd. split; [|done]. unfold nx.add_node in Hu.
      destruct (od_mem (nx._succ (graph g)) (id e)); simpl in Hu; [done|].
      apply od_elem_set in Hu as [[-> ->]|Hu]; [|done]. by apply elem_of_nil in Hv. }
    by apply (H4 u v key a r Hedge).
Qed.

Lemma ensure_node_rows G n : rows_wf G -> rows_wf (nx.ensure_node G n).
Proof.
  intros H u nbrs Hu. apply ensure_node_succ in Hu as Hcases.
  destruct Hcases as [Hold| ->].
  - destruct (H u nbrs Hold) as [Hnd Hrows]. split; [done|].
    intros v kd Hv. apply ensure_node_row. by eapply Hrows.
  - split; [apply NoDup_nil_2|]. intros v kd Hv. by apply elem_of_nil in Hv.
Qed.

Lemma add_edge_rows G u v key r : rows_wf G -> rows_wf (nx.add_edge G u v key r).
Proof.
  intros H. unfold nx.add_edge.
  set (G1 := nx.ensure_node (nx.ensure_node G u) v).
  assert (rows_wf G1) as H1 by (by do 2 apply ensure_node_rows).
  assert (is_Some (od_get (nx._succ G1) v)) as Hv by apply ensure_node_self.
  set (succ_u := default [] (od_get (nx._succ G1) u)).
  assert (NoDup (od_keys succ_u)
          /\ forall v0 kd0, (v0, kd0) ∈ succ_u -> is_Some (od_get (nx._succ G1) v0))
    as [Hnd Hrows].
  { unfold succ_u. destruct (od_get (nx._succ G1) u) as [x|] eqn:E; simpl.
    - apply od_get_Some_elem in E. by apply (H1 u x).
    - split; [apply NoDup_nil_2|]. intros v0 kd0 Hin. by apply elem_of_nil in Hin. }
  intros u' nbrs' Hu'. simpl in *.
  apply od_elem_set in Hu' as [[-> ->]|Hu'].
  - split; [by apply od_keys_set_nodup|].
    intros v0 kd0 Hv0. apply od_set_is_Some.
    apply od_elem_set in Hv0 as [[-> ->]|Hv0]; [done | by eapply Hrows].
  - destruct (H1 u' nbrs' Hu') as [Hnd' Hrows']. split; [done|].
    intros v0 kd0 Hv0. apply od_set_is_Some. by eapply Hrows'.
Qed.

Lemma insert_relationship_graph_wf g rel :
  inv g -> graph_wf g -> graph_wf (fst (insert_relationship g rel)).
Proof.
  intros Hinv [H1 H2 H3 H4]. unfold insert_relationship, alloc. simpl fst.
  split; simpl.
  - intros n. unfold nx.add_edge. simpl.
    set (G1 := nx.ensure_node (nx.ensure_node (graph g) (source_id rel)) (target_id rel)).
    rewrite od_mem_set.
    assert (od_mem (nx._succ G1) (source_id rel) = true) as Hu.
    { apply od_mem_is_Some, ensure_node_row, ensure_node_self. }
    assert (od_mem (nx._node G1) n = od_mem (nx._succ G1) n) as ->
      by (by apply ensure_node_nodes, ensure_node_nodes).
    destruct (decide (n = source_id rel)) as [->|Hne].
    + by rewrite Hu, orb_true_r.
    + by rewrite bool_decide_eq_false_2.
  - intros k Hk. unfold nx.add_edge, nx.has_node. simpl.
    by apply ensure_node_has_node, ensure_node_has_node, H2.
  - by apply add_edge_rows.
  - intros u v key a r Hedge Hr.
    apply add_edge_edges in Hedge as [(-> & -> & -> & ->)|Hedge].
    + rewrite alloc_lookup_new in Hr. by injection Hr as <-.
    + destruct (inv_edges g Hinv u v key a Hedge) as [r0 Hr0].
      rewrite (alloc_lookup_old _ rel _ _ Hr0) in Hr. injection Hr as <-.
      by apply (H4 u v key a r0 Hedge).
Qed.

Lemma add_entity_graph_wf now e m g :
  inv g -> graph_wf g -> graph_wf (fst (add_entity now e m g)).
Proof.
  intros Hinv Hwf. unfold add_entity.
  assert (graph_wf (fst (let '(g', a) := insert_entity g e in (g', inr a : result ref))))
    as Hinsert.
  { pose proof (insert_entity_graph_wf g e Hinv Hwf) as H.
    by destruct (insert_entity g e). }
  destruct m; [|exact Hinsert].
  destruct (_find_matching_entity g e) as [|[c|]]; [done| |exact Hinsert].
  destruct (deref (entities g) c); [done|]. by apply merge_entity_graph_wf.
Qed.

Lemma add_relationship_graph_wf now rel m g :
  inv g -> graph_wf g -> graph_wf (fst (add_relationship now rel m g)).
Proof.
  intros Hinv Hwf. unfold add_relationship.
  destruct (od_mem (_entity_index g) (source_id rel)); simpl; [|done].
  destruct (od_mem (_entity_index g) (target_id rel)); simpl; [|done].
  assert (graph_wf (fst (let '(g', a) := insert_relationship g rel in
                         (g', inr a : result ref)))) as Hinsert.
  { pose proof (insert_relationship_graph_wf g rel Hinv Hwf) as H.
    by destruct (insert_relationship g rel). }
  destruct m; [|exact Hinsert].
  destruct (_find_existing_relationship g rel) as [|[c|]]; [done| |exact Hinsert].
  destruct (deref (relationships g) c) as [|obj] eqn:E; [done|].
  apply deref_inr in E. by apply merge_relationship_graph_wf.
Qed.

Lemma reachable_graph_wf g : reachable g -> graph_wf g.
Proof.
  induction 1 as [|now e m g Hr IH Hv|now r m g Hr IH Hv].
  - apply init_graph_wf.
  - apply add_entity_graph_wf; [by apply reachable_inv | done].
  - apply add_relationship_graph_wf; [by apply reachable_inv | done].
Qed.
End graph_wf.

(** ** The queries return on a well-formed store *)

Lemma for_each_total_inv {A S} (I : S -> Prop) (f : S -> A -> result S) (l : list A) :
  (forall s x, In x l -> I s -> exists s', f s x = inr s' /\ I s') ->
  forall s0, I s0 -> exists s, for_each f l s0 = inr s /\ I s.
Proof.
  induction l as [|x l IH]; simpl; intros Hstep s0 H0; [by exists s0|].
  destruct (Hstep s0 x) as (s1 & -> & H1); [by left | done|]. simpl.
  apply IH; [|done]. intros; apply Hstep; [by right | done].
Qed.

Section queries_total.
Import SemanticGraphM Query Inv GraphInv GraphSpec.

Lemma row_edges_elem nbrs v key a :
  In (v, key, a) (nx.row_edges nbrs) <-> exists kd, (v, kd) ∈ nbrs /\ (key, a) ∈ kd.
Proof.
  unfold nx.row_edges. rewrite in_flat_map. split.
  - intros ([v0 kd] & Hin & Hx). apply in_map_iff in Hx as ([k0 a0] & [= -> -> ->] & Hk).
    exists kd. by rewrite <- !list_elem_of_In in *.
  - intros (kd & Hv & Hk). exists (v, kd). rewrite <- list_elem_of_In. split; [done|].
    apply in_map_iff. exists (key, a). by rewrite <- list_elem_of_In.
Qed.

Lemma node_has_row g u :
  graph_wf g -> nx.has_node (graph g) u = true ->
  exists nbrs, od_get (nx._succ (graph g)) u = Some nbrs.
Proof.
  intros Hwf Hnode. unfold nx.has_node in Hnode. rewrite (gw_nodes g Hwf) in Hnode.
  by apply od_mem_is_Some in Hnode as [nbrs ?]; exists nbrs.
Qed.

Lemma row_is_node g u :
  graph_wf g -> is_Some (od_get (nx._succ (graph g)) u) -> nx.has_node (graph g) u = true.
Proof.
  intros Hwf Hrow. unfold nx.has_node. rewrite (gw_nodes g Hwf). by apply od_mem_is_Some.
Qed.

(** The relationships that leave a node: each is carried by an edge from
    that node. *)
Lemma source_relationships_total g u :
  graph_wf g -> nx.has_node (graph g) u = true ->
  exists rels, get_relationships g (Some u) None None = inr rels
               /\ forall a, In a rels -> exists v key, nx.has_edge_ref (graph g) u v key a.
Proof.
  intros Hwf Hnode. destruct (node_has_row g u Hwf Hnode) as [nbrs Hrow].
  unfold get_relationships, nx.out_edges. rewrite Hnode, Hrow. simpl.
  eexists. split; [reflexivity|]. intros a Ha.
  apply in_map_iff in Ha as ([[u0 v] a0] & Heq & Ha). simpl in Heq. subst a0.
  apply in_map_iff in Ha as ([[v0 key] a0] & [= <- <- <-] & Ha).
  apply row_edges_elem in Ha as (kd & Hv & Hk).
  exists v0, key, nbrs, kd. split; [by apply od_get_Some_elem | done].
Qed.

Lemma edge_target_is_node g u v key a :
  graph_wf g -> nx.has_edge_ref (graph g) u v key a -> nx.has_node (graph g) v = true.
Proof.
  intros Hwf (nbrs & kd & Hu & Hv & _). apply row_is_node; [done|].
  by apply (proj2 (gw_rows g Hwf u nbrs Hu) v kd).
Qed.

Lemma hop_levels_total g rtype n :
  inv g -> graph_wf g ->
  forall results visited current,
    (forall v, v ∈ current -> nx.has_node (graph g) v = true) ->
    exists res, hop_levels n g rtype results visited current = inr res.
Proof.
  intros Hinv Hwf.
  induction n as [|n IH]; intros res visited current Hcur; simpl; [by eexists|].
  destruct (for_each_total_inv
              (fun st : hop_state => forall v, v ∈ st.2 -> nx.has_node (graph g) v = true)
              (hop_entity g rtype) (elements current))
    with (s0 := (res, visited, (∅ : gset UUID)))
    as ([[res' visited'] next] & Hrun & Hnext).
  - intros st eid Heid Hst. apply list_elem_of_In, elem_of_elements, Hcur in Heid.
    destruct (source_relationships_total g eid Hwf Heid) as (rels' & Hrels' & Hedges).
    unfold hop_entity. rewrite Hrels'. simpl.
    apply for_each_total_inv; [|done].
    intros [[r1 v1] n1] a Ha Hn1. destruct (Hedges a Ha) as (v & key & Hedge).
    destruct (inv_edges g Hinv _ _ _ _ Hedge) as [rel Hrel].
    unfold hop_step. rewrite (proj2 (deref_inr _ _ _) Hrel). simpl.
    case_bool_decide; [|by eexists].
    eexists. split; [reflexivity|]. simpl. intros x Hx.
    apply elem_of_union in Hx as [Hx|Hx]; [by apply Hn1|].
    apply elem_of_singleton in Hx as ->.
    destruct (gw_endpoints g Hwf _ _ _ _ _ Hedge Hrel) as [_ ->].
    by eapply edge_target_is_node.
  - intros v Hv. by apply elem_of_empty in Hv.
  - rewrite Hrun. simpl. by apply IH.
Qed.

Lemma query_spatial_total g e rtype h :
  inv g -> graph_wf g -> nx.has_node (graph g) (id e) = true ->
  exists results, query_spatial g e rtype h = inr results.
Proof.
  intros Hinv Hwf Hnode. unfold query_spatial.
  destruct (source_relationships_total g (id e) Hwf Hnode) as (rels & -> & Hrels). simpl.
  destruct (for_each_total_inv (fun _ => True) (direct_step g rtype) rels)
    with (s0 := @nil (ref * ref)) as (results & -> & _); [|done|].
  { intros res a Ha _. destruct (Hrels a Ha) as (v & key & Hedge).
    destruct (inv_edges g Hinv _ _ _ _ Hedge) as [rel Hrel].
    unfold direct_step. rewrite (proj2 (deref_inr _ _ _) Hrel). simpl.
    destruct rtype; [case_bool_decide|]; by eexists. }
  simpl. case_bool_decide; [|by eexists].
  apply hop_levels_total; [done..|].
  intros v Hv. by apply elem_of_singleton in Hv as ->.
Qed.
End queries_total.

Section bfs_total.
Variable succ : UUID -> result (list UUID).
Variable W : UUID -> Prop.
Hypothesis W_closed :
  forall u, W u -> exists vs, succ u = inr vs /\ forall v, In v vs -> W v.

Lemma expand_total fr : forall st,
  BfsSpec.heads_in W fr -> BfsSpec.heads_in W st.2 ->
  exists st', for_each (nx.expand_path succ) fr st = inr st' /\ BfsSpec.heads_in W st'.2.
Proof.
  intros st Hfr Hst. apply (for_each_total_inv (fun st => BfsSpec.heads_in W st.2)); [|done].
  intros [seen next] p Hp Hnext. unfold nx.expand_path.
  destruct p as [|u tl]; [by eexists|].
  destruct (W_closed u) as (vs & -> & Hvs); [by apply (Hfr (u :: tl))|]. simpl.
  destruct (fold_left _ vs (seen, next)) as [seen' next'] eqn:Hfold.
  exists (seen', next'). split; [done|].
  destruct (fold_expand _ _ _ _ _ _ Hfold) as [_ F2].
  intros q v Hq Hh. apply F2 in Hq as [Hq|(v' & -> & Hin & _)].
  - by apply (Hnext q).
  - injection Hh as <-. by apply Hvs.
Qed.

Lemma bfs_total target fuel : forall seen fr,
  BfsSpec.heads_in W fr ->
  match nx.bfs fuel succ target seen fr with
  | inr _ => True
  | inl e => e = NetworkXNoPath \/ e = OutOfFuel
  end.
Proof.
  induction fuel as [|fuel IH]; intros seen fr Hfr; cbn [nx.bfs];
    (destruct (find _ fr); [done|]); (destruct fr as [|p0 fr]; [by left|]);
    [by right|].
  destruct (expand_total (p0 :: fr) (seen, [])) as ([seen' next] & -> & Hnext);
    [done | by intros ? ? [] |].
  simpl. by apply IH.
Qed.
End bfs_total.

Section find_path_total.
Import SemanticGraphM Query Inv GraphInv GraphSpec.

Lemma od_keys_get {V} (d : odict UUID V) k :
  In k (od_keys d) -> exists v, od_get d k = Some v /\ (k, v) ∈ d.
Proof.
  intros Hin. apply list_elem_of_In in Hin.
  destruct (od_get d k) as [v|] eqn:E.
  - exists v. split; [done | by apply od_get_Some_elem].
  - by apply od_get_None_keys in E.
Qed.

Lemma edge_filter_total g types u nbrs v kd key :
  inv g -> graph_wf g ->
  od_get (nx._succ (graph g)) u = Some nbrs -> (v, kd) ∈ nbrs -> In key (od_keys kd) ->
  exists b, edge_filter g types u v key = inr b.
Proof.
  intros Hinv Hwf Hrow Hv Hkey.
  apply od_get_Some_elem in Hrow as Hu.
  destruct (gw_rows g Hwf u nbrs Hu) as [Hnd _].
  destruct (od_keys_get kd key Hkey) as (a & Ha & Hka).
  destruct (inv_edges g Hinv u v key a) as [rel Hrel]; [by exists nbrs, kd|].
  unfold edge_filter, nx.edge, nx.get_edge_data.
  rewrite Hrow, (od_elem_get nbrs v kd Hnd Hv), Ha. simpl.
  rewrite (proj2 (deref_inr _ _ _) Hrel). simpl. by eexists.
Qed.

Lemma any_key_ok_total f keys :
  (forall k, In k keys -> exists b, f k = inr b) -> exists b, nx.any_key_ok f keys = inr b.
Proof.
  induction keys as [|k keys IH]; simpl; intros Hf; [by eexists|].
  destruct (Hf k) as [b ->]; [by left|]. simpl.
  destruct b; [by eexists|]. apply IH. intros; apply Hf; by right.
Qed.

Lemma view_row_total f nbrs :
  (forall v kd k, (v, kd) ∈ nbrs -> In k (od_keys kd) -> exists b, f v k = inr b) ->
  exists vs, nx.view_row f nbrs = inr vs.
Proof.
  induction nbrs as [|[v kd] nbrs IH]; simpl; intros Hf; [by eexists|].
  destruct (any_key_ok_total (f v) (od_keys kd)) as [ok ->].
  { intros k Hk. apply (Hf v kd k); [apply list_elem_of_here | done]. }
  simpl. destruct IH as [vs ->].
  { intros v0 kd0 k Hv0. apply Hf. by apply list_elem_of_further. }
  simpl. by eexists.
Qed.

(** On a well-formed store the filtered view has a row for every node
    that has a row, and the neighbours it lists have rows too. *)
Lemma view_successors_total g types u :
  inv g -> graph_wf g -> is_Some (od_get (nx._succ (graph g)) u) ->
  exists vs, nx.view_successors (graph g) (edge_filter g types) u = inr vs
             /\ forall v, In v vs -> is_Some (od_get (nx._succ (graph g)) v).
Proof.
  intros Hinv Hwf [nbrs Hrow]. unfold nx.view_successors. rewrite Hrow.
  destruct (view_row_total (edge_filter g types u) nbrs) as [vs Hvs].
  { intros v kd k Hv Hk. by eapply edge_filter_total. }
  exists vs. split; [done|]. intros v Hv.
  apply (view_row_keys _ _ _ _ Hvs) in Hv.
  destruct (od_keys_get nbrs v Hv) as (kd & _ & Hin).
  apply od_get_Some_elem in Hrow.
  by apply (proj2 (gw_rows g Hwf u nbrs Hrow) v kd).
Qed.

(** Between two nodes of a well-formed store [find_path] raises nothing. *)
Lemma find_path_total g source target types :
  inv g -> graph_wf g ->
  nx.has_node (graph g) (id source) = true ->
  nx.has_node (graph g) (id target) = true ->
  exists out, find_path g source target types = inr out.
Proof.
  intros Hinv Hwf Hs Ht.
  pose proof (find_path_general g source target types) as Hgen.
  unfold find_path, nx.shortest_path in Hgen |- *.
  rewrite Hs, Ht in Hgen |- *. cbn [andb] in Hgen |- *.
  set (tys := default default_relation_types types) in *.
  set (W := fun u => is_Some (od_get (nx._succ (graph g)) u)).
  assert (BfsSpec.heads_in W [[id source]]) as Hheads.
  { intros p u [<-|[]] [= <-]. unfold W.
    destruct (node_has_row g (id source) Hwf Hs) as [nbrs ->]. by eexists. }
  pose proof (bfs_total (nx.view_successors (graph g) (edge_filter g tys)) W
                (fun u => view_successors_total g tys u Hinv Hwf)
                (id target) (nx.levels_bound (graph g)) {[ id source ]} [[id source]]
                Hheads) as Htotal.
  destruct (nx.bfs _ _ _ _ _) as [e|p]; [|by eexists].
  destruct Htotal as [-> | ->]; [by eexists|]. by destruct Hgen.
Qed.
End find_path_total.

(** ** The claims on the queries *)

(** C7.  [find_path] searches the view of the multigraph restricted to
    the allowed relation types, by default {ON, IN, NEAR, NEXT_TO,
    ATTACHED_TO}: a result is the entity sequence of a shortest path of the
    view, both endpoints included; [None] means that the view has no path;
    between two stored entities of a reachable store nothing is raised.  On
    the chain A —ON→ B —IN→ C it returns [A, B, C]; on two stored entities
    joined only by a PART_OF edge it returns [None]. *)
Theorem find_path_default_allow_set :
  (forall g source target types,
     GraphSpec.find_path_outcome g source target
       (default Query.default_relation_types types)
       (Query.find_path g source target types))
  /\ (forall g source target types,
        Inv.reachable g ->
        is_Some (SemanticGraphM.get_entity g (id source)) ->
        is_Some (SemanticGraphM.get_entity g (id target)) ->
        exists out, Query.find_path g source target types = inr out)
  /\ (forall g A B C a b c a1 a2,
        GraphSpec.on_in_chain g A B C a b c a1 a2 ->
        Query.find_path g A C None = inr (Some [Some a; Some b; Some c]))
  /\ (forall g A B a b,
        GraphSpec.part_of_pair g A B a b ->
        Query.find_path g A B None = inr None).
Proof.
  split; [exact find_path_general|]. split; [|split].
  - intros g source target types Hreach Hs Ht.
    pose proof (reachable_graph_wf g Hreach) as Hwf.
    apply find_path_total; [by apply reachable_inv | done | |];
      by apply (GraphInv.gw_stored g Hwf).
  - intros g A B C a b c a1 a2 [HA HB HC HnC (r1 & H1 & T1) (r2 & H2 & T2) (N1 & N2 & N3)].
    by eapply (find_path_chain g A B C a b c a1 r1 a2 r2).
  - intros g A B a b [HA HB HnB (a1 & r1 & H1 & T1) N1].
    by eapply (find_path_part_of g A B a1 r1).
Qed.

Lemma find_path_default_allow_set_witness :
  GraphSpec.on_in_chain Scenario.kitchen_chain Scenario.cup Scenario.table
    Scenario.kitchen 0%nat 1%nat 2%nat 0%nat 1%nat
  /\ GraphSpec.part_of_pair Scenario.wheel_and_car Scenario.wheel Scenario.car 0%nat 1%nat
  /\ Query.find_path Scenario.kitchen_chain Scenario.cup Scenario.kitchen None
      = inr (Some [Some 0%nat; Some 1%nat; Some 2%nat])
  /\ Query.find_path Scenario.wheel_and_car Scenario.wheel Scenario.car None = inr None.
Proof.
  split; [exact kitchen_chain_scenario|]. split; [exact wheel_and_car_scenario|].
  split.
  - exact (proj1 (proj2 (proj2 find_path_default_allow_set))
             _ _ _ _ _ _ _ _ _ kitchen_chain_scenario).
  - exact (proj2 (proj2 (proj2 find_path_default_allow_set))
             _ _ _ _ _ wheel_and_car_scenario).
Defined.

(** C10.  On the chain A —ON→ B —IN→ C, [query_spatial(A, max_hops=2)]
    without a type filter returns exactly [(B, r1), (B, r1)]: the pair of
    the first hop twice, and no pair for C.  In general, for [h > 1] every
    pair returned with [max_hops = h] lies within [h - 1] hops of the
    starting entity; and on a stored entity of a reachable store the query
    does return. *)
Theorem query_spatial_stops_one_hop_short :
  (forall g A B C a b c a1 a2,
     GraphSpec.on_in_chain g A B C a b c a1 a2 ->
     Query.query_spatial g A None 2 = inr [(b, a1); (b, a1)]
     /\ forall x, ~ In (c, x) [(b, a1); (b, a1)])
  /\ (forall g entity rtype h results,
        (1 < h)%Z ->
        Query.query_spatial g entity rtype h = inr results ->
        GraphSpec.within_hops g (id entity) (Z.to_nat (h - 1)) results)
  /\ (forall g entity rtype h,
        Inv.reachable g ->
        is_Some (SemanticGraphM.get_entity g (id entity)) ->
        exists results, Query.query_spatial g entity rtype h = inr results).
Proof.
  split; [|split].
  - intros g A B C a b c a1 a2 [HA HB HC HnC (r1 & H1 & T1) (r2 & H2 & T2) (N1 & N2 & N3)].
    split; [by eapply query_spatial_two_hops_chain|].
    pose proof (stored_distinct g B C b c HB HC N2) as Hbc.
    intros x [[= ? ?]|[[= ? ?]|[]]]; congruence.
  - intros g entity rtype h results. apply query_spatial_within.
  - intros g entity rtype h Hreach Hstored.
    pose proof (reachable_graph_wf g Hreach) as Hwf.
    apply query_spatial_total; [by apply reachable_inv | done |].
    by apply (GraphInv.gw_stored g Hwf).
Qed.

Lemma query_spatial_stops_one_hop_short_witness :
  GraphSpec.on_in_chain Scenario.kitchen_chain Scenario.cup Scenario.table
    Scenario.kitchen 0%nat 1%nat 2%nat 0%nat 1%nat
  /\ Query.query_spatial Scenario.kitchen_chain Scenario.cup None 2
      = inr [(1%nat, 0%nat); (1%nat, 0%nat)]
  /\ GraphSpec.within_hops Scenario.kitchen_chain (id Scenario.cup) 1
       [(1%nat, 0%nat); (1%nat, 0%nat)].
Proof.
  split; [exact kitchen_chain_scenario|].
  destruct (proj1 query_spatial_stops_one_hop_short _ _ _ _ _ _ _ _ _
              kitchen_chain_scenario) as [Hrun _].
  split; [exact Hrun|].
  apply (proj1 (proj2 query_spatial_stops_one_hop_short) Scenario.kitchen_chain
           Scenario.cup None 2%Z); [lia | exact Hrun].
Defined.

(** C9.  In every reachable store the secondary indices and the primary
    entity map agree: every id of a by-type or by-name bucket is a key of
    the primary map, and every entity of the primary map is in the by-type
    bucket of its type and in the by-name bucket of its lower-cased name.
    Every insert or merge from such a store returns, and the store it
    leaves is consistent again and holds the returned entity in all three
    structures: the operation is one step, with no state in between. *)
Theorem indices_never_diverge (g : SemanticGraph) :
  Inv.reachable g ->
  Inv.indices_consistent g
  /\ forall now e m,
       Entity_valid e ->
       exists g' a obj,
         SemanticGraphM.add_entity now e m g = (g', inr a)
         /\ Inv.indices_consistent g'
         /\ entities g' !! a = Some obj
         /\ od_get (_entity_index g') (id obj) = Some a
         /\ (exists ids, _entities_by_type g' !! entity_type obj = Some ids /\ id obj ∈ ids)
         /\ (exists ids, _entities_by_name g' !! Py.lower (name obj) = Some ids
                         /\ id obj ∈ ids).
Proof.
  intros Hreach. pose proof (reachable_inv g Hreach) as Hinv.
  split; [apply Hinv|].
  intros now e m Hvalid.
  destruct (add_entity_total now e m g Hinv) as [a Ha].
  pose proof (add_entity_inv now e m g Hinv Hvalid) as Hinv'.
  destruct (SemanticGraphM.add_entity now e m g) as [g' r] eqn:Hrun.
  simpl in Ha, Hinv'. subst r.
  destruct (add_entity_returns_stored now e m g g' a Hinv Hrun) as [k Hk].
  destruct (Inv.entity_objects g' (Inv.inv_primary g' Hinv') k a) as (obj & Hobj & Hid & _);
    [by apply od_get_Some_elem|].
  exists g', a, obj. split; [reflexivity|]. split; [apply Hinv'|].
  split; [exact Hobj|]. split; [by rewrite Hid|].
  split.
  - by eapply (Inv.primary_in_by_type g' (Inv.inv_indices g' Hinv')).
  - by eapply (Inv.primary_in_by_name g' (Inv.inv_indices g' Hinv')).
Qed.

Lemma indices_never_diverge_witness :
  Inv.reachable Scenario.one_hammer /\ Inv.indices_consistent Scenario.one_hammer.
Proof.
  split; [exact one_hammer_reachable|].
  exact (proj1 (indices_never_diverge Scenario.one_hammer one_hammer_reachable)).
Defined.

(** * Further properties of the code *)

(** ** Relationship.inverse_type *)




(** ** Entity.merge_observation: what is kept and what accumulates *)

(** X3.  [Entity.merge_observation] keeps the id, the type, the name, the
    visual features and the first observation time of the existing
    entity, sets the last observation time to the clock, and accumulates
    the rest: the tags and the source devices become the unions, the
    aliases of the incoming entity are appended (duplicates included), and
    the properties of the incoming entity override those of the existing
    one key by key.  This holds for every weight; the two tests on empty
    tags and aliases change nothing. *)
Theorem entity_merge_accumulates now self other w :
  let merged := EntityM.merge_observation now self other w in
  id merged = id self /\ entity_type merged = entity_type self
  /\ name merged = name self /\ visual merged = visual self
  /\ first_observed merged = first_observed self
  /\ last_observed merged = now
  /\ tags (semantic merged) = tags (semantic self) ∪ tags (semantic other)
  /\ aliases (semantic merged) = aliases (semantic self) ++ aliases (semantic other)
  /\ source_devices merged = source_devices self ∪ source_devices other
  /\ forall k, properties merged !! k =
               match properties other !! k with
               | Some v => Some v
               | None => properties self !! k
               end.
Proof.
  simpl. repeat split.
  - case_bool_decide as H; [done|].
    rewrite H. symmetry. apply (right_id_L ∅ (∪)).
  - destruct (aliases (semantic other)); [by rewrite app_nil_r | done].
  - intros k. rewrite lookup_union. by destruct (properties other !! k), (properties self !! k).
Qed.





(** ** Cosine similarity and matches *)

Lemma dot_comm u : forall v, MatchSpec.dot u v = MatchSpec.dot v u.
Proof.
  induction u as [|x u IH]; intros [|y v]; simpl; try reflexivity.
  rewrite IH. ring.
Qed.



Lemma cosine_similarity_comm u v :
  EntityM._cosine_similarity u v = EntityM._cosine_similarity v u.
Proof.
  unfold EntityM._cosine_similarity.
  rewrite !py_sum_zip_dot, !py_sum_squares, (dot_comm u v).
  rewrite (orb_comm (Py.eq (sqrt (MatchSpec.dot u u)) 0)).
  rewrite (Rmult_comm (sqrt (MatchSpec.dot u u))).
  do 2 case_bool_decide; try done; congruence.
Qed.



Lemma gset_inter_comm (X Y : gset string) : X ∩ Y = Y ∩ X.
Proof. apply set_eq. intros x. rewrite !elem_of_intersection. tauto. Qed.

Lemma gset_union_comm (X Y : gset string) : X ∪ Y = Y ∪ X.
Proof. apply set_eq. intros x. rewrite !elem_of_union. tauto. Qed.

(** X7.  [Entity.matches] is reflexive and symmetric: an entity matches
    itself for every threshold, and [a.matches(b, t)] and
    [b.matches(a, t)] agree. *)
Theorem matches_reflexive_symmetric (a b : Entity) (t : R) :
  EntityM.matches a a t = true
  /\ EntityM.matches a b t = EntityM.matches b a t.
Proof.
  split.
  - unfold EntityM.matches.
    rewrite (bool_decide_eq_false_2 (entity_type a ≠ entity_type a)) by (intros H; by apply H).
    simpl. by rewrite String.eqb_refl.
  - unfold EntityM.matches.
    rewrite (String.eqb_sym (Py.lower (name a))).
    rewrite (cosine_similarity_comm (default [] (embedding (visual a)))).
    rewrite (gset_inter_comm (tags (semantic a)) (tags (semantic b))).
    rewrite (gset_union_comm (tags (semantic a)) (tags (semantic b))).
    rewrite (gset_inter_comm ({[Py.lower (name a)]} ∪ list_to_set (map Py.lower (aliases (semantic a))))
               ({[Py.lower (name b)]} ∪ list_to_set (map Py.lower (aliases (semantic b))))).
    rewrite (andb_comm (Py.truthy_list (embedding (visual a)))).
    rewrite (andb_comm (bool_decide (tags (semantic a) ≠ ∅))).
    assert ((bool_decide (entity_type a ≠ entity_type b)
             && bool_decide (entity_type a ≠ UNKNOWN)
             && bool_decide (entity_type b ≠ UNKNOWN))%bool
            = (bool_decide (entity_type b ≠ entity_type a)
               && bool_decide (entity_type b ≠ UNKNOWN)
               && bool_decide (entity_type a ≠ UNKNOWN))%bool) as ->.
    { repeat case_bool_decide; simpl; try done; congruence. }
    reflexivity.
Qed.

(** ** Lookups through the secondary indices *)

Section lookup_facts.
Import SemanticGraphM Inv.

Lemma index_refs_injective g k1 k2 a :
  inv g -> (k1, a) ∈ _entity_index g -> (k2, a) ∈ _entity_index g -> k1 = k2.
Proof.
  intros Hinv H1 H2.
  destruct (entity_objects g (inv_primary g Hinv) k1 a H1) as (e1 & He1 & Hid1 & _).
  destruct (entity_objects g (inv_primary g Hinv) k2 a H2) as (e2 & He2 & Hid2 & _).
  congruence.
Qed.

Lemma entity_index_at_inr g k a :
  entity_index_at g k = inr a <-> od_get (_entity_index g) k = Some a.
Proof.
  unfold entity_index_at. destruct (od_get _ k); split; intros [=]; by subst.
Qed.

Lemma index_list_lookup g l found :
  inv g -> NoDup l ->
  Forall2 (fun k a => entity_index_at g k = inr a) l found ->
  NoDup found
  /\ forall a, In a found <-> exists k, In k l /\ od_get (_entity_index g) k = Some a.
Proof.
  intros Hinv Hnd H. induction H as [|k a l found Hka Hrest IH].
  - split; [apply NoDup_nil_2|]. intros a. split; [done|]. by intros (k & [] & _).
  - apply NoDup_cons in Hnd as [Hk Hnd]. destruct (IH Hnd) as [IH1 IH2].
    apply entity_index_at_inr in Hka.
    split.
    + apply NoDup_cons. split; [|done]. intros Ha.
      apply list_elem_of_In, IH2 in Ha as (k' & Hk' & Hka').
      assert (k' = k) as ->.
      { apply (index_refs_injective g k' k a Hinv); by apply od_get_Some_elem. }
      apply Hk. by apply list_elem_of_In.
    + intros a0. simpl. rewrite IH2. split.
      * intros [<-|(k' & Hk' & Hka')]; [exists k; auto | exists k'; auto].
      * intros (k' & [<-|Hk'] & Hka'); [left; congruence | right; eauto].
Qed.

(** The entities of a bucket of a secondary index: the lookup returns,
    lists each id of the bucket once, and lists stored entities only. *)
Lemma bucket_lookup g (ids : gset UUID) :
  inv g ->
  (forall k, k ∈ ids -> is_Some (od_get (_entity_index g) k)) ->
  exists found,
    traverse (entity_index_at g) (elements ids) = inr found
    /\ NoDup found
    /\ forall a, In a found <-> exists k, k ∈ ids /\ od_get (_entity_index g) k = Some a.
Proof.
  intros Hinv Hids.
  destruct (traverse_total (entity_index_at g) (elements ids)) as [found Hfound].
  { intros k Hk. apply list_elem_of_In, elem_of_elements in Hk.
    destruct (Hids k Hk) as [a Ha]. exists a. by apply entity_index_at_inr. }
  exists found. split; [done|].
  apply traverse_inr in Hfound.
  destruct (index_list_lookup g _ _ Hinv (NoDup_elements ids) Hfound) as [H1 H2].
  split; [done|]. intros a. rewrite H2. split.
  - intros (k & Hk & Hka). exists k. split; [|done].
    by apply elem_of_elements, list_elem_of_In.
  - intros (k & Hk & Hka). exists k. split; [|done].
    by apply list_elem_of_In, elem_of_elements.
Qed.

Lemma default_bucket `{Countable K} (m : gmap K (gset UUID)) (key : K) k :
  k ∈ default ∅ (m !! key) <-> exists ids, m !! key = Some ids /\ k ∈ ids.
Proof.
  destruct (m !! key) as [ids|]; simpl.
  - split; [eauto|]. by intros (? & [= <-] & ?).
  - split; [by intros ?%elem_of_empty|]. by intros (? & [=] & _).
Qed.
End lookup_facts.

(** ** add_entity *)

(** X8.  [add_entity(entity, merge_if_exists=False)] on any store never
    raises: it returns the entity, which [get_entity] then finds under
    its id with its contents unchanged; every other id keeps its entity,
    no stored object is touched, the relationships are left alone, and the
    number of entities grows by one unless the id was already a key, in
    which case the old entry is replaced. *)
Theorem add_entity_without_merge (now : datetime) (e : Entity) (g : SemanticGraph) :
  exists g' a,
    SemanticGraphM.add_entity now e false g = (g', inr a)
    /\ SemanticGraphM.get_entity g' (id e) = Some a
    /\ entities g' !! a = Some e
    /\ (forall k, k ≠ id e ->
                  SemanticGraphM.get_entity g' k = SemanticGraphM.get_entity g k)
    /\ (forall a' x, entities g !! a' = Some x -> entities g' !! a' = Some x)
    /\ length (_entity_index g')
       = (if od_mem (_entity_index g) (id e) then length (_entity_index g)
          else S (length (_entity_index g)))
    /\ _relationship_index g' = _relationship_index g
    /\ relationships g' = relationships g.
Proof.
  unfold SemanticGraphM.add_entity, SemanticGraphM.insert_entity, alloc,
    SemanticGraphM.get_entity.
  eexists _, _. split; [reflexivity|]. simpl.
  split; [by rewrite od_get_set, decide_True|].
  split; [apply alloc_lookup_new|].
  split; [intros k Hk; by rewrite od_get_set, decide_False|].
  split; [intros a' x Hx; by apply alloc_lookup_old|].
  split; [|done].
  rewrite od_length_set. unfold od_mem. by destruct (od_get _ _).
Qed.

Lemma add_entity_without_merge_witness :
  exists g' a,
    SemanticGraphM.add_entity 0%Z Scenario.table false Scenario.one_hammer = (g', inr a)
    /\ SemanticGraphM.get_entity g' 1%N
       = SemanticGraphM.get_entity Scenario.one_hammer 1%N.
Proof.
  destruct (add_entity_without_merge 0%Z Scenario.table Scenario.one_hammer)
    as (g' & a & Hrun & _ & _ & Hframe & _).
  exists g', a. split; [exact Hrun|]. apply Hframe. simpl. discriminate.
Defined.

Section merging_facts.
Import SemanticGraphM Inv.

Lemma first_match_finds g test cs c o :
  (forall c', In c' cs -> is_Some (entities g !! c')) ->
  In c cs -> entities g !! c = Some o -> test o = true ->
  exists c' o', first_match g test cs = inr (Some c')
                /\ In c' cs /\ entities g !! c' = Some o' /\ test o' = true.
Proof.
  induction cs as [|c0 cs IH]; simpl; intros Hwf Hin Ho Ht; [done|].
  destruct (deref_total (entities g) c0) as (e0 & -> & He0); [apply Hwf; by left|].
  simpl. destruct (test e0) eqn:Et0.
  - exists c0, e0. auto.
  - destruct Hin as [->|Hin]; [congruence|].
    destruct IH as (c' & o' & -> & Hin' & Ho' & Ht'); [intros; apply Hwf; by right|done..|].
    exists c', o'. auto.
Qed.

Lemma same_name_matches candidate e t :
  Py.lower (name candidate) = Py.lower (name e) ->
  entity_type candidate = entity_type e ->
  EntityM.matches candidate e t = true.
Proof.
  intros Hn Ht. unfold EntityM.matches.
  rewrite (bool_decide_eq_false_2 (entity_type candidate ≠ entity_type e))
    by (intros H; by apply H).
  simpl. rewrite Hn. by rewrite String.eqb_refl.
Qed.

Lemma find_matching_same_name g e k0 a0 obj0 :
  inv g ->
  od_get (_entity_index g) k0 = Some a0 -> entities g !! a0 = Some obj0 ->
  Py.lower (name obj0) = Py.lower (name e) -> entity_type obj0 = entity_type e ->
  exists a obj, _find_matching_entity g e = inr (Some a)
                /\ entities g !! a = Some obj
                /\ (exists k, od_get (_entity_index g) k = Some a)
                /\ EntityM.matches obj e 0.7 = true.
Proof.
  intros Hinv Hk0 Hobj0 Hname Htype.
  unfold _find_matching_entity, get_entities_by_name. simpl.
  destruct (by_name_candidates g (Py.lower (name e)) Hinv) as (cs & Hcs & Hstored).
  pose proof (traverse_inr _ _ _ Hcs) as Hall.
  assert (In a0 cs) as Hin.
  { destruct (primary_in_by_name g (inv_indices g Hinv) k0 a0 obj0 Hk0 Hobj0)
      as (ids & Hids & Hmem).
    destruct (entity_objects g (inv_primary g Hinv) k0 a0) as (o & Ho & Hid & _);
      [by apply od_get_Some_elem|].
    assert (o = obj0) as -> by congruence.
    rewrite Hname, Hids in *. simpl in *. rewrite Hid in Hmem.
    apply elem_of_elements, list_elem_of_In in Hmem.
    clear Hcs. induction Hall as [|k a l found Hka _ IH]; simpl in *; [done|].
    destruct Hmem as [->|Hmem].
    - left. unfold entity_index_at in Hka. rewrite Hk0 in Hka. congruence.
    - right. apply IH; [|done]. intros c Hc. apply Hstored. by right. }
  rewrite Hcs. simpl.
  destruct (first_match_finds g (fun candidate => EntityM.matches candidate e 0.7)
              cs a0 obj0) as (a & obj & -> & Hin' & Hobj & Hm).
  - intros c Hc. destruct (Hstored c Hc) as [k Hk].
    destruct (entity_objects g (inv_primary g Hinv) k c Hk) as (o & Ho & _). by eexists.
  - done.
  - done.
  - by apply same_name_matches.
  - simpl. exists a, obj. split; [done|]. split; [done|]. split; [|done].
    destruct (Hstored a Hin') as [k Hk]. exists k.
    apply od_elem_get; [|done]. apply (entity_keys_nodup g (inv_primary g Hinv)).
Qed.
End merging_facts.

(** X9.  In a reachable store that holds an entity with the same name up
    to case and the same type as the incoming one,
    [add_entity(entity, merge_if_exists=True)] stores nothing new: it
    returns a stored entity that matches the incoming one, whose object is
    replaced by the result of [merge_observation] with weight 0.3; the
    other objects, the primary map, the multigraph and the relationships
    are unchanged. *)
Theorem add_entity_merges_same_name (now : datetime) (e : Entity) (g : SemanticGraph)
    (k0 : UUID) (a0 : ref) (obj0 : Entity) :
  Inv.reachable g ->
  od_get (_entity_index g) k0 = Some a0 -> entities g !! a0 = Some obj0 ->
  Py.lower (name obj0) = Py.lower (name e) -> entity_type obj0 = entity_type e ->
  exists g' a obj,
    SemanticGraphM.add_entity now e true g = (g', inr a)
    /\ (exists k, od_get (_entity_index g) k = Some a)
    /\ entities g !! a = Some obj
    /\ EntityM.matches obj e 0.7 = true
    /\ entities g' !! a = Some (EntityM.merge_observation now obj e 0.3)
    /\ (forall a', a' ≠ a -> entities g' !! a' = entities g !! a')
    /\ _entity_index g' = _entity_index g
    /\ graph g' = graph g
    /\ _relationship_index g' = _relationship_index g.
Proof.
  intros Hreach Hk0 Hobj0 Hname Htype.
  pose proof (reachable_inv g Hreach) as Hinv.
  destruct (find_matching_same_name g e k0 a0 obj0 Hinv Hk0 Hobj0 Hname Htype)
    as (a & obj & Hfind & Hobj & Hk & Hm).
  unfold SemanticGraphM.add_entity. rewrite Hfind.
  rewrite (proj2 (deref_inr _ _ _) Hobj).
  eexists _, a, obj. split; [reflexivity|].
  split; [done|]. split; [done|]. split; [done|].
  unfold SemanticGraphM.merge_entity. simpl.
  split.
  { rewrite store_lookup, decide_True by done.
    rewrite decide_True by (by eapply lookup_lt_Some). done. }
  split; [|done].
  intros a' Hne. by rewrite store_lookup, decide_False.
Qed.

Lemma add_entity_merges_same_name_witness :
  exists g' a obj,
    SemanticGraphM.add_entity 0%Z (Sample.entity 2%N OBJECT "HAMMER" 0.5) true
      Scenario.one_hammer = (g', inr a)
    /\ entities Scenario.one_hammer !! a = Some obj
    /\ _entity_index g' = _entity_index Scenario.one_hammer.
Proof.
  destruct (add_entity_merges_same_name 0%Z (Sample.entity 2%N OBJECT "HAMMER" 0.5)
              Scenario.one_hammer 1%N 0%nat Scenario.hammer one_hammer_reachable
              eq_refl eq_refl eq_refl eq_refl)
    as (g' & a & obj & Hrun & _ & Hobj & _ & _ & _ & Hidx & _).
  exists g', a, obj. split; [exact Hrun|]. split; [exact Hobj | exact Hidx].
Defined.

(** X10.  When [add_entity] with merging returns an entity that was
    already stored, the id of the incoming entity is still not a key of
    the store; so a relationship that names this id as its source or its
    target is then rejected by [add_relationship] with [ValueError], the
    store unchanged.  This is the sequence of the ingestion loop of
    [examples/photo_ingestion.py]. *)
Theorem merged_entity_id_is_not_stored (now now' : datetime) (e : Entity)
    (r : Relationship) (m : bool) (g g' : SemanticGraph) (a : ref) :
  Inv.reachable g ->
  SemanticGraphM.get_entity g (id e) = None ->
  SemanticGraphM.add_entity now e true g = (g', inr a) ->
  (exists k, od_get (_entity_index g) k = Some a) ->
  SemanticGraphM.get_entity g' (id e) = None
  /\ (source_id r = id e \/ target_id r = id e ->
      exists msg, SemanticGraphM.add_relationship now' r m g' = (g', inl (ValueError msg))).
Proof.
  intros Hreach Hfresh Hrun [k Hk].
  pose proof (reachable_inv g Hreach) as Hinv.
  assert (_entity_index g' = _entity_index g) as Hidx.
  { revert Hrun. unfold SemanticGraphM.add_entity.
    destruct (SemanticGraphM._find_matching_entity g e) as [|[c|]]; [by intros [=]| |].
    - destruct (deref (entities g) c); [by intros [=]|]. by intros [= <- _].
    - unfold SemanticGraphM.insert_entity, alloc. intros [= <- <-]. exfalso.
      destruct (Inv.entity_objects g (Inv.inv_primary g Hinv) k (length (entities g)))
        as (o & Ho & _); [by apply od_get_Some_elem|].
      apply lookup_lt_Some in Ho. lia. }
  assert (SemanticGraphM.get_entity g' (id e) = None) as Hnone
    by (unfold SemanticGraphM.get_entity in *; by rewrite Hidx).
  split; [done|]. intros Hends.
  unfold SemanticGraphM.add_relationship, od_mem.
  unfold SemanticGraphM.get_entity in Hnone.
  destruct Hends as [-> | Ht].
  - rewrite Hnone. simpl. by eexists.
  - destruct (od_get (_entity_index g') (source_id r)); simpl; [|by eexists].
    rewrite Ht, Hnone. simpl. by eexists.
Qed.

Lemma merged_entity_id_is_not_stored_witness :
  SemanticGraphM.get_entity
    (fst (SemanticGraphM.add_entity 0%Z (Sample.entity 2%N OBJECT "HAMMER" 0.5) true
            Scenario.one_hammer)) 2%N = None.
Proof.
  refine (proj1 (merged_entity_id_is_not_stored 0%Z 0%Z
                   (Sample.entity 2%N OBJECT "HAMMER" 0.5)
                   (Sample.relationship 9%N ON 2%N 1%N 0.5) true
                   Scenario.one_hammer _ 0%nat one_hammer_reachable eq_refl _ _)).
  - reflexivity.
  - exists 1%N. reflexivity.
Defined.

(** X11.  The two mutating operations never remove anything:
    [add_entity] keeps every key of the entity map and leaves the
    relationship map as it is; [add_relationship] keeps every key of the
    relationship map and leaves the entity map as it is, whatever the
    outcome of the call. *)
Theorem store_only_grows (now : datetime) (g : SemanticGraph) :
  (forall e m k,
     let g' := fst (SemanticGraphM.add_entity now e m g) in
     (is_Some (od_get (_entity_index g) k) -> is_Some (od_get (_entity_index g') k))
     /\ _relationship_index g' = _relationship_index g)
  /\ (forall r m k,
        let g' := fst (SemanticGraphM.add_relationship now r m g) in
        (is_Some (od_get (_relationship_index g) k) ->
         is_Some (od_get (_relationship_index g') k))
        /\ _entity_index g' = _entity_index g).
Proof.
  split.
  - intros e m k. simpl. unfold SemanticGraphM.add_entity.
    destruct (if m then SemanticGraphM._find_matching_entity g e else inr None)
      as [|[c|]]; simpl; [done| |].
    + destruct (deref (entities g) c); simpl; done.
    + unfold SemanticGraphM.insert_entity, alloc. simpl.
      split; [|done]. apply od_set_is_Some.
  - intros r m k. simpl. unfold SemanticGraphM.add_relationship.
    destruct (negb _); simpl; [done|]. destruct (negb _); simpl; [done|].
    destruct (if m then SemanticGraphM._find_existing_relationship g r else inr None)
      as [|[c|]]; simpl; [done| |].
    + destruct (deref (relationships g) c); simpl; done.
    + unfold SemanticGraphM.insert_relationship, alloc. simpl.
      split; [|done]. apply od_set_is_Some.
Qed.

Lemma store_only_grows_witness :
  is_Some (od_get (_entity_index
                     (fst (SemanticGraphM.add_entity 0%Z Scenario.table true
                             Scenario.one_hammer))) 1%N).
Proof.
  apply (proj1 (proj1 (store_only_grows 0%Z Scenario.one_hammer) Scenario.table true 1%N)).
  exists 0%nat. reflexivity.
Defined.

(** ** Stores whose entity ids are never reused *)

Section fresh_ids.
Import SemanticGraphM Inv FreshIds.

Lemma fresh_reachable g : FreshIds.reachable g -> Inv.reachable g.
Proof.
  induction 1 as [|now e m g _ IH Hv _|now r m g _ IH Hv].
  - apply Inv.reachable_init.
  - by apply Inv.reachable_add_entity.
  - by apply Inv.reachable_add_relationship.
Qed.

Lemma init_indices_exact : indices_exact init.
Proof. split; simpl; intros *; by rewrite lookup_empty. Qed.

(** One bucket after [_update_entity_indices]. *)
Lemma bucket_members (old : option (gset UUID)) (i k : UUID) :
  k ∈ default ∅ old ∪ {[ i ]} -> (exists ids, old = Some ids /\ k ∈ ids) \/ k = i.
Proof.
  intros Hk. apply elem_of_union in Hk as [Hk|Hk].
  - left. destruct old as [ids|]; simpl in Hk; [eauto | by apply elem_of_empty in Hk].
  - right. by apply elem_of_singleton in Hk.
Qed.

Lemma merge_entity_exact now g a k obj e :
  inv g -> indices_exact g ->
  (k, a) ∈ _entity_index g -> entities g !! a = Some obj ->
  indices_exact (merge_entity now g a obj e).
Proof.
  intros Hinv [Ht Hn] Hin Hobj.
  destruct (entity_objects g (inv_primary g Hinv) k a Hin) as (obj0 & Hobj0 & Hid & _).
  assert (obj0 = obj) as -> by congruence.
  assert (od_get (_entity_index g) k = Some a) as Hget.
  { apply od_elem_get; [|done]. apply (entity_keys_nodup g (inv_primary g Hinv)). }
  assert (a < length (entities g))%nat as Hlt by (by eapply lookup_lt_Some).
  set (obj' := EntityM.merge_observation now obj e 0.3).
  unfold merge_entity. fold obj'. split.
  - intros t ids k0. rewrite update_indices_by_type. simpl.
    destruct (decide _) as [->|Hne].
    + intros [= <-] Hk0. apply bucket_members in Hk0
        as [(ids & Hids & Hk0)| ->].
      * destruct (Ht _ _ _ Hids Hk0) as (a0 & e0 & Hk & He0 & Hty).
        destruct (decide (a0 = a)) as [->|Hne].
        -- exists a, obj'. rewrite store_lookup, decide_True by done.
           by rewrite decide_True by done.
        -- exists a0, e0. rewrite store_lookup, decide_False by done. done.
      * exists a, obj'. simpl. rewrite Hid, store_lookup, decide_True by done.
        by rewrite decide_True by done.
    + intros Hids Hk0. destruct (Ht _ _ _ Hids Hk0) as (a0 & e0 & Hk & He0 & Hty).
      destruct (decide (a0 = a)) as [->|Hne'].
      * exists a, obj'. rewrite store_lookup, decide_True by done.
        rewrite decide_True by done. split; [done|]. split; [done|].
        simpl. congruence.
      * exists a0, e0. rewrite store_lookup, decide_False by done. done.
  - intros n ids k0. rewrite update_indices_by_name. simpl.
    destruct (decide _) as [->|Hne].
    + intros [= <-] Hk0. apply bucket_members in Hk0
        as [(ids & Hids & Hk0)| ->].
      * destruct (Hn _ _ _ Hids Hk0) as (a0 & e0 & Hk & He0 & Hty).
        destruct (decide (a0 = a)) as [->|Hne].
        -- exists a, obj'. rewrite store_lookup, decide_True by done.
           by rewrite decide_True by done.
        -- exists a0, e0. rewrite store_lookup, decide_False by done. done.
      * exists a, obj'. simpl. rewrite Hid, store_lookup, decide_True by done.
        by rewrite decide_True by done.
    + intros Hids Hk0. destruct (Hn _ _ _ Hids Hk0) as (a0 & e0 & Hk & He0 & Hty).
      destruct (decide (a0 = a)) as [->|Hne'].
      * exists a, obj'. rewrite store_lookup, decide_True by done.
        rewrite decide_True by done. split; [done|]. split; [done|].
        simpl. congruence.
      * exists a0, e0. rewrite store_lookup, decide_False by done. done.
Qed.

Lemma insert_entity_exact g e :
  inv g -> indices_exact g -> od_get (_entity_index g) (id e) = None ->
  indices_exact (fst (insert_entity g e)).
Proof.
  intros Hinv [Ht Hn] Hfresh. unfold insert_entity, alloc. simpl fst.
  assert (forall k0 a0 (e0 : Entity), od_get (_entity_index g) k0 = Some a0 ->
            entities g !! a0 = Some e0 ->
            od_get (od_set (_entity_index g) (id e) (length (entities g))) k0 = Some a0
            /\ (entities g ++ [e]) !! a0 = Some e0) as Hold.
  { intros k0 a0 e0 Hk0 He0. rewrite od_get_set.
    destruct (decide (k0 = id e)) as [->|]; [congruence|].
    split; [done | by apply alloc_lookup_old]. }
  assert (od_get (od_set (_entity_index g) (id e) (length (entities g))) (id e)
          = Some (length (entities g))
          /\ (entities g ++ [e]) !! length (entities g) = Some e) as [Hnew1 Hnew2].
  { rewrite od_get_set, decide_True by done. split; [done | apply alloc_lookup_new]. }
  split.
  - intros t ids k0. rewrite update_indices_by_type. simpl.
    destruct (decide _) as [->|Hne].
    + intros [= <-] Hk0. apply bucket_members in Hk0
        as [(ids & Hids & Hk0)| ->].
      * destruct (Ht _ _ _ Hids Hk0) as (a0 & e0 & Hk & He0 & Hty).
        destruct (Hold _ _ _ Hk He0). eauto.
      * eauto.
    + intros Hids Hk0. destruct (Ht _ _ _ Hids Hk0) as (a0 & e0 & Hk & He0 & Hty).
      destruct (Hold _ _ _ Hk He0). eauto.
  - intros n ids k0. rewrite update_indices_by_name. simpl.
    destruct (decide _) as [->|Hne].
    + intros [= <-] Hk0. apply bucket_members in Hk0
        as [(ids & Hids & Hk0)| ->].
      * destruct (Hn _ _ _ Hids Hk0) as (a0 & e0 & Hk & He0 & Hty).
        destruct (Hold _ _ _ Hk He0). eauto.
      * eauto.
    + intros Hids Hk0. destruct (Hn _ _ _ Hids Hk0) as (a0 & e0 & Hk & He0 & Hty).
      destruct (Hold _ _ _ Hk He0). eauto.
Qed.

Lemma add_entity_exact now e m g :
  inv g -> indices_exact g -> od_get (_entity_index g) (id e) = None ->
  indices_exact (fst (add_entity now e m g)).
Proof.
  intros Hinv Hex Hfresh. unfold add_entity.
  assert (indices_exact (fst (let '(g', a) := insert_entity g e in
                              (g', inr a : result ref)))) as Hinsert.
  { pose proof (insert_entity_exact g e Hinv Hex Hfresh) as H.
    by destruct (insert_entity g e). }
  destruct m; [|exact Hinsert].
  destruct (_find_matching_entity g e) as [|[c|]] eqn:Hfind; [done| |exact Hinsert].
  destruct (find_matching_entity_stored g e c Hinv Hfind) as (k & obj & Hk & Hobj).
  rewrite (proj2 (deref_inr _ _ _) Hobj). simpl.
  by eapply merge_entity_exact.
Qed.

Lemma add_relationship_exact now r m g :
  indices_exact g -> indices_exact (fst (add_relationship now r m g)).
Proof.
  intros [Ht Hn]. unfold add_relationship.
  destruct (negb _); simpl; [by split|]. destruct (negb _); simpl; [by split|].
  destruct (if m then _find_existing_relationship g r else inr None) as [|[c|]];
    simpl; [by split| |by split].
  destruct (deref (relationships g) c); by split.
Qed.

Lemma fresh_indices_exact g : FreshIds.reachable g -> indices_exact g.
Proof.
  induction 1 as [|now e m g Hr IH Hv Hfresh|now r m g Hr IH Hv].
  - apply init_indices_exact.
  - apply add_entity_exact; [by apply reachable_inv, fresh_reachable | done..].
  - by apply add_relationship_exact.
Qed.
End fresh_ids.

Lemma kitchen_chain_fresh : FreshIds.reachable Scenario.kitchen_chain.
Proof.
  unfold Scenario.kitchen_chain.
  repeat first
    [ apply FreshIds.reachable_add_relationship; [|apply sample_relationship_valid]
    | apply FreshIds.reachable_add_entity; [|apply sample_entity_valid|reflexivity]
    | apply FreshIds.reachable_init ].
Qed.

(** X12.  In a reachable store [get_entities_by_type(t)] never raises; it
    lists stored entities only, none twice, and every stored entity of
    type [t] is in the list.  When no entity id was ever passed twice to
    [add_entity], every listed entity has type [t]. *)
Theorem get_entities_by_type_lists_stored (g : SemanticGraph) (t : EntityType) :
  Inv.reachable g ->
  exists found,
    SemanticGraphM.get_entities_by_type g t = inr found
    /\ NoDup found
    /\ (forall a, In a found -> exists k, od_get (_entity_index g) k = Some a)
    /\ (forall k a e, od_get (_entity_index g) k = Some a -> entities g !! a = Some e ->
                      entity_type e = t -> In a found)
    /\ (FreshIds.reachable g ->
        forall a, In a found -> exists e, entities g !! a = Some e /\ entity_type e = t).
Proof.
  intros Hreach. pose proof (reachable_inv g Hreach) as Hinv.
  unfold SemanticGraphM.get_entities_by_type.
  destruct (bucket_lookup g (default ∅ (_entities_by_type g !! t)) Hinv)
    as (found & Hrun & Hnd & Hfound).
  { intros k Hk. apply default_bucket in Hk as (ids & Hids & Hk).
    by eapply (Inv.by_type_in_primary g (Inv.inv_indices g Hinv)). }
  exists found. split; [done|]. split; [done|]. split; [|split].
  - intros a Ha. apply Hfound in Ha as (k & _ & Hk). eauto.
  - intros k a e Hk He Ht. apply Hfound.
    destruct (Inv.primary_in_by_type g (Inv.inv_indices g Hinv) k a e Hk He)
      as (ids & Hids & Hmem).
    destruct (Inv.entity_objects g (Inv.inv_primary g Hinv) k a) as (e' & He' & Hid & _);
      [by apply od_get_Some_elem|].
    assert (e' = e) as -> by congruence.
    exists k. split; [|done]. apply default_bucket. exists ids. by rewrite <- Ht, <- Hid.
  - intros Hfresh a Ha. apply Hfound in Ha as (k & Hk & Hka).
    apply default_bucket in Hk as (ids & Hids & Hk).
    destruct (FreshIds.by_type_exact g (fresh_indices_exact g Hfresh) t ids k Hids Hk)
      as (a' & e & Hka' & He & Hty).
    exists e. split; [congruence | done].
Qed.

Lemma get_entities_by_type_lists_stored_witness :
  exists found,
    SemanticGraphM.get_entities_by_type Scenario.kitchen_chain OBJECT = inr found
    /\ NoDup found
    /\ forall a, In a found ->
         exists e, entities Scenario.kitchen_chain !! a = Some e /\ entity_type e = OBJECT.
Proof.
  destruct (get_entities_by_type_lists_stored Scenario.kitchen_chain OBJECT
              kitchen_chain_reachable) as (found & Hrun & Hnd & _ & _ & Hexact).
  exists found. split; [exact Hrun|]. split; [exact Hnd|].
  exact (Hexact kitchen_chain_fresh).
Defined.

(** X13.  In a reachable store the exact lookup
    [get_entities_by_name(name, fuzzy=False)] never raises; it lists
    stored entities only, none twice, and every stored entity whose name
    equals the query up to case is in the list.  When no entity id was
    ever passed twice to [add_entity], every listed entity has that
    name. *)
Theorem get_entities_by_name_exact (g : SemanticGraph) (query : string) :
  Inv.reachable g ->
  exists found,
    SemanticGraphM.get_entities_by_name g query false = inr found
    /\ NoDup found
    /\ (forall a, In a found -> exists k, od_get (_entity_index g) k = Some a)
    /\ (forall k a e, od_get (_entity_index g) k = Some a -> entities g !! a = Some e ->
                      Py.lower (name e) = Py.lower query -> In a found)
    /\ (FreshIds.reachable g ->
        forall a, In a found ->
          exists e, entities g !! a = Some e /\ Py.lower (name e) = Py.lower query).
Proof.
  intros Hreach. pose proof (reachable_inv g Hreach) as Hinv.
  unfold SemanticGraphM.get_entities_by_name. simpl.
  destruct (bucket_lookup g (default ∅ (_entities_by_name g !! Py.lower query)) Hinv)
    as (found & Hrun & Hnd & Hfound).
  { intros k Hk. apply default_bucket in Hk as (ids & Hids & Hk).
    by eapply (Inv.by_name_in_primary g (Inv.inv_indices g Hinv)). }
  exists found. split; [done|]. split; [done|]. split; [|split].
  - intros a Ha. apply Hfound in Ha as (k & _ & Hk). eauto.
  - intros k a e Hk He Ht. apply Hfound.
    destruct (Inv.primary_in_by_name g (Inv.inv_indices g Hinv) k a e Hk He)
      as (ids & Hids & Hmem).
    destruct (Inv.entity_objects g (Inv.inv_primary g Hinv) k a) as (e' & He' & Hid & _);
      [by apply od_get_Some_elem|].
    assert (e' = e) as -> by congruence.
    exists k. split; [|done]. apply default_bucket. exists ids. by rewrite <- Ht, <- Hid.
  - intros Hfresh a Ha. apply Hfound in Ha as (k & Hk & Hka).
    apply default_bucket in Hk as (ids & Hids & Hk).
    destruct (FreshIds.by_name_exact g (fresh_indices_exact g Hfresh) _ ids k Hids Hk)
      as (a' & e & Hka' & He & Hty).
    exists e. split; [congruence | done].
Qed.

Lemma get_entities_by_name_exact_witness :
  exists found,
    SemanticGraphM.get_entities_by_name Scenario.kitchen_chain "CUP" false = inr found
    /\ NoDup found
    /\ forall a, In a found ->
         exists e, entities Scenario.kitchen_chain !! a = Some e
                   /\ Py.lower (name e) = Py.lower "CUP".
Proof.
  destruct (get_entities_by_name_exact Scenario.kitchen_chain "CUP"
              kitchen_chain_reachable) as (found & Hrun & Hnd & _ & _ & Hexact).
  exists found. split; [exact Hrun|]. split; [exact Hnd|].
  exact (Hexact kitchen_chain_fresh).
Defined.

(** ** The predecessor map mirrors the successor map *)

Section adjacency.
Import AdjInv.

Lemma od_mem_None {V} (d : odict UUID V) k : od_mem d k = false -> od_get d k = None.
Proof. unfold od_mem. by destruct (od_get d k). Qed.

Lemma ensure_node_edge_data G n u v :
  nx.get_edge_data (nx.ensure_node G n) u v = nx.get_edge_data G u v.
Proof.
  unfold nx.get_edge_data, nx.ensure_node.
  destruct (od_mem (nx._succ G) n) eqn:E; simpl; [done|].
  rewrite od_get_set. destruct (decide (u = n)) as [->|]; [|done].
  by rewrite (od_mem_None _ _ E).
Qed.

Lemma ensure_node_pred_data G n v u :
  adj_wf G -> pred_data (nx.ensure_node G n) v u = pred_data G v u.
Proof.
  intros Hwf. unfold pred_data, nx.ensure_node.
  destruct (od_mem (nx._succ G) n) eqn:E; simpl; [done|].
  rewrite od_get_set. destruct (decide (v = n)) as [->|]; [|done].
  rewrite <- (aw_pred_mem G Hwf) in E. by rewrite (od_mem_None _ _ E).
Qed.

Lemma ensure_node_adj G n : adj_wf G -> adj_wf (nx.ensure_node G n).
Proof.
  intros Hwf. split.
  - intros v nbrs. unfold nx.ensure_node.
    destruct (od_mem (nx._succ G) n); simpl; [apply (aw_pred_rows G Hwf)|].
    rewrite od_get_set. destruct (decide (v = n)) as [->|].
    + intros [= <-]. apply NoDup_nil_2.
    + apply (aw_pred_rows G Hwf).
  - intros x. unfold nx.ensure_node.
    destruct (od_mem (nx._succ G) n); simpl; [apply (aw_pred_mem G Hwf)|].
    by rewrite !od_mem_set, (aw_pred_mem G Hwf).
  - intros u v. rewrite ensure_node_edge_data, ensure_node_pred_data by done.
    apply (aw_mirror G Hwf).
Qed.

Lemma adj_wf_ext G G' :
  nx._succ G' = nx._succ G -> nx._pred G' = nx._pred G -> adj_wf G -> adj_wf G'.
Proof.
  intros Hs Hp [H1 H2 H3]. split.
  - intros v nbrs. rewrite Hp. apply H1.
  - intros n. rewrite Hs, Hp. apply H2.
  - intros u v. unfold nx.get_edge_data, pred_data. rewrite Hs, Hp. apply H3.
Qed.

Lemma add_node_adj G n e : adj_wf G -> adj_wf (nx.add_node G n e).
Proof.
  intros Hwf. apply (adj_wf_ext (nx.ensure_node G n)); [| |by apply ensure_node_adj];
    unfold nx.add_node, nx.ensure_node; by destruct (od_mem (nx._succ G) n).
Qed.

Lemma add_node_edge_data G n e u v :
  nx.get_edge_data (nx.add_node G n e) u v = nx.get_edge_data G u v.
Proof.
  rewrite <- (ensure_node_edge_data G n u v).
  unfold nx.get_edge_data, nx.add_node, nx.ensure_node.
  by destruct (od_mem (nx._succ G) n).
Qed.

Lemma add_edge_edge_data G u v key r u' v' :
  nx.get_edge_data (nx.add_edge G u v key r) u' v'
  = if decide (u' = u /\ v' = v) then Some (new_keydict G u v key r)
    else nx.get_edge_data G u' v'.
Proof.
  unfold new_keydict.
  rewrite <- (ensure_node_edge_data G u u v), <- (ensure_node_edge_data (nx.ensure_node G u) v u v).
  rewrite <- (ensure_node_edge_data G u u' v'), <- (ensure_node_edge_data (nx.ensure_node G u) v u' v').
  unfold nx.add_edge.
  set (G1 := nx.ensure_node (nx.ensure_node G u) v).
  unfold nx.get_edge_data. simpl.
  rewrite od_get_set. destruct (decide (u' = u)) as [->|Hu].
  - rewrite od_get_set. destruct (decide (v' = v)) as [->|Hv].
    + rewrite decide_True by done. by destruct (od_get (nx._succ G1) u).
    + rewrite decide_False by tauto. by destruct (od_get (nx._succ G1) u).
  - rewrite decide_False by tauto. done.
Qed.

Lemma add_edge_pred_data G u v key r v' u' :
  adj_wf G ->
  pred_data (nx.add_edge G u v key r) v' u'
  = if decide (u' = u /\ v' = v) then Some (new_keydict G u v key r)
    else pred_data G v' u'.
Proof.
  intros Hwf. unfold new_keydict.
  assert (adj_wf (nx.ensure_node G u)) as Hwf1 by (by apply ensure_node_adj).
  rewrite <- (ensure_node_edge_data G u u v), <- (ensure_node_edge_data (nx.ensure_node G u) v u v).
  rewrite <- (ensure_node_pred_data G u v' u') by done.
  rewrite <- (ensure_node_pred_data (nx.ensure_node G u) v v' u') by done.
  unfold nx.add_edge.
  set (G1 := nx.ensure_node (nx.ensure_node G u) v).
  unfold pred_data, nx.get_edge_data. simpl.
  rewrite od_get_set. destruct (decide (v' = v)) as [->|Hv].
  - rewrite od_get_set. destruct (decide (u' = u)) as [->|Hu].
    + rewrite decide_True by done. by destruct (od_get (nx._succ G1) u).
    + rewrite decide_False by tauto. by destruct (od_get (nx._pred G1) v).
  - rewrite decide_False by tauto. done.
Qed.

Lemma add_edge_adj G u v key r : adj_wf G -> adj_wf (nx.add_edge G u v key r).
Proof.
  intros Hwf.
  assert (adj_wf (nx.ensure_node (nx.ensure_node G u) v)) as Hwf1
    by (by do 2 apply ensure_node_adj).
  split.
  - intros v' nbrs. unfold nx.add_edge. simpl.
    set (G1 := nx.ensure_node (nx.ensure_node G u) v) in *.
    rewrite od_get_set. destruct (decide (v' = v)) as [->|Hv].
    + intros [= <-]. apply od_keys_set_nodup.
      destruct (od_get (nx._pred G1) v) as [row|] eqn:E; simpl.
      * by apply (aw_pred_rows G1 Hwf1 v).
      * apply NoDup_nil_2.
    + apply (aw_pred_rows G1 Hwf1).
  - intros n. unfold nx.add_edge. simpl.
    set (G1 := nx.ensure_node (nx.ensure_node G u) v) in *.
    rewrite !od_mem_set, (aw_pred_mem G1 Hwf1).
    assert (od_mem (nx._succ G1) u = true) as Hu
      by apply od_mem_is_Some, ensure_node_row, ensure_node_self.
    assert (od_mem (nx._succ G1) v = true) as Hv
      by apply od_mem_is_Some, ensure_node_self.
    destruct (decide (n = v)) as [Hnv|Hnv]; [subst n; by rewrite Hv, !orb_true_r|].
    destruct (decide (n = u)) as [Hnu|Hnu]; [subst n; by rewrite Hu, !orb_true_r|].
    by rewrite !bool_decide_eq_false_2.
  - intros u' v'. rewrite add_edge_edge_data, add_edge_pred_data by done.
    destruct (decide _); [done|]. apply (aw_mirror G Hwf).
Qed.
End adjacency.

Section store_edges_facts.
Import SemanticGraphM Inv AdjInv.

Lemma init_store_edges : store_edges init.
Proof.
  split.
  - split; simpl; try done.
  - intros k a r H. done.
  - intros n H. done.
Qed.

Lemma merge_entity_store_edges now g a obj e :
  store_edges g -> store_edges (merge_entity now g a obj e).
Proof. intros [H1 H2 H3]. by split. Qed.

Lemma ensure_node_has_node_inv G x n :
  nx.has_node (nx.ensure_node G x) n = true -> n = x \/ nx.has_node G n = true.
Proof.
  unfold nx.has_node, nx.ensure_node. destruct (od_mem (nx._succ G) x); simpl; [by right|].
  rewrite od_mem_set. destruct (decide (n = x)) as [->|Hne]; [by left|].
  rewrite bool_decide_eq_false_2 by done. by right.
Qed.

Lemma insert_entity_store_edges g e :
  store_edges g -> store_edges (fst (insert_entity g e)).
Proof.
  intros [H1 H2 H3]. unfold insert_entity, alloc. simpl fst. split; simpl.
  - by apply add_node_adj.
  - intros k a r Hk Hr. rewrite add_node_edge_data. by apply H2.
  - intros n Hn. rewrite od_get_set. destruct (decide (n = id e)); [by eexists|].
    apply H3. unfold nx.has_node, nx.add_node in *.
    destruct (od_mem (nx._succ (graph g)) (id e)); simpl in Hn;
      rewrite od_mem_set, bool_decide_eq_false_2 in Hn by done; done.
Qed.

Lemma merge_relationship_store_edges now g a obj :
  store_edges g -> relationships g !! a = Some obj ->
  store_edges (merge_relationship now g a obj).
Proof.
  intros [H1 H2 H3] Hobj. split; simpl; [done| |done].
  intros k a0 r Hk. rewrite store_lookup.
  destruct (decide (a0 = a)) as [->|Hne]; [|by apply H2].
  rewrite decide_True by (by eapply lookup_lt_Some). intros [= <-]. simpl.
  by apply H2.
Qed.

Lemma insert_relationship_store_edges g rel :
  inv g -> store_edges g ->
  is_Some (od_get (_entity_index g) (source_id rel)) ->
  is_Some (od_get (_entity_index g) (target_id rel)) ->
  store_edges (fst (insert_relationship g rel)).
Proof.
  intros Hinv [H1 H2 H3] Hs Ht. unfold insert_relationship, alloc. simpl fst.
  split; simpl.
  - by apply add_edge_adj.
  - intros k a r. rewrite od_get_set, add_edge_edge_data.
    destruct (decide (k = rel_id rel)) as [->|Hk].
    + intros [= <-]. rewrite alloc_lookup_new. intros [= <-].
      rewrite decide_True by done. eexists. split; [reflexivity|].
      unfold new_keydict. destruct (nx.get_edge_data _ _ _); simpl.
      * by rewrite od_get_set, decide_True.
      * by rewrite decide_True.
    + intros Hka Hr.
      destruct (relationship_objects g (inv_primary g Hinv) k a) as (r0 & Hr0 & _);
        [by apply od_get_Some_elem|].
      rewrite (alloc_lookup_old _ rel _ _ Hr0) in Hr. injection Hr as <-.
      destruct (H2 k a r0 Hka Hr0) as (kd & Hkd & Hget).
      destruct (decide _) as [[Hu Hv]|Hne].
      * rewrite Hu, Hv in Hkd. unfold new_keydict. rewrite Hkd.
        eexists. split; [reflexivity|]. by rewrite od_get_set, decide_False.
      * eauto.
  - intros n Hn. unfold nx.has_node, nx.add_edge in Hn. simpl in Hn.
    apply ensure_node_has_node_inv in Hn as [->|Hn]; [done|].
    apply ensure_node_has_node_inv in Hn as [->|Hn]; [done|].
    by apply H3.
Qed.

Lemma add_entity_store_edges now e m g :
  store_edges g -> store_edges (fst (add_entity now e m g)).
Proof.
  intros Hse. unfold add_entity.
  assert (store_edges (fst (let '(g', a) := insert_entity g e in (g', inr a : result ref))))
    as Hinsert.
  { pose proof (insert_entity_store_edges g e Hse) as H.
    by destruct (insert_entity g e). }
  destruct m; [|exact Hinsert].
  destruct (_find_matching_entity g e) as [|[c|]]; [done| |exact Hinsert].
  destruct (deref (entities g) c); [done|]. by apply merge_entity_store_edges.
Qed.

Lemma add_relationship_store_edges now rel m g :
  inv g -> store_edges g -> store_edges (fst (add_relationship now rel m g)).
Proof.
  intros Hinv Hse. unfold add_relationship.
  destruct (od_mem (_entity_index g) (source_id rel)) eqn:Hs; simpl; [|done].
  destruct (od_mem (_entity_index g) (target_id rel)) eqn:Ht; simpl; [|done].
  apply od_mem_is_Some in Hs, Ht.
  assert (store_edges (fst (let '(g', a) := insert_relationship g rel in
                            (g', inr a : result ref)))) as Hinsert.
  { pose proof (insert_relationship_store_edges g rel Hinv Hse Hs Ht) as H.
    by destruct (insert_relationship g rel). }
  destruct m; [|exact Hinsert].
  destruct (_find_existing_relationship g rel) as [|[c|]]; [done| |exact Hinsert].
  destruct (deref (relationships g) c) as [|obj] eqn:E; [done|].
  apply deref_inr in E. by apply merge_relationship_store_edges.
Qed.

Lemma reachable_store_edges g : reachable g -> store_edges g.
Proof.
  induction 1 as [|now e m g Hr IH Hv|now r m g Hr IH Hv].
  - apply init_store_edges.
  - by apply add_entity_store_edges.
  - apply add_relationship_store_edges; [by apply reachable_inv | done].
Qed.
End store_edges_facts.

(** ** get_relationships *)

Section relationship_lookups.
Import SemanticGraphM Inv GraphInv AdjInv.

Lemma edge_data_has_ref G u v kd key a :
  nx.get_edge_data G u v = Some kd -> (key, a) ∈ kd -> nx.has_edge_ref G u v key a.
Proof.
  unfold nx.get_edge_data. intros Hkd Hk.
  destruct (od_get (nx._succ G) u) as [nbrs|] eqn:Eu; [|done].
  exists nbrs, kd. split; [by apply od_get_Some_elem|].
  split; [by apply od_get_Some_elem | done].
Qed.

Lemma type_filter_loop g rtype rels :
  (forall a, In a rels -> is_Some (relationships g !! a)) ->
  match rtype with
  | Some ty =>
      for_each
        (fun acc a =>
           do r <- deref (relationships g) a;
           inr (if bool_decide (relation_type r = ty) then acc ++ [a] else acc))
        rels []
  | None => inr rels
  end = inr (List.filter (of_type g rtype) rels).
Proof.
  intros Hwf. destruct rtype as [ty|].
  - rewrite (filter_loop (relationships g) (fun r => bool_decide (relation_type r = ty)))
      by done.
    reflexivity.
  - f_equal. symmetry. by apply forallb_filter_id, forallb_forall.
Qed.

Lemma of_type_spec g rtype a r :
  relationships g !! a = Some r ->
  of_type g rtype a = true <-> forall ty, rtype = Some ty -> relation_type r = ty.
Proof.
  intros Hr. unfold of_type. rewrite Hr. destruct rtype as [ty|].
  - rewrite bool_decide_eq_true. split; [by intros ? ? [= <-] | auto].
  - split; [by intros _ ? [=] | done].
Qed.

Lemma out_edges_list g u nbrs :
  nx.has_node (graph g) u = true -> od_get (nx._succ (graph g)) u = Some nbrs ->
  exists rels,
    get_relationships g (Some u) None None = inr rels
    /\ forall a, In a rels <-> exists v key, In (v, key, a) (nx.row_edges nbrs).
Proof.
  intros Hnode Hrow. unfold get_relationships, nx.out_edges. rewrite Hnode, Hrow. simpl.
  eexists. split; [reflexivity|]. intros a. rewrite map_map. rewrite in_map_iff. split.
  - intros ([[v key] a'] & <- & Hin). eauto.
  - intros (v & key & Hin). by exists (v, key, a).
Qed.

Lemma in_edges_list g v nbrs :
  nx.has_node (graph g) v = true -> od_get (nx._pred (graph g)) v = Some nbrs ->
  exists rels,
    get_relationships g None (Some v) None = inr rels
    /\ forall a, In a rels <-> exists u key, In (u, key, a) (nx.row_edges nbrs).
Proof.
  intros Hnode Hrow. unfold get_relationships, nx.in_edges. rewrite Hnode, Hrow. simpl.
  eexists. split; [reflexivity|]. intros a. rewrite map_map. rewrite in_map_iff. split.
  - intros ([[u key] a'] & <- & Hin). eauto.
  - intros (u & key & Hin). by exists (u, key, a).
Qed.

Lemma get_relationships_typed g src tgt rtype rels :
  (forall a, In a rels -> is_Some (relationships g !! a)) ->
  get_relationships g src tgt None = inr rels ->
  get_relationships g src tgt rtype = inr (List.filter (of_type g rtype) rels).
Proof.
  intros Hwf. unfold get_relationships.
  destruct (match src, tgt with
            | Some s, Some t => _ | Some s, None => _ | None, Some t => _ | None, None => _
            end) as [|rels0]; simpl; [done|].
  intros [= ->]. by apply type_filter_loop.
Qed.

(** The relationships that leave a stored entity. *)
Lemma relationships_from g u rtype :
  inv g -> graph_wf g -> store_edges g -> nx.has_node (graph g) u = true ->
  exists rels,
    get_relationships g (Some u) None rtype = inr rels
    /\ (forall a, In a rels ->
          exists v key r, nx.has_edge_ref (graph g) u v key a
                          /\ relationships g !! a = Some r
                          /\ source_id r = u /\ target_id r = v
                          /\ forall ty, rtype = Some ty -> relation_type r = ty)
    /\ (forall k a r, od_get (_relationship_index g) k = Some a ->
                      relationships g !! a = Some r -> source_id r = u ->
                      (forall ty, rtype = Some ty -> relation_type r = ty) ->
                      In a rels).
Proof.
  intros Hinv Hwf Hse Hnode.
  destruct (node_has_row g u Hwf Hnode) as [nbrs Hrow].
  destruct (out_edges_list g u nbrs Hnode Hrow) as (rels & Hrels & Hin).
  assert (forall a, In a rels ->
            exists v key r, nx.has_edge_ref (graph g) u v key a
                            /\ relationships g !! a = Some r
                            /\ source_id r = u /\ target_id r = v) as Hsound.
  { intros a Ha. apply Hin in Ha as (v & key & Ha).
    apply row_edges_elem in Ha as (kd & Hv & Hk).
    assert (nx.has_edge_ref (graph g) u v key a) as Hedge
      by (exists nbrs, kd; split; [by apply od_get_Some_elem | done]).
    destruct (inv_edges g Hinv _ _ _ _ Hedge) as [r Hr].
    destruct (gw_endpoints g Hwf _ _ _ _ _ Hedge Hr) as [? ?].
    exists v, key, r. done. }
  exists (List.filter (of_type g rtype) rels). split.
  { apply get_relationships_typed; [|done].
    intros a Ha. destruct (Hsound a Ha) as (? & ? & r & _ & Hr & _). by eexists. }
  split.
  - intros a Ha. apply filter_In in Ha as [Ha Hty].
    destruct (Hsound a Ha) as (v & key & r & ? & Hr & ? & ?).
    exists v, key, r. repeat split; try done. by apply (of_type_spec g rtype a r Hr).
  - intros k a r Hk Hr Hsrc Hty. apply filter_In. split.
    + destruct (se_indexed g Hse k a r Hk Hr) as (kd & Hkd & Hget).
      apply Hin. exists (target_id r), k. apply row_edges_elem. exists kd.
      rewrite Hsrc in Hkd. unfold nx.get_edge_data in Hkd. rewrite Hrow in Hkd.
      split; by apply od_get_Some_elem.
    + by apply (of_type_spec g rtype a r Hr).
Qed.

(** The relationships that arrive at a stored entity. *)
Lemma relationships_to g v rtype :
  inv g -> graph_wf g -> store_edges g -> nx.has_node (graph g) v = true ->
  exists rels,
    get_relationships g None (Some v) rtype = inr rels
    /\ (forall a, In a rels ->
          exists u key r, nx.has_edge_ref (graph g) u v key a
                          /\ relationships g !! a = Some r
                          /\ source_id r = u /\ target_id r = v
                          /\ forall ty, rtype = Some ty -> relation_type r = ty)
    /\ (forall k a r, od_get (_relationship_index g) k = Some a ->
                      relationships g !! a = Some r -> target_id r = v ->
                      (forall ty, rtype = Some ty -> relation_type r = ty) ->
                      In a rels).
Proof.
  intros Hinv Hwf Hse Hnode.
  pose proof (se_adj g Hse) as Hadj.
  assert (exists nbrs, od_get (nx._pred (graph g)) v = Some nbrs) as [nbrs Hrow].
  { destruct (node_has_row g v Hwf Hnode) as [row Hrow'].
    assert (od_mem (nx._pred (graph g)) v = true) as Hm.
    { rewrite (aw_pred_mem _ Hadj). apply od_mem_is_Some. by eexists. }
    apply od_mem_is_Some in Hm as [nbrs ?]. by exists nbrs. }
  destruct (in_edges_list g v nbrs Hnode Hrow) as (rels & Hrels & Hin).
  assert (forall a, In a rels ->
            exists u key r, nx.has_edge_ref (graph g) u v key a
                            /\ relationships g !! a = Some r
                            /\ source_id r = u /\ target_id r = v) as Hsound.
  { intros a Ha. apply Hin in Ha as (u & key & Ha).
    apply row_edges_elem in Ha as (kd & Hu & Hk).
    assert (nx.get_edge_data (graph g) u v = Some kd) as Hkd.
    { rewrite (aw_mirror _ Hadj). unfold pred_data. rewrite Hrow.
      apply od_elem_get; [|done]. by apply (aw_pred_rows _ Hadj v). }
    pose proof (edge_data_has_ref _ _ _ _ _ _ Hkd Hk) as Hedge.
    destruct (inv_edges g Hinv _ _ _ _ Hedge) as [r Hr].
    destruct (gw_endpoints g Hwf _ _ _ _ _ Hedge Hr) as [? ?].
    exists u, key, r. done. }
  exists (List.filter (of_type g rtype) rels). split.
  { apply get_relationships_typed; [|done].
    intros a Ha. destruct (Hsound a Ha) as (? & ? & r & _ & Hr & _). by eexists. }
  split.
  - intros a Ha. apply filter_In in Ha as [Ha Hty].
    destruct (Hsound a Ha) as (u & key & r & ? & Hr & ? & ?).
    exists u, key, r. repeat split; try done. by apply (of_type_spec g rtype a r Hr).
  - intros k a r Hk Hr Htgt Hty. apply filter_In. split.
    + destruct (se_indexed g Hse k a r Hk Hr) as (kd & Hkd & Hget).
      apply Hin. exists (source_id r), k. apply row_edges_elem. exists kd.
      rewrite Htgt, (aw_mirror _ Hadj) in Hkd. unfold pred_data in Hkd.
      rewrite Hrow in Hkd. split; by apply od_get_Some_elem.
    + by apply (of_type_spec g rtype a r Hr).
Qed.
End relationship_lookups.

(** X14.  In a reachable store, [get_relationships(source_id=u,
    relation_type=t)] on a stored entity [u] never raises; every
    relationship it returns has source [u] and, when a type is given, that
    type; and every relationship of the relationship map with source [u]
    and that type is returned. *)
Theorem get_relationships_by_source (g : SemanticGraph) (u : UUID)
    (rtype : option RelationType) :
  Inv.reachable g -> is_Some (SemanticGraphM.get_entity g u) ->
  exists rels,
    SemanticGraphM.get_relationships g (Some u) None rtype = inr rels
    /\ (forall a, In a rels ->
          exists r, relationships g !! a = Some r /\ source_id r = u
                    /\ forall ty, rtype = Some ty -> relation_type r = ty)
    /\ (forall k a r, od_get (_relationship_index g) k = Some a ->
                      relationships g !! a = Some r -> source_id r = u ->
                      (forall ty, rtype = Some ty -> relation_type r = ty) ->
                      In a rels).
Proof.
  intros Hreach Hu.
  pose proof (reachable_graph_wf g Hreach) as Hwf.
  destruct (relationships_from g u rtype (reachable_inv g Hreach) Hwf
              (reachable_store_edges g Hreach) (GraphInv.gw_stored g Hwf u Hu))
    as (rels & Hrun & Hsound & Hcomplete).
  exists rels. split; [done|]. split; [|done].
  intros a Ha. destruct (Hsound a Ha) as (v & key & r & _ & Hr & Hs & _ & Hty). eauto.
Qed.

Lemma get_relationships_by_source_witness :
  exists rels,
    SemanticGraphM.get_relationships Scenario.kitchen_chain (Some 11%N) None (Some ON)
    = inr rels
    /\ forall a, In a rels ->
         exists r, relationships Scenario.kitchen_chain !! a = Some r /\ source_id r = 11%N.
Proof.
  destruct (get_relationships_by_source Scenario.kitchen_chain 11%N (Some ON)
              kitchen_chain_reachable (ex_intro _ 0%nat eq_refl))
    as (rels & Hrun & Hsound & _).
  exists rels. split; [exact Hrun|]. intros a Ha.
  destruct (Hsound a Ha) as (r & Hr & Hs & _). exists r. split; [exact Hr | exact Hs].
Defined.

(** X15.  In a reachable store, [get_relationships(target_id=v,
    relation_type=t)] on a stored entity [v] never raises; every
    relationship it returns has target [v] and, when a type is given, that
    type; and every relationship of the relationship map with target [v]
    and that type is returned. *)
Theorem get_relationships_by_target (g : SemanticGraph) (v : UUID)
    (rtype : option RelationType) :
  Inv.reachable g -> is_Some (SemanticGraphM.get_entity g v) ->
  exists rels,
    SemanticGraphM.get_relationships g None (Some v) rtype = inr rels
    /\ (forall a, In a rels ->
          exists r, relationships g !! a = Some r /\ target_id r = v
                    /\ forall ty, rtype = Some ty -> relation_type r = ty)
    /\ (forall k a r, od_get (_relationship_index g) k = Some a ->
                      relationships g !! a = Some r -> target_id r = v ->
                      (forall ty, rtype = Some ty -> relation_type r = ty) ->
                      In a rels).
Proof.
  intros Hreach Hv.
  pose proof (reachable_graph_wf g Hreach) as Hwf.
  destruct (relationships_to g v rtype (reachable_inv g Hreach) Hwf
              (reachable_store_edges g Hreach) (GraphInv.gw_stored g Hwf v Hv))
    as (rels & Hrun & Hsound & Hcomplete).
  exists rels. split; [done|]. split; [|done].
  intros a Ha. destruct (Hsound a Ha) as (u & key & r & _ & Hr & _ & Ht & Hty). eauto.
Qed.

Lemma get_relationships_by_target_witness :
  exists rels,
    SemanticGraphM.get_relationships Scenario.kitchen_chain None (Some 12%N) None
    = inr rels
    /\ forall a, In a rels ->
         exists r, relationships Scenario.kitchen_chain !! a = Some r /\ target_id r = 12%N.
Proof.
  destruct (get_relationships_by_target Scenario.kitchen_chain 12%N None
              kitchen_chain_reachable (ex_intro _ 1%nat eq_refl))
    as (rels & Hrun & Hsound & _).
  exists rels. split; [exact Hrun|]. intros a Ha.
  destruct (Hsound a Ha) as (r & Hr & Ht & _). exists r. split; [exact Hr | exact Ht].
Defined.

(** ** add_relationship *)

Section add_relationship_facts.
Import SemanticGraphM Inv GraphInv AdjInv.

Lemma pair_relationships g s t kd :
  nx.get_edge_data (graph g) s t = Some kd ->
  get_relationships g (Some s) (Some t) None = inr (od_values kd).
Proof.
  unfold get_relationships, nx.has_edge. intros Hkd. rewrite Hkd.
  unfold nx.get_edge_data in Hkd.
  destruct (od_get (nx._succ (graph g)) s) as [nbrs|]; [|done].
  unfold od_mem. by rewrite Hkd.
Qed.

Lemma od_get_values {V} (d : odict UUID V) k v : od_get d k = Some v -> In v (od_values d).
Proof.
  intros H. apply od_get_Some_elem in H. unfold od_values.
  apply in_map_iff. exists (k, v). split; [done|]. by apply list_elem_of_In.
Qed.

Lemma head_filter {A} (P : A -> bool) (l : list A) x :
  In x l -> P x = true -> exists y, head (List.filter P l) = Some y /\ In y l /\ P y = true.
Proof.
  intros Hin HP. destruct (List.filter P l) as [|y l'] eqn:E.
  - assert (In x (List.filter P l)) as H by (by apply filter_In). by rewrite E in H.
  - exists y. split; [done|]. apply filter_In. rewrite E. by left.
Qed.

Lemma find_existing_same_triple g rel k0 a0 r0 :
  inv g -> graph_wf g -> store_edges g ->
  od_get (_relationship_index g) k0 = Some a0 -> relationships g !! a0 = Some r0 ->
  source_id r0 = source_id rel -> target_id r0 = target_id rel ->
  relation_type r0 = relation_type rel ->
  exists a obj,
    _find_existing_relationship g rel = inr (Some a)
    /\ relationships g !! a = Some obj
    /\ source_id obj = source_id rel /\ target_id obj = target_id rel
    /\ relation_type obj = relation_type rel.
Proof.
  intros Hinv Hwf Hse Hk0 Hr0 Hs Ht Hty.
  destruct (se_indexed g Hse k0 a0 r0 Hk0 Hr0) as (kd & Hkd & Hget).
  rewrite Hs, Ht in Hkd.
  assert (forall a, In a (od_values kd) ->
            exists obj, relationships g !! a = Some obj
                        /\ source_id obj = source_id rel /\ target_id obj = target_id rel)
    as Hsound.
  { intros a Ha. apply od_values_elem in Ha as [key Hkey].
    pose proof (edge_data_has_ref _ _ _ _ _ _ Hkd Hkey) as Hedge.
    destruct (inv_edges g Hinv _ _ _ _ Hedge) as [obj Hobj].
    destruct (gw_endpoints g Hwf _ _ _ _ _ Hedge Hobj) as [? ?]. eauto. }
  unfold _find_existing_relationship.
  rewrite (get_relationships_typed g _ _ (Some (relation_type rel)) (od_values kd)).
  - simpl.
    destruct (head_filter (of_type g (Some (relation_type rel))) (od_values kd) a0)
      as (a & Hhead & Hin & Hof).
    { by eapply od_get_values. }
    { apply (of_type_spec g _ a0 r0 Hr0). by intros ? [= <-]. }
    destruct (Hsound a Hin) as (obj & Hobj & ? & ?).
    exists a, obj. rewrite Hhead. repeat split; try done.
    by apply (proj1 (of_type_spec g (Some (relation_type rel)) a obj Hobj) Hof).
  - intros a Ha. destruct (Hsound a Ha) as (obj & Hobj & _). by eexists.
  - by apply pair_relationships.
Qed.
End add_relationship_facts.

(** X16.  With both endpoints stored,
    [add_relationship(rel, merge_if_exists=False)] never raises: the
    relationship is then stored under its id with its contents unchanged,
    [get_relationships(source_id, target_id)] of its endpoints returns
    it, every other id keeps its relationship, no stored object is
    touched and the entities are left alone. *)
Theorem add_relationship_without_merge (now : datetime) (r : Relationship)
    (g : SemanticGraph) :
  is_Some (SemanticGraphM.get_entity g (source_id r)) ->
  is_Some (SemanticGraphM.get_entity g (target_id r)) ->
  exists g' a,
    SemanticGraphM.add_relationship now r false g = (g', inr a)
    /\ od_get (_relationship_index g') (rel_id r) = Some a
    /\ relationships g' !! a = Some r
    /\ (exists rels,
          SemanticGraphM.get_relationships g' (Some (source_id r)) (Some (target_id r)) None
          = inr rels /\ In a rels)
    /\ (forall k, k ≠ rel_id r ->
                  od_get (_relationship_index g') k = od_get (_relationship_index g) k)
    /\ (forall a' x, relationships g !! a' = Some x -> relationships g' !! a' = Some x)
    /\ _entity_index g' = _entity_index g
    /\ entities g' = entities g.
Proof.
  intros Hs Ht. unfold SemanticGraphM.get_entity in *.
  apply od_mem_is_Some in Hs, Ht.
  unfold SemanticGraphM.add_relationship. rewrite Hs, Ht. simpl.
  unfold SemanticGraphM.insert_relationship, alloc.
  eexists _, _. split; [reflexivity|]. simpl.
  split; [by rewrite od_get_set, decide_True|].
  split; [apply alloc_lookup_new|].
  split.
  { eexists. split.
    - apply pair_relationships. simpl. rewrite add_edge_edge_data.
      by rewrite decide_True.
    - apply (od_get_values _ (rel_id r)). unfold AdjInv.new_keydict.
      destruct (nx.get_edge_data _ _ _); simpl.
      + by rewrite od_get_set, decide_True.
      + by rewrite decide_True. }
  split; [intros k Hk; by rewrite od_get_set, decide_False|].
  split; [intros a' x Hx; by apply alloc_lookup_old|]. done.
Qed.

Lemma add_relationship_without_merge_witness :
  exists g' a,
    SemanticGraphM.add_relationship 0%Z (Sample.relationship 23%N NEAR 11%N 13%N 0.5)
      false Scenario.kitchen_chain = (g', inr a)
    /\ od_get (_relationship_index g') 23%N = Some a.
Proof.
  destruct (add_relationship_without_merge 0%Z (Sample.relationship 23%N NEAR 11%N 13%N 0.5)
              Scenario.kitchen_chain (ex_intro _ 0%nat eq_refl) (ex_intro _ 2%nat eq_refl))
    as (g' & a & Hrun & Hget & _).
  exists g', a. split; [exact Hrun | exact Hget].
Defined.

(** X17.  In a reachable store that holds a relationship with the same
    source, target and type as the incoming one,
    [add_relationship(rel, merge_if_exists=True)] stores nothing new and
    ignores the contents of the incoming relationship: it returns a stored
    relationship with that source, target and type, whose object is
    replaced by the result of [merge_observation()] with weight 0.3; the
    relationship map, the multigraph and the entities are unchanged. *)
Theorem add_relationship_merges_same_triple (now : datetime) (r : Relationship)
    (g : SemanticGraph) (k0 : UUID) (a0 : ref) (r0 : Relationship) :
  Inv.reachable g ->
  od_get (_relationship_index g) k0 = Some a0 -> relationships g !! a0 = Some r0 ->
  source_id r0 = source_id r -> target_id r0 = target_id r ->
  relation_type r0 = relation_type r ->
  exists g' a obj,
    SemanticGraphM.add_relationship now r true g = (g', inr a)
    /\ relationships g !! a = Some obj
    /\ source_id obj = source_id r /\ target_id obj = target_id r
    /\ relation_type obj = relation_type r
    /\ relationships g' !! a = Some (RelationshipM.merge_observation now obj 0.3)
    /\ (forall a', a' ≠ a -> relationships g' !! a' = relationships g !! a')
    /\ _relationship_index g' = _relationship_index g
    /\ graph g' = graph g
    /\ _entity_index g' = _entity_index g
    /\ entities g' = entities g.
Proof.
  intros Hreach Hk0 Hr0 Hs Ht Hty.
  pose proof (reachable_inv g Hreach) as Hinv.
  destruct (find_existing_same_triple g r k0 a0 r0 Hinv (reachable_graph_wf g Hreach)
              (reachable_store_edges g Hreach) Hk0 Hr0 Hs Ht Hty)
    as (a & obj & Hfind & Hobj & Hs' & Ht' & Hty').
  destruct (Inv.relationship_objects g (Inv.inv_primary g Hinv) k0 a0)
    as (r0' & Hr0' & _ & _ & Hsrc & Htgt); [by apply od_get_Some_elem|].
  assert (r0' = r0) as -> by congruence.
  rewrite Hs in Hsrc. rewrite Ht in Htgt. apply od_mem_is_Some in Hsrc, Htgt.
  unfold SemanticGraphM.add_relationship. rewrite Hsrc, Htgt, Hfind. simpl.
  rewrite (proj2 (deref_inr _ _ _) Hobj).
  eexists _, a, obj. split; [reflexivity|].
  do 4 (split; [done|]).
  unfold SemanticGraphM.merge_relationship. simpl.
  split.
  { rewrite store_lookup, decide_True by done.
    by rewrite decide_True by (by eapply lookup_lt_Some). }
  split; [|done].
  intros a' Hne. by rewrite store_lookup, decide_False.
Qed.

Lemma add_relationship_merges_same_triple_witness :
  exists g' a obj,
    SemanticGraphM.add_relationship 0%Z (Sample.relationship 99%N ON 11%N 12%N 0.5)
      true Scenario.kitchen_chain = (g', inr a)
    /\ relationships Scenario.kitchen_chain !! a = Some obj
    /\ _relationship_index g' = _relationship_index Scenario.kitchen_chain.
Proof.
  destruct (add_relationship_merges_same_triple 0%Z
              (Sample.relationship 99%N ON 11%N 12%N 0.5) Scenario.kitchen_chain
              21%N 0%nat Scenario.cup_on_table kitchen_chain_reachable
              eq_refl eq_refl eq_refl eq_refl eq_refl)
    as (g' & a & obj & Hrun & Hobj & _ & _ & _ & _ & _ & Hidx & _).
  exists g', a, obj. split; [exact Hrun|]. split; [exact Hobj | exact Hidx].
Defined.

(** ** get_context *)

Section context_facts.
Import SemanticGraphM Query Inv GraphInv AdjInv Context ContextSpec.

Lemma is_spatial_IN r : relation_type r = IN -> RelationshipM.is_spatial r = true.
Proof. intros H. unfold RelationshipM.is_spatial. rewrite H. by vm_compute. Qed.

Lemma is_spatial_NEAR r : relation_type r = NEAR -> RelationshipM.is_spatial r = true.
Proof. intros H. unfold RelationshipM.is_spatial. rewrite H. by vm_compute. Qed.

Lemma outgoing_step_spec g u a r container nearby :
  relationships g !! a = Some r -> source_id r = u ->
  exists st1,
    outgoing_step g (container, nearby) a = inr st1
    /\ (forall c, st1.1 = Some c -> container = Some c \/ leaves_to g u IN c a)
    /\ (is_Some container \/ (exists c, leaves_to g u IN c a) -> is_Some st1.1)
    /\ (forall c, In c st1.2 <-> In c nearby \/ leaves_to g u NEAR c a).
Proof.
  intros Hr Hsrc. unfold outgoing_step. rewrite (proj2 (deref_inr _ _ _) Hr). simpl.
  assert (forall ty c, leaves_to g u ty c a <->
            relation_type r = ty /\ get_entity g (target_id r) = Some c) as Hleaves.
  { intros ty c. split.
    - intros (r' & Hr' & _ & ? & ?). assert (r' = r) as -> by congruence. done.
    - intros [? ?]. by exists r. }
  destruct (RelationshipM.is_spatial r) eqn:Hsp; simpl.
  - destruct (get_entity g (target_id r)) as [target|] eqn:Htgt.
    + case_bool_decide as Hin; [|case_bool_decide as Hnear].
      * eexists. split; [reflexivity|]. simpl. split; [|split].
        -- intros c [= <-]. right. by apply Hleaves.
        -- intros _. by eexists.
        -- intros c. rewrite Hleaves. split; [auto|]. intros [?|[? _]]; [done|congruence].
      * eexists. split; [reflexivity|]. simpl. split; [|split].
        -- auto.
        -- intros [?|[c Hc]]; [done|]. apply Hleaves in Hc as [? _]. congruence.
        -- intros c. rewrite in_app_iff, Hleaves. simpl. split.
           ++ intros [?|[<-|[]]]; auto.
           ++ intros [?|[_ [= <-]]]; auto.
      * eexists. split; [reflexivity|]. simpl. split; [|split].
        -- auto.
        -- intros [?|[c Hc]]; [done|]. apply Hleaves in Hc as [? _]. congruence.
        -- intros c. rewrite Hleaves. split; [auto|]. intros [?|[? _]]; [done|congruence].
    + eexists. split; [reflexivity|]. simpl. split; [|split].
      * auto.
      * intros [?|[c Hc]]; [done|]. apply Hleaves in Hc as [_ ?]. congruence.
      * intros c. rewrite Hleaves. split; [auto|]. intros [?|[_ ?]]; [done|congruence].
  - assert (relation_type r <> IN) as HnIN
      by (intros E; by rewrite (is_spatial_IN r E) in Hsp).
    assert (relation_type r <> NEAR) as HnNEAR
      by (intros E; by rewrite (is_spatial_NEAR r E) in Hsp).
    eexists. split; [reflexivity|]. simpl. split; [|split].
    + auto.
    + intros [?|[c Hc]]; [done|]. apply Hleaves in Hc as [? _]. congruence.
    + intros c. rewrite Hleaves. split; [auto|]. intros [?|[? _]]; [done|congruence].
Qed.

(** The first loop of [get_context]. *)
Lemma outgoing_loop g u rels :
  (forall a, In a rels -> exists r, relationships g !! a = Some r /\ source_id r = u) ->
  forall st, exists st',
    for_each (outgoing_step g) rels st = inr st'
    /\ (forall c, st'.1 = Some c ->
          st.1 = Some c \/ exists a, In a rels /\ leaves_to g u IN c a)
    /\ (is_Some st.1 \/ (exists c a, In a rels /\ leaves_to g u IN c a) -> is_Some st'.1)
    /\ (forall c, In c st'.2 <->
          In c st.2 \/ exists a, In a rels /\ leaves_to g u NEAR c a).
Proof.
  induction rels as [|a rels IH]; intros Hwf [container nearby].
  - exists (container, nearby). split; [reflexivity|]. simpl. split; [auto|].
    split; [by intros [?|(? & ? & [] & _)]|].
    intros c. split; [auto|]. by intros [?|(? & [] & _)].
  - destruct (Hwf a) as (r & Hr & Hsrc); [by left|].
    destruct (outgoing_step_spec g u a r container nearby Hr Hsrc)
      as (st1 & Hstep & S1 & S2 & S3).
    destruct (IH (fun a0 H => Hwf a0 (or_intror H)) st1) as (st' & Hrun & H1 & H2 & H3).
    exists st'. split; [cbn [for_each]; rewrite Hstep; exact Hrun|]. simpl in *. split; [|split].
    + intros c Hc. destruct (H1 c Hc) as [Hc1|(a0 & Ha0 & Hl)].
      * destruct (S1 c Hc1) as [?|Hl]; [by left|]. right. exists a. auto.
      * right. exists a0. auto.
    + intros [Hs|(c & a0 & [<-|Ha0] & Hl)]; apply H2.
      * left. apply S2. by left.
      * left. apply S2. right. by exists c.
      * right. by exists c, a0.
    + intros c. rewrite H3, S3. split.
      * intros [[?|Hl]|(a0 & Ha0 & Hl)]; [by left| |]; right; [exists a|exists a0]; auto.
      * intros [?|(a0 & [<-|Ha0] & Hl)]; [by left; left|by left; right|right; eauto].
Qed.

Lemma incoming_loop g v rels :
  (forall a, In a rels -> exists r, relationships g !! a = Some r /\ target_id r = v) ->
  forall st, exists st',
    for_each (incoming_step g) rels st = inr st'
    /\ (forall c, In c st' <->
          In c st \/ exists a, In a rels /\ arrives_from g v IN c a).
Proof.
  induction rels as [|a rels IH]; intros Hwf st.
  - exists st. split; [reflexivity|]. intros c. split; [auto|]. by intros [?|(? & [] & _)].
  - destruct (Hwf a) as (r & Hr & Htgt); [by left|].
    assert (forall c, arrives_from g v IN c a <->
              relation_type r = IN /\ get_entity g (source_id r) = Some c) as Harr.
    { intros c. split.
      - intros (r' & Hr' & _ & ? & ?). assert (r' = r) as -> by congruence. done.
      - intros [? ?]. by exists r. }
    assert (exists st1, incoming_step g st a = inr st1
                        /\ forall c, In c st1 <-> In c st \/ arrives_from g v IN c a)
      as (st1 & Hstep & S1).
    { unfold incoming_step. rewrite (proj2 (deref_inr _ _ _) Hr). simpl.
      case_bool_decide as Hin.
      - destruct (get_entity g (source_id r)) as [source|] eqn:Hsrc.
        + eexists. split; [reflexivity|]. intros c. rewrite in_app_iff, Harr. simpl. split.
          * intros [?|[<-|[]]]; auto.
          * intros [?|[_ [= <-]]]; auto.
        + eexists. split; [reflexivity|]. intros c. rewrite Harr. split; [auto|].
          intros [?|[_ ?]]; [done|congruence].
      - eexists. split; [reflexivity|]. intros c. rewrite Harr. split; [auto|].
        intros [?|[? _]]; [done|congruence]. }
    destruct (IH (fun a0 H => Hwf a0 (or_intror H)) st1) as (st' & Hrun & H1).
    exists st'. split; [cbn [for_each]; rewrite Hstep; exact Hrun|].
    intros c. rewrite H1, S1. split.
    + intros [[?|Hl]|(a0 & Ha0 & Hl)]; [by left| |]; right; [exists a|exists a0];
        simpl; auto.
    + intros [?|(a0 & [<-|Ha0] & Hl)]; [by left; left|by left; right|right; eauto].
Qed.
End context_facts.

(** X18.  In a reachable store [get_context(entity, radius)] on a stored
    entity never raises.  Its [container] is the target of an outgoing IN
    relationship of the entity, and there is one whenever such a
    relationship has a stored target; [nearby] lists exactly the targets
    of the outgoing NEAR relationships; [contents] lists exactly the
    sources of the incoming IN relationships; [spatial_neighbors] is the
    result of [query_spatial(entity, max_hops=radius)]. *)
Theorem get_context_contents (g : SemanticGraph) (entity : Entity) (radius : Z) :
  Inv.reachable g -> is_Some (SemanticGraphM.get_entity g (id entity)) ->
  exists ctx rels_out rels_in,
    Context.get_context g entity radius = inr ctx
    /\ SemanticGraphM.get_relationships g (Some (id entity)) None None = inr rels_out
    /\ SemanticGraphM.get_relationships g None (Some (id entity)) None = inr rels_in
    /\ Context.ctx_entity ctx = entity
    /\ Query.query_spatial g entity None radius = inr (Context.spatial_neighbors ctx)
    /\ (forall c, Context.container ctx = Some c ->
          exists a, In a rels_out /\ ContextSpec.leaves_to g (id entity) IN c a)
    /\ ((exists c a, In a rels_out /\ ContextSpec.leaves_to g (id entity) IN c a) ->
        is_Some (Context.container ctx))
    /\ (forall c, In c (Context.nearby ctx) <->
          exists a, In a rels_out /\ ContextSpec.leaves_to g (id entity) NEAR c a)
    /\ (forall c, In c (Context.contents ctx) <->
          exists a, In a rels_in /\ ContextSpec.arrives_from g (id entity) IN c a).
Proof.
  intros Hreach Hstored.
  pose proof (reachable_inv g Hreach) as Hinv.
  pose proof (reachable_graph_wf g Hreach) as Hwf.
  pose proof (reachable_store_edges g Hreach) as Hse.
  pose proof (GraphInv.gw_stored g Hwf _ Hstored) as Hnode.
  destruct (relationships_from g (id entity) None Hinv Hwf Hse Hnode)
    as (rels_out & Hout & Hout_sound & _).
  destruct (relationships_to g (id entity) None Hinv Hwf Hse Hnode)
    as (rels_in & Hin & Hin_sound & _).
  destruct (outgoing_loop g (id entity) rels_out) with (st := (@None ref, @nil ref))
    as (out & Hloop1 & O1 & O2 & O3).
  { intros a Ha. destruct (Hout_sound a Ha) as (? & ? & r & _ & ? & ? & _). eauto. }
  destruct (incoming_loop g (id entity) rels_in) with (st := @nil ref)
    as (cont & Hloop2 & I1).
  { intros a Ha. destruct (Hin_sound a Ha) as (? & ? & r & _ & ? & _ & ? & _). eauto. }
  destruct (query_spatial_total g entity None radius Hinv Hwf Hnode) as [sp Hsp].
  unfold Context.get_context. rewrite Hout. simpl. rewrite Hloop1. simpl.
  rewrite Hin. simpl. rewrite Hloop2. simpl. rewrite Hsp. simpl.
  eexists _, rels_out, rels_in. split; [reflexivity|]. simpl.
  do 4 (split; [done|]). split; [|split; [|split]].
  - intros c Hc. destruct (O1 c Hc) as [?|?]; done.
  - intros H. apply O2. by right.
  - intros c. rewrite O3. simpl. split; [by intros [[]|?] | auto].
  - intros c. rewrite I1. simpl. split; [by intros [[]|?] | auto].
Qed.

Lemma get_context_contents_witness :
  exists ctx, Context.get_context Scenario.kitchen_chain Scenario.table 2 = inr ctx
              /\ Context.ctx_entity ctx = Scenario.table.
Proof.
  destruct (get_context_contents Scenario.kitchen_chain Scenario.table 2
              kitchen_chain_reachable (ex_intro _ 1%nat eq_refl))
    as (ctx & rels_out & rels_in & Hrun & _ & _ & Hent & _).
  exists ctx. split; [exact Hrun | exact Hent].
Defined.

(** ** The pairs of query_spatial *)

Section spatial_pairs.
Import SemanticGraphM Query SpatialSpec.

Lemma spatial_result_pairs g rtype rel a results p :
  relationships g !! a = Some rel ->
  (forall ty, rtype = Some ty -> relation_type rel = ty) ->
  In p (spatial_result g rel a results) <->
  In p results \/ (p.2 = a /\ spatial_pair g rtype p).
Proof.
  intros Hrel Hty. unfold spatial_result.
  assert (p.2 = a /\ spatial_pair g rtype p <->
          p.2 = a /\ RelationshipM.is_spatial rel = true
          /\ get_entity g (target_id rel) = Some p.1) as ->.
  { split.
    - intros [<- (r & Hr & ? & ? & ?)]. assert (r = rel) as -> by congruence. done.
    - intros (<- & ? & ?). split; [done|]. by exists rel. }
  destruct (RelationshipM.is_spatial rel); [|split; [auto|by intros [?|(_ & ? & _)]]].
  destruct (get_entity g (target_id rel)) as [target|];
    [|split; [auto|by intros [?|(_ & _ & ?)]]].
  rewrite in_app_iff. simpl. destruct p as [t a']. simpl. split.
  - intros [?|[[= <- <-]|[]]]; auto.
  - intros [?|(-> & _ & [= ->])]; auto.
Qed.

Lemma direct_step_pairs g rtype results a results' p :
  direct_step g rtype results a = inr results' ->
  In p results' <-> In p results \/ (p.2 = a /\ spatial_pair g rtype p).
Proof.
  unfold direct_step.
  destruct (deref (relationships g) a) as [|rel] eqn:Ed; simpl; [done|].
  apply deref_inr in Ed.
  assert (forall ty, rtype = Some ty -> relation_type rel <> ty ->
            ~ (p.2 = a /\ spatial_pair g rtype p)) as Hskip.
  { intros ty -> Hne [<- (r & Hr & _ & Hty & _)].
    assert (r = rel) as -> by congruence. by apply Hne, Hty. }
  destruct rtype as [ty|].
  - case_bool_decide as Hty.
    + intros [= <-]. split; [auto|]. intros [?|H]; [done|]. by apply (Hskip ty) in H.
    + intros [= <-].
      apply spatial_result_pairs; [done|]. by intros ? [= <-].
  - intros [= <-]. apply spatial_result_pairs; [done|]. by intros ? [=].
Qed.

Lemma direct_loop_pairs g rtype rels : forall acc results p,
  for_each (direct_step g rtype) rels acc = inr results ->
  In p results <-> In p acc \/ direct_pair g rtype rels p.
Proof.
  unfold direct_pair.
  induction rels as [|a rels IH]; intros acc results p; simpl.
  - intros [= <-]. split; [auto|]. by intros [?|[[] _]].
  - destruct (direct_step g rtype acc a) as [|acc1] eqn:Hstep; simpl; [done|].
    intros Hrun. rewrite (IH _ _ _ Hrun), (direct_step_pairs _ _ _ _ _ _ Hstep). split.
    + intros [[?|[<- ?]]|[? ?]]; auto.
    + intros [?|[[<-|?] ?]]; auto.
Qed.

Lemma hop_step_pairs g rtype st a st' p :
  hop_step g rtype st a = inr st' ->
  (In p st.1.1 -> In p st'.1.1)
  /\ (In p st'.1.1 -> In p st.1.1 \/ (p.2 = a /\ spatial_pair g rtype p)).
Proof.
  destruct st as [[results visited] next]. unfold hop_step.
  destruct (deref (relationships g) a) as [|rel] eqn:Ed; simpl; [done|].
  apply deref_inr in Ed.
  case_bool_decide; [|intros [= <-]; simpl; auto].
  destruct rtype as [ty|].
  - case_bool_decide as Hty.
    + intros [= <-]. simpl.
      rewrite (spatial_result_pairs g (Some ty) rel a results p Ed)
        by (by intros ? [= <-]).
      auto.
    + intros [= <-]. simpl. auto.
  - intros [= <-]. simpl.
    rewrite (spatial_result_pairs g None rel a results p Ed) by (by intros ? [=]).
    auto.
Qed.

Lemma hop_loop_pairs g rtype rels : forall st st' p,
  for_each (hop_step g rtype) rels st = inr st' ->
  (In p st.1.1 -> In p st'.1.1)
  /\ (In p st'.1.1 -> In p st.1.1 \/ direct_pair g rtype rels p).
Proof.
  unfold direct_pair.
  induction rels as [|a rels IH]; intros st st' p; simpl.
  - intros [= <-]. auto.
  - destruct (hop_step g rtype st a) as [|st1] eqn:Hstep; simpl; [done|].
    intros Hrun. destruct (IH _ _ p Hrun) as [I1 I2].
    destruct (hop_step_pairs _ _ _ _ _ p Hstep) as [S1 S2].
    split; [auto|]. intros Hp.
    destruct (I2 Hp) as [Hp1|[? ?]]; [|auto].
    destruct (S2 Hp1) as [?|[<- ?]]; auto.
Qed.

Lemma hop_entity_pairs g rtype st eid st' p :
  hop_entity g rtype st eid = inr st' ->
  (In p st.1.1 -> In p st'.1.1)
  /\ (In p st'.1.1 -> In p st.1.1 \/ spatial_pair g rtype p).
Proof.
  unfold hop_entity.
  destruct (get_relationships g (Some eid) None None) as [|rels]; simpl; [done|].
  intros Hrun. destruct (hop_loop_pairs _ _ _ _ _ p Hrun) as [H1 H2].
  split; [done|]. intros Hp. destruct (H2 Hp) as [?|[_ ?]]; auto.
Qed.

Lemma hop_levels_pairs g rtype n : forall results visited current res p,
  hop_levels n g rtype results visited current = inr res ->
  (In p results -> In p res)
  /\ (In p res -> In p results \/ spatial_pair g rtype p).
Proof.
  induction n as [|n IH]; intros results visited current res p; simpl.
  - intros [= <-]. auto.
  - destruct (for_each _ _ _) as [|[[results' visited'] next]] eqn:Hloop; simpl; [done|].
    intros Hrest. destruct (IH _ _ _ _ p Hrest) as [I1 I2].
    assert ((In p results -> In p results')
            /\ (In p results' -> In p results \/ spatial_pair g rtype p)) as [L1 L2].
    { revert Hloop.
      apply (for_each_inv
               (fun st : hop_state =>
                  (In p results -> In p st.1.1)
                  /\ (In p st.1.1 -> In p results \/ spatial_pair g rtype p))
               (hop_entity g rtype) (elements current)); [|by auto].
      intros st eid st' _ [J1 J2] Hstep.
      destruct (hop_entity_pairs _ _ _ _ _ p Hstep) as [E1 E2].
      split; [auto|]. intros Hp. destruct (E2 Hp) as [?|?]; auto. }
    split; [auto|]. intros Hp. destruct (I2 Hp) as [?|?]; auto.
Qed.
End spatial_pairs.

(** X19.  Whatever the store and the hop bound, every pair returned by
    [query_spatial] is made of a spatial relationship, of the requested
    type when one is given, and of the stored entity that is its
    target. *)
Theorem query_spatial_only_spatial (g : SemanticGraph) (entity : Entity)
    (rtype : option RelationType) (h : Z) (results : list (ref * ref)) :
  Query.query_spatial g entity rtype h = inr results ->
  forall p, In p results -> SpatialSpec.spatial_pair g rtype p.
Proof.
  unfold Query.query_spatial.
  destruct (SemanticGraphM.get_relationships g (Some (id entity)) None None)
    as [|rels]; simpl; [done|].
  destruct (for_each (Query.direct_step g rtype) rels []) as [|direct] eqn:Hdirect;
    simpl; [done|].
  assert (forall p, In p direct -> SpatialSpec.spatial_pair g rtype p) as Hd.
  { intros p Hp. apply (direct_loop_pairs _ _ _ _ _ p Hdirect) in Hp as [[]|[_ ?]]. done. }
  case_bool_decide.
  - intros Hrun p Hp.
    destruct (hop_levels_pairs _ _ _ _ _ _ _ p Hrun) as [_ H2].
    destruct (H2 Hp) as [?|?]; auto.
  - intros [= <-]. done.
Qed.

Lemma query_spatial_only_spatial_witness :
  SpatialSpec.spatial_pair Scenario.kitchen_chain None (1%nat, 0%nat).
Proof.
  apply (query_spatial_only_spatial Scenario.kitchen_chain Scenario.cup None 2
           [(1%nat, 0%nat); (1%nat, 0%nat)] eq_refl).
  left. reflexivity.
Defined.

(** X20.  For every [max_hops <= 2], [query_spatial] returns the same
    pairs as with [max_hops = 1]: with 0 or a negative bound the list is
    the list of the direct neighbours, and with 2 the frontier loop only
    repeats pairs of that list. *)
Theorem query_spatial_second_hop_adds_nothing (g : SemanticGraph) (entity : Entity)
    (rtype : option RelationType) (h : Z) (direct results : list (ref * ref)) :
  (h <= 2)%Z ->
  Query.query_spatial g entity rtype 1 = inr direct ->
  Query.query_spatial g entity rtype h = inr results ->
  (forall p, In p results <-> In p direct)
  /\ ((h <= 1)%Z -> results = direct).
Proof.
  intros Hh. unfold Query.query_spatial.
  destruct (SemanticGraphM.get_relationships g (Some (id entity)) None None)
    as [|rels] eqn:Hrels; simpl; [done|].
  destruct (for_each (Query.direct_step g rtype) rels []) as [|direct0] eqn:Hdirect;
    simpl; [done|].
  intros [= <-].
  case_bool_decide as Hlt.
  - assert (h = 2%Z) as -> by lia. simpl.
    rewrite elements_singleton. simpl.
    destruct (Query.hop_entity g rtype (direct0, {[id entity]}, ∅) (id entity))
      as [|[[results' visited'] next]] eqn:Hhop; simpl; [done|].
    intros [= <-]. split; [|lia]. intros p.
    unfold Query.hop_entity in Hhop. rewrite Hrels in Hhop. simpl in Hhop.
    destruct (hop_loop_pairs _ _ _ _ _ p Hhop) as [H1 H2]. simpl in *.
    split; [|done]. intros Hp. destruct (H2 Hp) as [?|Hpair]; [done|].
    apply (direct_loop_pairs _ _ _ _ _ p Hdirect). by right.
  - intros [= <-]. done.
Qed.

Lemma query_spatial_second_hop_adds_nothing_witness :
  Query.query_spatial Scenario.kitchen_chain Scenario.cup None 1 = inr [(1%nat, 0%nat)]
  /\ Query.query_spatial Scenario.kitchen_chain Scenario.cup None 2
     = inr [(1%nat, 0%nat); (1%nat, 0%nat)]
  /\ forall p, In p [(1%nat, 0%nat); (1%nat, 0%nat)] <-> In p [(1%nat, 0%nat)].
Proof.
  split; [reflexivity|]. split; [reflexivity|].
  refine (proj1 (query_spatial_second_hop_adds_nothing Scenario.kitchen_chain Scenario.cup
                   None 2 [(1%nat, 0%nat)] [(1%nat, 0%nat); (1%nat, 0%nat)]
                   _ eq_refl eq_refl)).
  lia.
Defined.

(** ** Paths between stored entities *)

Section find_path_props.
Import SemanticGraphM Query Inv GraphInv AdjInv GraphSpec.

Lemma view_path_rows g types s t l :
  inv g -> graph_wf g -> is_Some (od_get (nx._succ (graph g)) s) ->
  view_path g types s t l ->
  forall x, In x l -> is_Some (od_get (nx._succ (graph g)) x).
Proof.
  intros Hinv Hwf Hs. unfold view_path.
  induction 1 as [|t v l Hpath IH (vs & Hvs & Hv)].
  - by intros x [<-|[]].
  - intros x Hx. apply in_app_or in Hx as [Hx|[<-|[]]]; [by apply IH|].
    assert (is_Some (od_get (nx._succ (graph g)) t)) as Ht.
    { unfold nx.view_successors in Hvs.
      destruct (od_get (nx._succ (graph g)) t); [by eexists | done]. }
    destruct (view_successors_total g types t Hinv Hwf Ht) as (vs' & Hvs' & Hrows).
    assert (vs' = vs) as -> by congruence. by apply Hrows.
Qed.
End find_path_props.

(** X21.  In a reachable store the path from a stored entity to itself
    is the list that holds this entity alone, for every allow-set. *)
Theorem find_path_to_itself (g : SemanticGraph) (entity : Entity)
    (types : option (gset RelationType)) :
  Inv.reachable g -> is_Some (SemanticGraphM.get_entity g (id entity)) ->
  Query.find_path g entity entity types
  = inr (Some [SemanticGraphM.get_entity g (id entity)]).
Proof.
  intros Hreach Hstored.
  pose proof (GraphInv.gw_stored g (reachable_graph_wf g Hreach) _ Hstored) as Hnode.
  unfold Query.find_path, nx.shortest_path. rewrite Hnode. simpl.
  destruct (nx.levels_bound (graph g)); simpl;
    by rewrite bool_decide_eq_true_2.
Qed.

Lemma find_path_to_itself_witness :
  Query.find_path Scenario.kitchen_chain Scenario.cup Scenario.cup None
  = inr (Some [SemanticGraphM.get_entity Scenario.kitchen_chain (id Scenario.cup)]).
Proof.
  apply (find_path_to_itself Scenario.kitchen_chain Scenario.cup None
           kitchen_chain_reachable).
  exists 0%nat. reflexivity.
Defined.

(** X22.  In a reachable store a path returned by [find_path] holds
    stored entities only: no element of the list is [None]. *)
Theorem find_path_lists_stored_entities (g : SemanticGraph) (source target : Entity)
    (types : option (gset RelationType)) (found : list (option ref)) :
  Inv.reachable g ->
  Query.find_path g source target types = inr (Some found) ->
  forall x, In x found -> is_Some x.
Proof.
  intros Hreach Hrun.
  pose proof (reachable_inv g Hreach) as Hinv.
  pose proof (reachable_graph_wf g Hreach) as Hwf.
  pose proof (reachable_store_edges g Hreach) as Hse.
  assert (nx.has_node (graph g) (id source) = true) as Hnode.
  { revert Hrun. unfold Query.find_path, nx.shortest_path.
    destruct (nx.has_node (graph g) (id source)); [done|]. simpl. done. }
  pose proof (find_path_general g source target types) as Hgen.
  rewrite Hrun in Hgen. destruct Hgen as (ids & -> & _ & _ & Hpath & _).
  intros x Hx. apply in_map_iff in Hx as (k & <- & Hk).
  apply (AdjInv.se_nodes g Hse). apply row_is_node; [done|].
  eapply view_path_rows; try done.
  destruct (node_has_row g _ Hwf Hnode) as [nbrs ->]. by eexists.
Qed.

Lemma find_path_lists_stored_entities_witness :
  Query.find_path Scenario.kitchen_chain Scenario.cup Scenario.kitchen None
    = inr (Some [Some 0%nat; Some 1%nat; Some 2%nat])
  /\ forall x, In x [Some 0%nat; Some 1%nat; Some 2%nat] -> is_Some x.
Proof.
  split; [reflexivity|].
  apply (find_path_lists_stored_entities Scenario.kitchen_chain Scenario.cup
           Scenario.kitchen None [Some 0%nat; Some 1%nat; Some 2%nat]
           kitchen_chain_reachable).
  reflexivity.
Defined.

(** ** Validation of documents *)

Section codec_props.
Import Codec.

Lemma check_unit_cases x :
  (0 <= x <= 1 /\ check_unit x = inr x)
  \/ (~ 0 <= x <= 1 /\ check_unit x = inl ValidationError).
Proof.
  unfold check_unit, Py.lt, Py.gt.
  destruct (Rlt_dec x 0); simpl; [right; split; [lra|done]|].
  destruct (Rlt_dec 1 x); simpl; [right; split; [lra|done]|].
  left. split; [lra|done].
Qed.

Lemma EntityType_of_value_cases s :
  (exists t, EntityType_value t = s /\ EntityType_of_value s = inr t)
  \/ ((forall t, EntityType_value t <> s) /\ EntityType_of_value s = inl ValidationError).
Proof.
  unfold EntityType_of_value.
  destruct (find _ EntityType_all) as [t|] eqn:E.
  - left. exists t. split; [|done]. apply find_some in E as [_ E].
    by apply String.eqb_eq in E.
  - right. split; [|done]. intros t Ht.
    assert (In t EntityType_all) as Hin by (destruct t; simpl; tauto).
    pose proof (find_none _ _ E t Hin) as Hf. simpl in Hf.
    rewrite Ht, String.eqb_refl in Hf. done.
Qed.

Lemma RelationType_of_value_cases s :
  (exists t, RelationType_value t = s /\ RelationType_of_value s = inr t)
  \/ ((forall t, RelationType_value t <> s)
      /\ RelationType_of_value s = inl ValidationError).
Proof.
  unfold RelationType_of_value.
  destruct (find _ RelationType_all) as [t|] eqn:E.
  - left. exists t. split; [|done]. apply find_some in E as [_ E].
    by apply String.eqb_eq in E.
  - right. split; [|done]. intros t Ht.
    assert (In t RelationType_all) as Hin by (destruct t; simpl; tauto).
    pose proof (find_none _ _ E t Hin) as Hf. simpl in Hf.
    rewrite Ht, String.eqb_refl in Hf. done.
Qed.
End codec_props.





(** ** stats and export on reachable stores *)

Section stats_props.
Import SemanticGraphM Inv Codec.

Lemma add_entity_index_nonempty now e m g :
  inv g -> _entity_index (fst (add_entity now e m g)) <> [].
Proof.
  intros Hinv. unfold add_entity.
  assert (forall d : odict UUID ref, od_set d (id e) (length (entities g)) <> []) as Hset.
  { intros [|[k v] d]; simpl; [done|]. by destruct (decide _). }
  destruct m; [|unfold insert_entity, alloc; simpl; apply Hset].
  destruct (find_matching_entity_total g e Hinv) as [hit Hfind]. rewrite Hfind.
  destruct hit as [c|]; [|unfold insert_entity, alloc; simpl; apply Hset].
  destruct (find_matching_entity_stored g e c Hinv Hfind) as (k & obj & Hk & Hobj).
  rewrite (proj2 (deref_inr _ _ _) Hobj). simpl. intros E. rewrite E in Hk.
  by apply elem_of_nil in Hk.
Qed.

Lemma add_relationship_entity_index now r m g :
  _entity_index (fst (add_relationship now r m g)) = _entity_index g.
Proof.
  unfold add_relationship.
  destruct (negb _); simpl; [done|]. destruct (negb _); simpl; [done|].
  destruct (if m then _find_existing_relationship g r else inr None) as [|[c|]];
    simpl; [done| |done].
  by destruct (deref (relationships g) c).
Qed.

(** A reachable store without entities is the empty store. *)
Lemma reachable_without_entities g : reachable g -> _entity_index g = [] -> g = init.
Proof.
  induction 1 as [|now e m g Hr IH Hv|now r m g Hr IH Hv]; intros Hempty.
  - done.
  - by apply (add_entity_index_nonempty now e m g (reachable_inv g Hr)) in Hempty.
  - rewrite add_relationship_entity_index in Hempty. rewrite (IH Hempty). reflexivity.
Qed.
End stats_props.

(** X25.  In a reachable store [stats()] returns only when the store is
    empty, with all counts and the density at 0, and [export_to_dict()]
    then returns a document without records; as soon as one entity is
    stored both raise [AttributeError], because the keys of the type
    index are plain strings. *)
Theorem stats_only_on_empty_store (now : datetime) (g : SemanticGraph) :
  Inv.reachable g ->
  (g = SemanticGraphM.init
   /\ Codec.stats g
      = inr {| Codec.total_entities := 0; Codec.total_relationships := 0;
               Codec.entities_by_type := []; Codec.spatial_relationships := 0;
               Codec.graph_density := 0 |}
   /\ exists doc, Codec.export_to_dict now g = inr doc
                  /\ Codec.doc_entities doc = [] /\ Codec.doc_relationships doc = [])
  \/ (_entity_index g <> []
      /\ Codec.stats g = inl AttributeError
      /\ Codec.export_to_dict now g = inl AttributeError).
Proof.
  intros Hreach. destruct (_entity_index g) as [|[k a] d] eqn:E.
  - left. rewrite (reachable_without_entities g Hreach E).
    split; [done|]. split.
    + unfold Codec.stats. simpl. rewrite map_to_list_empty. simpl.
      reflexivity.
    + unfold Codec.export_to_dict, Codec.stats. simpl. rewrite map_to_list_empty. simpl.
      eexists. split; [reflexivity|]. done.
  - right. pose proof (reachable_inv g Hreach) as Hinv.
    split; [done|]. split.
    + apply stats_raises. apply (stored_entity_in_type_index g k a Hinv).
      rewrite E. apply list_elem_of_here.
    + apply export_raises; [done|]. by rewrite E.
Qed.

Lemma stats_only_on_empty_store_witness :
  Codec.stats Scenario.one_hammer = inl AttributeError.
Proof.
  destruct (stats_only_on_empty_store 0%Z Scenario.one_hammer one_hammer_reachable)
    as [(Hinit & _)|(_ & Hstats & _)].
  - discriminate Hinit.
  - exact Hstats.
Defined.

(** ** import_from_dict *)

Section import_props.
Import SemanticGraphM Inv Codec.

Lemma Entity_from_dict_id d e : Entity_from_dict d = inr e -> id e = d_id d.
Proof.
  unfold Entity_from_dict.
  destruct (EntityType_of_value _); simpl; [done|].
  destruct (check_unit _); simpl; [done|]. by intros [= <-].
Qed.

Lemma Relationship_from_dict_ends d r :
  Relationship_from_dict d = inr r ->
  source_id r = d_source_id d /\ target_id r = d_target_id d.
Proof.
  unfold Relationship_from_dict.
  destruct (RelationType_of_value _); simpl; [done|].
  destruct (d_spatial d) as [s|]; simpl.
  - destruct (check_unit (sp_confidence s)); simpl; [done|].
    destruct (check_unit _); simpl; [done|]. by intros [= <-].
  - destruct (check_unit _); simpl; [done|]. by intros [= <-].
Qed.

Lemma Entity_from_dict_error d exc : Entity_from_dict d = inl exc -> exc = ValidationError.
Proof.
  unfold Entity_from_dict.
  destruct (EntityType_of_value_cases (d_entity_type d)) as [(t & _ & ->)|[_ ->]]; simpl;
    [|by intros [= <-]].
  destruct (check_unit_cases (d_confidence d)) as [[_ ->]|[_ ->]]; simpl;
    [done | by intros [= <-]].
Qed.

Lemma Relationship_from_dict_error d exc :
  Relationship_from_dict d = inl exc -> exc = ValidationError.
Proof.
  unfold Relationship_from_dict.
  destruct (RelationType_of_value_cases (d_relation_type d)) as [(t & _ & ->)|[_ ->]];
    simpl; [|by intros [= <-]].
  destruct (d_spatial d) as [s|]; simpl.
  - destruct (check_unit_cases (sp_confidence s)) as [[_ ->]|[_ ->]]; simpl;
      [|by intros [= <-]].
    destruct (check_unit_cases (d_rel_confidence d)) as [[_ ->]|[_ ->]]; simpl;
      [done | by intros [= <-]].
  - destruct (check_unit_cases (d_rel_confidence d)) as [[_ ->]|[_ ->]]; simpl;
      [done | by intros [= <-]].
Qed.

(** The first loop of the import: the ids it stores are ids of the
    entity documents. *)
Lemma import_entities_ids now es : forall g,
  match for_each (import_entity now) es g with
  | inr g' => forall k, is_Some (od_get (_entity_index g') k) ->
                        is_Some (od_get (_entity_index g) k) \/ In k (map d_id es)
  | inl exc => exc = ValidationError
  end.
Proof.
  induction es as [|d es IH]; intros g; simpl; [auto|].
  unfold import_entity at 1.
  destruct (Entity_from_dict d) as [exc|e] eqn:Ed; simpl.
  { by apply Entity_from_dict_error in Ed. }
  apply Entity_from_dict_id in Ed.
  unfold add_entity, insert_entity, alloc. simpl.
  match goal with |- context [for_each _ es ?g1] => specialize (IH g1) end.
  destruct (for_each _ es _) as [exc|g']; [done|].
  intros k Hk. destruct (IH k Hk) as [Hk1|?]; [|auto].
  simpl in Hk1. rewrite od_get_set in Hk1.
  destruct (decide (k = id e)) as [->|]; [right; left; congruence | by left].
Qed.

(** The second loop: with a relationship document whose endpoint is not
    stored, the loop raises. *)
Lemma import_relationships_dangling now rd rs : forall g,
  In rd rs ->
  od_get (_entity_index g) (d_source_id rd) = None
  \/ od_get (_entity_index g) (d_target_id rd) = None ->
  exists exc, for_each (import_relationship now) rs g = inl exc
              /\ ImportSpec.import_error exc.
Proof.
  induction rs as [|d rs IH]; intros g Hin Hmissing; simpl; [done|].
  unfold import_relationship at 1.
  destruct (Relationship_from_dict d) as [exc|r] eqn:Ed; simpl.
  { apply Relationship_from_dict_error in Ed. exists exc. split; [done|by left]. }
  apply Relationship_from_dict_ends in Ed as [Hs Ht].
  unfold add_relationship.
  destruct (od_mem (_entity_index g) (source_id r)) eqn:Ms; simpl;
    [|eexists; split; [reflexivity|right; by eexists]].
  destruct (od_mem (_entity_index g) (target_id r)) eqn:Mt; simpl;
    [|eexists; split; [reflexivity|right; by eexists]].
  unfold insert_relationship, alloc. simpl.
  destruct Hin as [->|Hin].
  - exfalso. rewrite Hs in Ms. rewrite Ht in Mt. unfold od_mem in Ms, Mt.
    destruct Hmissing as [H|H]; rewrite H in *; done.
  - by apply IH.
Qed.
End import_props.

(** X26.  [import_from_dict] raises, and returns no store, on every
    document with a relationship whose source or target is not the id of
    an entity of the document; the exception is the [ValueError] of
    [add_relationship] or the validation error of an earlier record. *)
Theorem import_rejects_dangling_relationship (now : datetime)
    (es : list Codec.EntityDoc) (rs : list Codec.RelationshipDoc)
    (rd : Codec.RelationshipDoc) :
  In rd rs ->
  ~ In (Codec.d_source_id rd) (map Codec.d_id es)
  \/ ~ In (Codec.d_target_id rd) (map Codec.d_id es) ->
  exists exc, Codec.import_records now es rs = inl exc /\ ImportSpec.import_error exc.
Proof.
  intros Hin Hmissing. unfold Codec.import_records.
  pose proof (import_entities_ids now es SemanticGraphM.init) as Hids.
  destruct (for_each (Codec.import_entity now) es SemanticGraphM.init) as [exc|g1]; simpl.
  { exists exc. split; [done|by left]. }
  apply import_relationships_dangling with rd; [done|].
  assert (forall k, ~ In k (map Codec.d_id es) -> od_get (_entity_index g1) k = None) as Hnone.
  { intros k Hk. destruct (od_get (_entity_index g1) k) as [a|] eqn:E; [|done].
    destruct (Hids k) as [[? H]|?]; [by eexists|done|done]. }
  destruct Hmissing as [H|H]; [left|right]; by apply Hnone.
Qed.

Lemma import_rejects_dangling_relationship_witness :
  exists exc,
    Codec.import_records 0%Z [Codec.Entity_to_dict Scenario.cup]
      [Codec.Relationship_to_dict Scenario.cup_on_table] = inl exc
    /\ ImportSpec.import_error exc.
Proof.
  apply (import_rejects_dangling_relationship 0%Z [Codec.Entity_to_dict Scenario.cup]
           [Codec.Relationship_to_dict Scenario.cup_on_table]
           (Codec.Relationship_to_dict Scenario.cup_on_table)).
  - left. reflexivity.
  - right. simpl. intros [H|[]]. discriminate H.
Defined.



(** ** The photo processor *)

Section extraction_facts.
Import PhotoProcessor.
Variable uuid4 : nat -> UUID.
Variable Path_stem : string -> string.
Variable Image_open : string -> string + (Z * Z * string).

(** What the loop over [entity_keywords] appends. *)
Lemma detect_loop now d kws : forall acc n,
  exists ents,
    fold_left (detect_step uuid4 now d (Py.lower d)) kws (acc, n)
    = (acc ++ ents, (n + length ents)%nat)
    /\ map name ents = List.filter (fun kw => Py.str_in kw (Py.lower d)) (map fst kws)
    /\ map id ents = map uuid4 (seq n (length ents))
    /\ Forall (fun e => confidence e = 0.6 /\ tags (semantic e) = {[ name e ]}
                        /\ description (semantic e) = Some d
                        /\ aliases (semantic e) = [] /\ embedding (visual e) = None
                        /\ In (name e, entity_type e) kws) ents.
Proof.
  induction kws as [|[keyword t] kws IH]; intros acc n.
  - exists []. simpl. by rewrite app_nil_r, Nat.add_0_r.
  - cbn [fold_left detect_step map fst List.filter].
    destruct (Py.str_in keyword (Py.lower d)) eqn:E.
    + destruct (IH (acc ++ [new_entity now (uuid4 n) t keyword (described d {[keyword]}) 0.6])
                   (S n)) as (ents & -> & Hn & Hi & Hall).
      eexists (_ :: ents). split; [|split; [|split]].
      * rewrite <- app_assoc. simpl. f_equal. lia.
      * simpl. by rewrite Hn.
      * simpl. by rewrite Hi.
      * constructor; [simpl; auto 10|].
        eapply Forall_impl; [exact Hall|]. simpl. intros e (?&?&?&?&?&?). auto 10.
    + destruct (IH acc n) as (ents & -> & Hn & Hi & Hall).
      exists ents. split; [done|]. split; [done|]. split; [done|].
      eapply Forall_impl; [exact Hall|]. simpl. intros e (?&?&?&?&?&?). auto 10.
Qed.

(** What the loop over [spatial_keywords] appends, with two detected
    entities at least. *)
Lemma relate_loop now dl e0 e1 rest kws : forall acc n,
  exists rels,
    fold_left (relate_step uuid4 now dl (e0 :: e1 :: rest)) kws (acc, n)
    = (acc ++ rels, (n + length rels)%nat)
    /\ map relation_type rels
       = map snd (List.filter (fun kw => Py.str_in (fst kw) dl) kws)
    /\ map rel_id rels = map uuid4 (seq n (length rels))
    /\ Forall (fun r => source_id r = id e0 /\ target_id r = id e1
                        /\ rel_confidence r = 0.5
                        /\ In (relation_type r) (map snd kws)) rels.
Proof.
  induction kws as [|[keyword t] kws IH]; intros acc n.
  - exists []. simpl. by rewrite app_nil_r, Nat.add_0_r.
  - cbn [fold_left relate_step map fst snd List.filter].
    rewrite bool_decide_eq_true_2 by (simpl; lia). rewrite andb_true_r.
    destruct (Py.str_in keyword dl) eqn:E.
    + destruct (IH (acc ++ [new_relationship now (uuid4 n) t (id e0) (id e1)]) (S n))
        as (rels & -> & Hn & Hi & Hall).
      eexists (_ :: rels). split; [|split; [|split]].
      * rewrite <- app_assoc. simpl. f_equal. lia.
      * simpl. by rewrite Hn.
      * simpl. by rewrite Hi.
      * constructor; [simpl; auto 10|].
        eapply Forall_impl; [exact Hall|]. simpl. intros r (?&?&?&?). auto 10.
    + destruct (IH acc n) as (rels & -> & Hn & Hi & Hall).
      exists rels. split; [done|]. split; [done|]. split; [done|].
      eapply Forall_impl; [exact Hall|]. simpl. intros r (?&?&?&?). auto 10.
Qed.

(** With fewer than two detected entities the loop appends nothing. *)
Lemma relate_loop_few now dl detected kws : forall acc n,
  (length detected < 2)%nat ->
  fold_left (relate_step uuid4 now dl detected) kws (acc, n) = (acc, n).
Proof.
  induction kws as [|[keyword t] kws IH]; intros acc n Hlen; [done|].
  cbn [fold_left relate_step].
  rewrite bool_decide_eq_false_2 by lia. rewrite andb_false_r. by apply IH.
Qed.
End extraction_facts.

(** X28.  [PhotoProcessor._extract_from_description].  Without a
    description (or with an empty one) the result is a single placeholder
    entity of type UNKNOWN and no relationship.  With a description, the
    entities are named by the keywords of [entity_keywords] that occur in
    the lower-cased description, in the order of the table, each with
    confidence 0.6 and its keyword as only tag; there is no relationship
    with fewer than two entities; otherwise there is one relationship for
    every preposition of [spatial_keywords] that occurs, in the order of
    the table, each spatial and each from the first detected entity to
    the second, wherever the words stand in the text.  The ids of the
    records are the ids drawn in between, in this order. *)
Theorem extract_from_description_spec (uuid4 : nat -> UUID) (Path_stem : string -> string)
    (now : datetime) (n : nat) (description : option string) (image_path : string)
    (entities : list Entity) (relationships : list Relationship) (n' : nat) :
  PhotoProcessor._extract_from_description uuid4 Path_stem now n description image_path
  = (entities, relationships, n') ->
  map id entities ++ map rel_id relationships = map uuid4 (seq n (n' - n))
  /\ (n <= n')%nat
  /\ (Py.truthy_str description = false ->
      entities = [PhotoProcessor.new_entity now (uuid4 n) UNKNOWN (Path_stem image_path)
                    (PhotoProcessor.described "Image without description" ∅) 0.3]
      /\ relationships = [])
  /\ (forall d, description = Some d -> Py.truthy_str description = true ->
        map name entities
        = List.filter (fun kw => Py.str_in kw (Py.lower d))
                      (map fst PhotoProcessor.entity_keywords)
        /\ Forall (fun e => confidence e = 0.6 /\ tags (semantic e) = {[ name e ]}
                            /\ In (name e, entity_type e) PhotoProcessor.entity_keywords)
                  entities
        /\ ((length entities < 2)%nat -> relationships = [])
        /\ (forall e0 e1 rest, entities = e0 :: e1 :: rest ->
              map relation_type relationships
              = map snd (List.filter (fun kw => Py.str_in (fst kw) (Py.lower d))
                                     PhotoProcessor.spatial_keywords)
              /\ Forall (fun r => source_id r = id e0 /\ target_id r = id e1
                                  /\ RelationshipM.is_spatial r = true)
                        relationships)).
Proof.
  unfold PhotoProcessor._extract_from_description.
  destruct (Py.truthy_str description) eqn:Htruthy; cbn [negb].
  - destruct description as [d|]; [|done]. cbn [default from_option]. unfold Datatypes.id.
    destruct (detect_loop uuid4 now d PhotoProcessor.entity_keywords [] n)
      as (ents & Hdet & Hnames & Hids & Hall).
    rewrite Hdet. cbn [app].
    destruct (decide (length ents < 2)%nat) as [Hfew|Hmany].
    + rewrite relate_loop_few by done. intros [= <- <- <-].
      split; [|split; [lia|split; [done|]]].
      { simpl. rewrite app_nil_r, Hids. f_equal. f_equal. lia. }
      intros d' [= <-] _. split; [done|]. split.
      { eapply Forall_impl; [exact Hall|]. simpl. intros e (?&?&?&?&?&?). auto. }
      split; [done|]. intros e0 e1 rest ->. simpl in Hfew. lia.
    + assert (exists e0 e1 rest, ents = e0 :: e1 :: rest) as (e0 & e1 & rest & Hents)
        by (destruct ents as [|? [|? ?]]; simpl in Hmany; [lia..|eauto]).
      destruct (relate_loop uuid4 now (Py.lower d) e0 e1 rest
                  PhotoProcessor.spatial_keywords [] (n + length ents))
        as (rels & Hrel & Htypes & Hrids & Hrall).
      rewrite <- Hents in Hrel. rewrite Hrel. intros [= <- <- <-].
      split; [|split; [lia|split; [done|]]].
      { replace (n + length ents + length rels - n)%nat
          with (length ents + length rels)%nat by lia.
        rewrite seq_app, map_app, Hids, Hrids. done. }
      intros d' [= <-] _. split; [done|]. split.
      { eapply Forall_impl; [exact Hall|]. simpl. intros e (?&?&?&?&?&?). auto. }
      split; [lia|]. intros e0' e1' rest' Heq. rewrite Hents in Heq.
      injection Heq as <- <- <-.
      split; [done|].
      eapply Forall_impl; [exact Hrall|]. simpl. intros r (?&?&?&Hin).
      split; [done|]. split; [done|].
      unfold RelationshipM.is_spatial.
      simpl in Hin. destruct Hin as [<-|[<-|[<-|[<-|[<-|[<-|[]]]]]]]; by vm_compute.
  - intros [= <- <- <-]. split; [|split; [lia|split; [done|done]]].
    simpl. replace (S n - n)%nat with 1%nat by lia. done.
Qed.

Lemma extract_from_description_spec_witness :
  map name (fst (fst (PhotoProcessor._extract_from_description N.of_nat (fun p => p) 0%Z 0
                        (Some "Box on the table") "photo.jpg")))
  = List.filter (fun kw => Py.str_in kw (Py.lower "Box on the table"))
                (map fst PhotoProcessor.entity_keywords).
Proof.
  destruct (extract_from_description_spec N.of_nat (fun p => p) 0%Z 0
              (Some "Box on the table") "photo.jpg" _ _ _ eq_refl)
    as (_ & _ & _ & Hdesc).
  exact (proj1 (Hdesc "Box on the table" eq_refl eq_refl)).
Defined.

Section process_photo_facts.
Import PhotoProcessor ObservationM.

Lemma add_entities_loop es : forall obs,
  fold_left add_entity es obs
  = update obs (obs_entities obs ++ map (fun e => entity_add_device e (device_id obs)) es)
           (obs_relationships obs) (processed obs) (processing_errors obs)
           (obs_metadata obs).
Proof.
  induction es as [|e es IH]; intros obs; simpl.
  - rewrite app_nil_r. by destruct obs.
  - rewrite IH. unfold add_entity, update. simpl. by rewrite <- app_assoc.
Qed.

Lemma add_relationships_loop rs : forall obs,
  fold_left add_relationship rs obs
  = update obs (obs_entities obs)
           (obs_relationships obs
              ++ map (fun r => relationship_add_device r (device_id obs)) rs)
           (processed obs) (processing_errors obs) (obs_metadata obs).
Proof.
  induction rs as [|r rs IH]; intros obs; simpl.
  - rewrite app_nil_r. by destruct obs.
  - rewrite IH. unfold add_relationship, update. simpl. by rewrite <- app_assoc.
Qed.
End process_photo_facts.

(** X29.  [PhotoProcessor.process_photo] (description-based processor).
    When the image cannot be opened the observation is unprocessed, holds
    the message of the exception as its only error, and has no entity and
    no relationship.  Otherwise it is processed without error and holds
    the records of [_extract_from_description], with the same ids, names
    and types, each with the device added to its source devices. *)
Theorem process_photo_spec (uuid4 : nat -> UUID) (Path_stem : string -> string)
    (Image_open : string -> string + (Z * Z * string))
    (now : datetime) (n : nat) (path : string) (description : option string)
    (device : string) (location : option string) (obs : Observation) (n' : nat) :
  PhotoProcessor.process_photo uuid4 Path_stem Image_open now n path description
                               device location = (obs, n') ->
  obs_id obs = uuid4 n /\ device_id obs = device
  /\ image_path obs = Some path /\ obs_description obs = description
  /\ match Image_open path with
     | inl message =>
         processed obs = false /\ processing_errors obs = [message]
         /\ obs_entities obs = [] /\ obs_relationships obs = []
     | inr _ =>
         processed obs = true /\ processing_errors obs = []
         /\ exists es rs,
              PhotoProcessor._extract_from_description uuid4 Path_stem now (S n)
                description path = (es, rs, n')
              /\ map id (obs_entities obs) = map id es
              /\ map rel_id (obs_relationships obs) = map rel_id rs
              /\ Forall2 (fun e' e => source_devices e' = source_devices e ∪ {[ device ]}
                                      /\ name e' = name e /\ entity_type e' = entity_type e)
                         (obs_entities obs) es
              /\ Forall (fun r => device ∈ rel_source_devices r) (obs_relationships obs)
     end.
Proof.
  unfold PhotoProcessor.process_photo.
  destruct (Image_open path) as [message|[[width height] mode]].
  - intros [= <- <-]. simpl. done.
  - destruct (PhotoProcessor._extract_from_description uuid4 Path_stem now (S n)
                description path) as [[es rs] n1] eqn:Hex.
    rewrite add_entities_loop, add_relationships_loop. intros [= <- <-]. simpl.
    do 6 (split; [done|]). exists es, rs. split; [done|].
    split; [by rewrite map_map|]. split; [by rewrite map_map|]. split.
    + induction es as [|e es IH] in |- *; simpl; by constructor.
    + apply Forall_forall. intros r Hr. apply list_elem_of_In, in_map_iff in Hr as (r0 & <- & _).
      simpl. apply elem_of_union_r. by apply elem_of_singleton.
Qed.

Lemma process_photo_spec_witness :
  processed (fst (PhotoProcessor.process_photo N.of_nat (fun p => p)
                    (fun _ => inl "cannot identify image file") 0%Z 0 "photo.jpg"
                    (Some "Box on the table") "phone" None)) = false.
Proof.
  destruct (process_photo_spec N.of_nat (fun p => p)
              (fun _ => inl "cannot identify image file") 0%Z 0 "photo.jpg"
              (Some "Box on the table") "phone" None _ _ eq_refl)
    as (_ & _ & _ & _ & Hfail & _).
  exact Hfail.
Defined.

Section batch_facts.
Import PhotoProcessor.
Variable uuid4 : nat -> UUID.
Variable Path_stem : string -> string.
Variable Image_open : string -> string + (Z * Z * string).

Lemma process_photo_fields now n path description device location :
  let obs := fst (process_photo uuid4 Path_stem Image_open now n path description
                                device location) in
  image_path obs = Some path /\ obs_description obs = description
  /\ device_id obs = device.
Proof.
  unfold process_photo.
  destruct (Image_open path) as [message|[[width height] mode]]; [done|].
  destruct (_extract_from_description uuid4 Path_stem now (S n) description path)
    as [[es rs] n1].
  by rewrite add_entities_loop, add_relationships_loop.
Qed.

Lemma batch_loop_spec now device descriptions paths : forall i n,
  let out := batch_loop uuid4 Path_stem Image_open now device descriptions i paths n in
  length (fst out) = length paths
  /\ forall j obs, fst out !! j = Some obs ->
       image_path obs = paths !! j /\ device_id obs = device
       /\ obs_description obs
          = if Py.truthy_list descriptions then default [] descriptions !! (i + j)%nat
            else None.
Proof.
  induction paths as [|path paths IH]; intros i n; simpl; [done|].
  pose proof (process_photo_fields now n path
                (if Py.truthy_list descriptions then default [] descriptions !! i else None)
                device None) as Hfields.
  destruct (process_photo _ _ _ _ _ _ _ _ _) as [obs n1]. simpl in Hfields.
  specialize (IH (S i) n1).
  destruct (batch_loop _ _ _ _ _ _ _ _ _) as [observations n2]. simpl in *.
  destruct IH as [IH1 IH2]. split; [by rewrite IH1|].
  intros [|j] obs'; simpl.
  - intros [= <-]. destruct Hfields as (-> & -> & ->). by rewrite Nat.add_0_r.
  - intros Hj. destruct (IH2 j obs' Hj) as (? & ? & ->).
    replace (i + S j)%nat with (S (i + j)) by lia. done.
Qed.
End batch_facts.

(** X30.  [PhotoProcessor.batch_process] raises [ValueError] exactly
    when a non-empty list of descriptions has another length than the
    list of paths; an empty list of descriptions is treated like no list.
    Otherwise it returns one observation for every path, in order, each
    with its path, the device, and the description of the same index, if
    descriptions were given. *)
Theorem batch_process_spec (uuid4 : nat -> UUID) (Path_stem : string -> string)
    (Image_open : string -> string + (Z * Z * string))
    (now : datetime) (n : nat) (image_paths : list string)
    (descriptions : option (list string)) (device : string) :
  match PhotoProcessor.batch_process uuid4 Path_stem Image_open now n image_paths
                                     descriptions device with
  | inl exc =>
      (exists msg, exc = ValueError msg)
      /\ exists ds, descriptions = Some ds /\ ds <> []
                    /\ length ds <> length image_paths
  | inr (observations, _) =>
      (forall ds, descriptions = Some ds -> ds <> [] -> length ds = length image_paths)
      /\ length observations = length image_paths
      /\ forall j obs, observations !! j = Some obs ->
           image_path obs = image_paths !! j /\ device_id obs = device
           /\ obs_description obs
              = match descriptions with
                | Some (d :: ds) => (d :: ds) !! j
                | _ => None
                end
  end.
Proof.
  unfold PhotoProcessor.batch_process.
  destruct (Py.truthy_list descriptions) eqn:Htruthy; simpl.
  - destruct descriptions as [[|d ds]|]; try done. simpl.
    case_bool_decide as Hlen; simpl.
    + split; [by eexists|]. exists (d :: ds). done.
    + pose proof (batch_loop_spec uuid4 Path_stem Image_open now device (Some (d :: ds))
                    image_paths 0 n) as Hloop.
      destruct (PhotoProcessor.batch_loop _ _ _ _ _ _ _ _ _) as [observations n2].
      simpl in Hloop. destruct Hloop as [H1 H2].
      split; [by intros ds' [= <-] _|]. split; [done|]. exact H2.
  - pose proof (batch_loop_spec uuid4 Path_stem Image_open now device descriptions
                  image_paths 0 n) as Hloop.
    destruct (PhotoProcessor.batch_loop _ _ _ _ _ _ _ _ _) as [observations n2].
    simpl in Hloop. rewrite Htruthy in Hloop. destruct Hloop as [H1 H2].
    split.
    { intros ds -> Hne. destruct ds; done. }
    split; [done|]. intros j obs Hj. destruct (H2 j obs Hj) as (? & ? & ->).
    by destruct descriptions as [[|? ?]|].
Qed.

Lemma batch_process_spec_witness :
  exists ds, Some ["one"; "two"] = Some ds /\ ds <> []
             /\ length ds <> length ["photo.jpg"].
Proof.
  exact (proj2 (batch_process_spec N.of_nat (fun p => p)
                  (fun _ => inl "cannot identify image file") 0%Z 0 ["photo.jpg"]
                  (Some ["one"; "two"]) "phone")).
Defined.
